(** * vuex-orm: the query and mutation engine ([src/query/Query.ts])

    A shallow embedding of the [Query] class and the properties of its
    identity index, selection pipeline, persistence pipeline and hook
    execution.

    Conventions of the embedding.
    - A JavaScript object used as a map is an association list kept in the
      order in which [Object.keys] enumerates it: array-index keys in
      ascending numeric order, then the other keys in creation order.
    - Numbers are integers ([Z]); the field values are the scalars that the
      key and where machinery compares.
    - The model registry ([Model], [Database], [Container]) and the
      [Processor] are collaborators whose code is outside [Query.ts]; they
      are taken as the record [Container].
    - A callback is a Rocq function.  A hook is modelled by what it returns;
      an update closure by the record it leaves behind. *)

From Stdlib Require Import List String Ascii ZArith NArith Bool Lia DecimalString.
Import ListNotations.
Open Scope string_scope.
Open Scope list_scope.

Set Implicit Arguments.

(** ** JavaScript values and objects *)

Module Js.

Inductive Value : Type :=
| VUndefined
| VNull
| VBool (b : bool)
| VNum (z : Z)
| VStr (s : string).

(** [a === b]; on these values it is also the [SameValueZero] of [Set]. *)
Definition strictEq (a b : Value) : bool :=
  match a, b with
  | VUndefined, VUndefined => true
  | VNull, VNull => true
  | VBool x, VBool y => Bool.eqb x y
  | VNum x, VNum y => Z.eqb x y
  | VStr x, VStr y => String.eqb x y
  | _, _ => false
  end.

(** [String(v)], the conversion of a property key. *)
Definition toString (v : Value) : string :=
  match v with
  | VUndefined => "undefined"
  | VNull => "null"
  | VBool true => "true"
  | VBool false => "false"
  | VNum z => NilZero.string_of_int (Z.to_int z)
  | VStr s => s
  end.

(** [!v] is [negb (truthy v)]. *)
Definition truthy (v : Value) : bool :=
  match v with
  | VUndefined | VNull => false
  | VBool b => b
  | VNum z => negb (Z.eqb z 0)
  | VStr s => negb (String.eqb s EmptyString)
  end.

(** [Array.prototype.indexOf(x) !== -1] and [Set.prototype.has]. *)
Definition includes (x : Value) (l : list Value) : bool :=
  existsb (strictEq x) l.

(** An array index: a canonical numeric string below [2^32 - 1]. *)
Definition array_index (s : string) : option N :=
  match NilZero.uint_of_string s with
  | Some u =>
      let n := N.of_uint u in
      if (NilZero.string_of_uint (N.to_uint n) =? s)%string
         && (n <? 4294967295)%N
      then Some n else None
  | None => None
  end.

(** An object: its own enumerable properties, in [Object.keys] order. *)
Abbreviation Obj V := (list (string * V)).

Section Obj.
Variable V : Type.

Fixpoint obj_get (k : string) (o : Obj V) : option V :=
  match o with
  | [] => None
  | (k', v) :: r => if (k' =? k)%string then Some v else obj_get k r
  end.

Definition obj_has (k : string) (o : Obj V) : bool :=
  match obj_get k o with Some _ => true | None => false end.

Definition obj_keys (o : Obj V) : list string := map fst o.

Definition obj_values (o : Obj V) : list V := map snd o.

Fixpoint obj_replace (k : string) (v : V) (o : Obj V) : Obj V :=
  match o with
  | [] => []
  | (k', v') :: r =>
      if (k' =? k)%string then (k', v) :: r
      else (k', v') :: obj_replace k v r
  end.

(** A new array-index key goes before the first larger index and before
    every name. *)
Fixpoint obj_insert_index (n : N) (k : string) (v : V) (o : Obj V) : Obj V :=
  match o with
  | [] => [(k, v)]
  | (k', v') :: r =>
      match array_index k' with
      | Some n' =>
          if (n <? n')%N then (k, v) :: o
          else (k', v') :: obj_insert_index n k v r
      | None => (k, v) :: o
      end
  end.

(** [o[k] = v]. *)
Definition obj_set (k : string) (v : V) (o : Obj V) : Obj V :=
  if obj_has k o then obj_replace k v o
  else match array_index k with
       | Some n => obj_insert_index n k v o
       | None => o ++ [(k, v)]
       end.

(** [delete o[k]]. *)
Definition obj_delete (k : string) (o : Obj V) : Obj V :=
  filter (fun e => negb (fst e =? k)%string) o.

(** [{ ...a, ...b }]: a new object receiving the properties of [a]
    and then those of [b]. *)
Definition set_entry (acc : Obj V) (e : string * V) : Obj V :=
  obj_set (fst e) (snd e) acc.

Definition spread (a b : Obj V) : Obj V :=
  fold_left set_entry (a ++ b) [].

(** Keys as an engine hands them out: indices ascending, then names,
    none twice.  [key_before a b]: the key [a] may come before [b]. *)
Definition key_before (a b : string) : bool :=
  match array_index a, array_index b with
  | Some m, Some n => (m <? n)%N
  | Some _, None => true
  | None, Some _ => false
  | None, None => negb (a =? b)%string
  end.

Fixpoint keys_wf (l : list string) : bool :=
  match l with
  | [] => true
  | k :: r => forallb (key_before k) r && keys_wf r
  end.

Definition obj_wf (o : Obj V) : bool := keys_wf (obj_keys o).

End Obj.

End Js.

Import Js.

(** ** Data model *)

(** [Data.Record]: field name to value. *)
Abbreviation Record := (Obj Value) (only parsing).

(** A row of the table: a model instance ([ctor] is its constructor, named
    by entity) or, for a state hydrated elsewhere, a plain record
    ([ctor = None]). *)
Record Instance : Type := mkInstance {
  ctor : option string;
  props : Record
}.

Abbreviation Collection := (list Instance) (only parsing).

(** [Data.Records], keyed by id. *)
Abbreviation Records := (Obj Record) (only parsing).

(** [state.data]. *)
Abbreviation Table := (Obj Instance) (only parsing).

(** An entry of a [Data.Instances] batch.  A closure update stages the very
    object the table holds, so a later write to the staged instance is a
    write to that row: [home] names the table key under which the object
    lives, [None] for an instance newly built by [hydrate]. *)
Record Staged : Type := mkStaged {
  inst : Instance;
  home : option string
}.

Abbreviation Instances := (Obj Staged) (only parsing).

Definition fresh (i : Instance) : Staged := {| inst := i; home := None |}.

(** [model.primaryKey]: a field name, or the array of a composite key. *)
Inductive PrimaryKey : Type :=
| PkField (f : string)
| PkComposite (fs : list string).

(** The [field] argument of [where]: a name, or the model's own
    [primaryKey] array (what [whereId] passes for a composite key). *)
Inductive Field : Type :=
| FName (s : string)
| FKeyArray.

Inductive WhereValue : Type :=
| WScalar (v : Value)
| WArray (vs : list Value).

Inductive WhereBoolean : Type := And | Or.

(** [Options.Where]. *)
Record Where : Type := mkWhere {
  field : Field;
  value : WhereValue;
  boolean : WhereBoolean
}.

Inductive OrderDirection : Type := Asc | Desc.

(** [Options.Orders]. *)
Record Orders : Type := mkOrders {
  order_field : string;
  direction : OrderDirection
}.

(** [Contracts.HookableClosure].  One JavaScript function serves whichever
    event it is registered for: [onModel m entity] tells whether the call
    on a model returns [false]; [onCollection] is the collection that the
    call on a collection returns. *)
Record HookableClosure : Type := mkClosure {
  onModel : Instance -> string -> bool;
  onCollection : Collection -> string -> Collection
}.

(** An entry of [Query.hooks[on]]. *)
Record GlobalHook : Type := mkHook {
  id : N;
  callback : HookableClosure;
  once : bool
}.

Abbreviation GlobalHooks := (Obj (list GlobalHook)) (only parsing).

(** One invocation of a hook callback on a model: the event, the global
    hook ([None] for the hook of the model class) and the model. *)
Record HookCall : Type := mkCall {
  call_on : string;
  call_hook : option GlobalHook;
  call_model : Instance
}.

(** The static members [Query.hooks] and [Query.lastHookId], with the
    record of the calls made so far. *)
Record Registry : Type := mkRegistry {
  hooks : GlobalHooks;
  lastHookId : N;
  calls : list HookCall
}.

(** What a query instance works on: its entity state and the statics. *)
Record St : Type := mkSt {
  data : Table;
  reg : Registry
}.

(** The root state (one table per base entity) and the statics. *)
Record World : Type := mkWorld {
  root : Obj Table;
  wreg : Registry
}.

Inductive Payload : Type :=
| POne (r : Record)
| PMany (rs : list Record).

Abbreviation NormalizedData := (Obj Records) (only parsing).

(** The collaborators of [Query]: the model registry reached through
    [Container.database], the static members of [Model], and
    [Processor.normalize]. *)
Record Container : Type := mkContainer {
  (** [database.baseModel(name).entity] *)
  baseModel : string -> string;
  primaryKey : string -> PrimaryKey;
  typeKey : string -> string;
  (** [model.getModelFromRecord(record)]: a constructor, or nothing *)
  getModelFromRecord : string -> Record -> option string;
  getTypeKeyValueFromModel : string -> Value;
  getIndexIdFromRecord : string -> Record -> Value;
  (** the properties of [new model(record)] *)
  construct : string -> option Record -> Record;
  (** [c] is the class [m] or derives from it *)
  extends : string -> string -> bool;
  (** [model[on]], the hook declared on the model class *)
  localHook : string -> string -> option HookableClosure;
  normalize : string -> Payload -> NormalizedData
}.

(** The query instance: the builder state of [Query].  [model] is named by
    [entity]; [have] and [load] stay empty, relation constraints and eager
    loading being the business of [Rollcaller] and [Loader]. *)
Record Query : Type := mkQuery {
  entity : string;
  idFilter : option (list Value);
  cancelIdFilter : bool;
  joinedIdFilter : option (list Value);
  wheres : list Where;
  orders : list Orders;
  offsetNumber : N;
  limitNumber : N
}.

(** [new Query(state, entity)]. *)
Definition newQuery (entity : string) : Query :=
  {| entity := entity;
     idFilter := None;
     cancelIdFilter := false;
     joinedIdFilter := None;
     wheres := [];
     orders := [];
     offsetNumber := 0;
     limitNumber := 2 ^ 53 - 1 |}.

(** [new Set(values)]: the values in insertion order, each once. *)
Definition Set_of (values : list Value) : list Value :=
  fold_left (fun acc v => if includes v acc then acc else acc ++ [v]) values [].

(** [Array.prototype.some]: the result, and the elements the predicate was
    called on. *)
Fixpoint array_some (A : Type) (p : A -> bool) (l : list A) : bool * list A :=
  match l with
  | [] => (false, [])
  | x :: r =>
      if p x then (true, [x])
      else let (b, seen) := array_some p r in (b, x :: seen)
  end.

(** ** Hook registry *)

Definition with_hooks (h : GlobalHooks) (r : Registry) : Registry :=
  {| hooks := h; lastHookId := lastHookId r; calls := calls r |}.

(** Note one more call of a hook on a model. *)
Definition called (name : string) (h : option GlobalHook) (m : Instance)
    (r : Registry) : Registry :=
  {| hooks := hooks r;
     lastHookId := lastHookId r;
     calls := calls r ++ [mkCall name h m] |}.

Definition called_all (name : string) (hs : list GlobalHook) (m : Instance)
    (r : Registry) : Registry :=
  fold_left (fun r h => called name (Some h) m r) hs r.

(** [Query.on(on, callback, once)]. *)
Definition on (name : string) (cb : HookableClosure) (o : bool)
    (r : Registry) : N * Registry :=
  let i := (lastHookId r + 1)%N in
  let registered := match obj_get name (hooks r) with
                    | Some hs => hs
                    | None => []
                    end in
  (i, {| hooks := obj_set name (registered ++ [mkHook i cb o]) (hooks r);
         lastHookId := i;
         calls := calls r |}).

(** [hooks.findIndex(h => h.id === id)] and [hooks.splice(index, 1)] of
    [Query.off]: the hooks without the first one of that id, or nothing
    when no hook has it. *)
Fixpoint spliceById (i : N) (hs : list GlobalHook) : option (list GlobalHook) :=
  match hs with
  | [] => None
  | h :: rest =>
      if (id h =? i)%N then Some rest
      else option_map (cons h) (spliceById i rest)
  end.

(** The [some] of [Query.off] over the event names: it stops at the first
    event that has a hook of that id. *)
Fixpoint offIn (i : N) (names : list string) (h : GlobalHooks)
    : bool * GlobalHooks :=
  match names with
  | [] => (false, h)
  | name :: rest =>
      match obj_get name h with
      | Some hs =>
          match spliceById i hs with
          | Some hs' => (true, obj_set name hs' h)
          | None => offIn i rest h
          end
      | None => offIn i rest h
      end
  end.

(** [Query.off(id)]. *)
Definition off (i : N) (r : Registry) : bool * Registry :=
  let (removed, h) := offIn i (obj_keys (hooks r)) (hooks r) in
  (removed, with_hooks h r).

(** The hooks registered for an event, none where the event has no entry. *)
Definition registered (name : string) (r : Registry) : list GlobalHook :=
  match obj_get name (hooks r) with
  | Some hs => hs
  | None => []
  end.

(** Every registered hook has an id that [Query.on] has handed out. *)
Definition idsHandedOut (r : Registry) : Prop :=
  forall name hs h,
    obj_get name (hooks r) = Some hs -> In h hs -> (id h <= lastHookId r)%N.

(** Remove all callbacks defined as "once" from the global hooks. *)
Definition cleanGlobalHooksOn (name : string) (r : Registry) : Registry :=
  match obj_get name (hooks r) with
  | Some hs =>
      with_hooks (obj_set name (filter (fun hook => negb (once hook)) hs)
                    (hooks r)) r
  | None => r
  end.

(** [executeGlobalBeforeMutationHooks(on, callback)]; the argument [run]
    stands for [callback] and tells whether its call on a hook returns
    [false].  The result is whether the
    method returns [false], with the hooks that were called. *)
Definition executeGlobalBeforeMutationHooks (name : string)
    (run : HookableClosure -> bool) (r : Registry)
    : bool * list GlobalHook * Registry :=
  match obj_get name (hooks r) with
  | None => (false, [], r)
  | Some [] => (false, [], r)
  | Some hs =>
      let (result, seen) :=
        array_some (fun hook => if run (callback hook)
                                then false else true) hs in
      (if result then false else true, seen, cleanGlobalHooksOn name r)
  end.

(** [executeGlobalAfterMutationHooks(on, callback)]: every hook is called. *)
Definition executeGlobalAfterMutationHooks (name : string) (r : Registry)
    : list GlobalHook * Registry :=
  match obj_get name (hooks r) with
  | None => ([], r)
  | Some hs => (hs, cleanGlobalHooksOn name r)
  end.

Section Engine.

Variable C : Container.

(** [this.appliedOnBase], set by the constructor. *)
Definition appliedOnBase (q : Query) : bool :=
  (baseModel C (entity q) =? entity q)%string.

(** *** Mutation hooks.  The methods for create, update and delete differ
    by the event name only. *)

(** [executeLocalBeforeCreateHook] and its siblings: whether the hook of
    the model class returns [false]. *)
Definition executeLocalBeforeMutationHook (name : string) (q : Query)
    (model : Instance) (r : Registry) : bool * Registry :=
  match localHook C (entity q) name with
  | Some hook => (onModel hook model (entity q), called name None model r)
  | None => (false, r)
  end.

Definition executeGlobalBeforeMutationHook (name : string) (q : Query)
    (model : Instance) (r : Registry) : bool * Registry :=
  let '(veto, seen, r') :=
    executeGlobalBeforeMutationHooks name
      (fun hook => onModel hook model (entity q)) r in
  (veto, called_all name seen model r').

(** [executeBeforeCreateHook] and its siblings. *)
Definition executeBeforeMutationHook (name : string) (q : Query)
    (model : Instance) (r : Registry) : bool * Registry :=
  let (veto, r1) := executeLocalBeforeMutationHook name q model r in
  if veto then (true, r1)
  else
    let (veto', r2) := executeGlobalBeforeMutationHook name q model r1 in
    if veto' then (true, r2) else (false, r2).

(** The body of the [forEach] in [executeBeforeCreateHookOnModels] and
    [executeBeforeUpdateHookOnModels]: a vetoed model is deleted from the
    batch. *)
Definition beforeMutationStep (name : string) (q : Query)
    (acc : Instances * Registry) (i : string) : Instances * Registry :=
  let (models, r) := acc in
  match obj_get i models with
  | Some model =>
      let (veto, r') := executeBeforeMutationHook name q (inst model) r in
      if veto then (obj_delete i models, r') else (models, r')
  | None => (models, r)
  end.

Definition executeBeforeMutationHookOnModels (name : string) (q : Query)
    (models : Instances) (r : Registry) : Instances * Registry :=
  fold_left (beforeMutationStep name q) (obj_keys models) (models, r).

Definition executeLocalAfterMutationHook (name : string) (q : Query)
    (model : Instance) (r : Registry) : Registry :=
  match localHook C (entity q) name with
  | Some hook => called name None model r
  | None => r
  end.

Definition executeGlobalAfterMutationHook (name : string) (q : Query)
    (model : Instance) (r : Registry) : Registry :=
  let (seen, r') := executeGlobalAfterMutationHooks name r in
  called_all name seen model r'.

(** [executeAfterCreateHook] and its siblings. *)
Definition executeAfterMutationHook (name : string) (q : Query)
    (model : Instance) (r : Registry) : Registry :=
  executeGlobalAfterMutationHook name q model
    (executeLocalAfterMutationHook name q model r).

Definition executeAfterMutationHookOnModels (name : string) (q : Query)
    (models : Instances) (r : Registry) : Registry :=
  fold_left
    (fun r id =>
       match obj_get id models with
       | Some model => executeAfterMutationHook name q (inst model) r
       | None => r
       end)
    (obj_keys models) r.

Definition executeBeforeCreateHook := executeBeforeMutationHook "beforeCreate".
Definition executeBeforeUpdateHook := executeBeforeMutationHook "beforeUpdate".
Definition executeBeforeDeleteHook := executeBeforeMutationHook "beforeDelete".
Definition executeAfterCreateHook := executeAfterMutationHook "afterCreate".
Definition executeAfterUpdateHook := executeAfterMutationHook "afterUpdate".
Definition executeAfterDeleteHook := executeAfterMutationHook "afterDelete".
Definition executeBeforeCreateHookOnModels :=
  executeBeforeMutationHookOnModels "beforeCreate".
Definition executeBeforeUpdateHookOnModels :=
  executeBeforeMutationHookOnModels "beforeUpdate".
Definition executeAfterCreateHookOnModels :=
  executeAfterMutationHookOnModels "afterCreate".
Definition executeAfterUpdateHookOnModels :=
  executeAfterMutationHookOnModels "afterUpdate".

(** *** Retrieve hooks *)

Definition executeLocalRetrieveHook (name : string) (q : Query)
    (models : Collection) : Collection :=
  match localHook C (entity q) name with
  | Some hook => onCollection hook models (entity q)
  | None => models
  end.

Definition executeGlobalRetrieveHook (name : string) (q : Query)
    (models : Collection) (r : Registry) : Collection * Registry :=
  match obj_get name (hooks r) with
  | None => (models, r)
  | Some hs =>
      (fold_left (fun collection hook =>
                    onCollection (callback hook) collection (entity q))
                 hs models,
       cleanGlobalHooksOn name r)
  end.

Definition executeRetrieveHook (name : string) (q : Query)
    (models : Collection) (r : Registry) : Collection * Registry :=
  executeGlobalRetrieveHook name q
    (executeLocalRetrieveHook name q models) r.

(** *** Reading the record of calls *)


(** No once-flagged hook is registered for the event. *)
Definition noOnce (name : string) (r : Registry) : Prop :=
  forall hs hook,
    obj_get name (hooks r) = Some hs -> In hook hs -> once hook = false.

(** The calls made between two states of the registry. *)
Definition callsSince (r r' : Registry) : list HookCall :=
  skipn (List.length (calls r)) (calls r').

(** *** Identity index and query builder *)

Definition with_idFilter (f : option (list Value)) (q : Query) : Query :=
  {| entity := entity q; idFilter := f;
     cancelIdFilter := cancelIdFilter q;
     joinedIdFilter := joinedIdFilter q; wheres := wheres q;
     orders := orders q; offsetNumber := offsetNumber q;
     limitNumber := limitNumber q |}.

Definition with_joinedIdFilter (f : option (list Value)) (q : Query) : Query :=
  {| entity := entity q; idFilter := idFilter q;
     cancelIdFilter := cancelIdFilter q;
     joinedIdFilter := f; wheres := wheres q;
     orders := orders q; offsetNumber := offsetNumber q;
     limitNumber := limitNumber q |}.

Definition with_cancelIdFilter (b : bool) (q : Query) : Query :=
  {| entity := entity q; idFilter := idFilter q;
     cancelIdFilter := b;
     joinedIdFilter := joinedIdFilter q; wheres := wheres q;
     orders := orders q; offsetNumber := offsetNumber q;
     limitNumber := limitNumber q |}.

Definition push_where (w : Where) (q : Query) : Query :=
  {| entity := entity q; idFilter := idFilter q;
     cancelIdFilter := cancelIdFilter q;
     joinedIdFilter := joinedIdFilter q; wheres := wheres q ++ [w];
     orders := orders q; offsetNumber := offsetNumber q;
     limitNumber := limitNumber q |}.

(** [this.model.primaryKey] as a [field] argument. *)
Definition keyField (q : Query) : Field :=
  match primaryKey C (entity q) with
  | PkField f => FName f
  | PkComposite _ => FKeyArray
  end.

(** [field === this.model.primaryKey]. *)
Definition isPrimaryKey (q : Query) (f : Field) : bool :=
  match f, primaryKey C (entity q) with
  | FName s, PkField p => (s =? p)%string
  | FKeyArray, PkComposite _ => true
  | _, _ => false
  end.

Definition isIdfilterable (q : Query) (f : Field) : bool :=
  isPrimaryKey q f && negb (cancelIdFilter q).

(** [Array.isArray(value) ? value : [value]]. *)
Definition valuesOf (v : WhereValue) : list Value :=
  match v with
  | WArray vs => vs
  | WScalar x => [x]
  end.

Definition setIdFilter (q : Query) (v : WhereValue) : Query :=
  let values := valuesOf v in
  match idFilter q with
  | None => with_idFilter (Some (Set_of values)) q
  | Some current =>
      with_idFilter
        (Some (Set_of (filter (fun x => includes x current) values))) q
  end.

Definition setJoinedIdFilter (q : Query) (values : list Value) : Query :=
  match joinedIdFilter q with
  | None => with_joinedIdFilter (Some (Set_of values)) q
  | Some current =>
      with_joinedIdFilter
        (Some (Set_of (filter (fun x => includes x current) values))) q
  end.

(** [where(field, value)] ([where] is a keyword of Rocq). *)
Definition where_ (q : Query) (f : Field) (v : WhereValue) : Query :=
  let q1 := if isIdfilterable q f then setIdFilter q v else q in
  push_where {| field := f; value := v; boolean := And |} q1.

Definition orWhere (q : Query) (f : Field) (v : WhereValue) : Query :=
  push_where {| field := f; value := v; boolean := Or |}
             (with_cancelIdFilter true q).

Definition whereId (q : Query) (v : Value) : Query :=
  where_ q (keyField q) (WScalar v).

Definition whereIdIn (q : Query) (vs : list Value) : Query :=
  where_ q (keyField q) (WArray vs).

Definition whereFk (q : Query) (f : string) (v : WhereValue) : Query :=
  let values := valuesOf v in
  if isPrimaryKey q (FName f) then setJoinedIdFilter q values
  else where_ q (FName f) (WArray values).

Definition orderBy (q : Query) (f : string) (d : OrderDirection) : Query :=
  {| entity := entity q; idFilter := idFilter q;
     cancelIdFilter := cancelIdFilter q;
     joinedIdFilter := joinedIdFilter q; wheres := wheres q;
     orders := orders q ++ [{| order_field := f; direction := d |}];
     offsetNumber := offsetNumber q; limitNumber := limitNumber q |}.

Definition offset (q : Query) (n : N) : Query :=
  {| entity := entity q; idFilter := idFilter q;
     cancelIdFilter := cancelIdFilter q;
     joinedIdFilter := joinedIdFilter q; wheres := wheres q;
     orders := orders q; offsetNumber := n;
     limitNumber := limitNumber q |}.

Definition limit (q : Query) (n : N) : Query :=
  {| entity := entity q; idFilter := idFilter q;
     cancelIdFilter := cancelIdFilter q;
     joinedIdFilter := joinedIdFilter q; wheres := wheres q;
     orders := orders q; offsetNumber := offsetNumber q;
     limitNumber := n |}.

(** Check whether if id filters should on select. If not, clear out id
    filter. *)
Definition finalizeIdFilter (q : Query) : Query :=
  match idFilter q with
  | Some current =>
      if cancelIdFilter q
      then with_idFilter None (where_ q (keyField q) (WArray current))
      else q
  | None => q
  end.

(** Get a list of id that should be used to lookup when fetching records
    from the state. *)
Definition getIdsToLookup (q : Query) (t : Table) : list Value :=
  match idFilter q, joinedIdFilter q with
  | Some ids, Some joined => filter (fun x => includes x joined) ids
  | Some ids, None => ids
  | None, Some joined => joined
  | None, None => map VStr (obj_keys t)
  end.

(** *** The Filter service *)

(** The property name that [record[field]] reads. *)
Definition fieldName (q : Query) (f : Field) : string :=
  match f with
  | FName s => s
  | FKeyArray =>
      match primaryKey C (entity q) with
      | PkComposite fs => String.concat "," fs
      | PkField p => p
      end
  end.

Definition readField (name : string) (record : Instance) : Value :=
  match obj_get name (props record) with
  | Some v => v
  | None => VUndefined
  end.

(** Modelled from the spec: the comparison of one where clause, which is
    made by [Filter] ([query/filters/Filter.ts], not among the sources).
    A clause is an equality test of the field against a scalar value and
    a membership test against an array of values. *)
Definition whereOnRecord (q : Query) (record : Instance) (w : Where) : bool :=
  let v := readField (fieldName q (field w)) record in
  match value w with
  | WScalar x => strictEq v x
  | WArray xs => includes v xs
  end.

Definition isAnd (w : Where) : bool :=
  match boolean w with And => true | Or => false end.

Definition isOr (w : Where) : bool :=
  match boolean w with And => false | Or => true end.

(** Modelled from the spec: [Filter.where] ([query/filters/Filter.ts], not
    among the sources), the boolean evaluation of the recorded and/or
    clauses with union semantics for [or]: without clauses every record
    passes; otherwise a record passes when all its [and] clauses hold or
    one of its [or] clauses holds. *)
Definition Filter_where (q : Query) (records : Collection) : Collection :=
  match wheres q with
  | [] => records
  | _ =>
      filter
        (fun record =>
           let ands := filter isAnd (wheres q) in
           let ors := filter isOr (wheres q) in
           (negb (Nat.eqb (List.length ands) 0) && forallb (whereOnRecord q record) ands)
           || (negb (Nat.eqb (List.length ors) 0) && existsb (whereOnRecord q record) ors))
        records
  end.

Definition compareValues (a b : Value) : comparison :=
  match a, b with
  | VNum x, VNum y => Z.compare x y
  | VStr x, VStr y => String.compare x y
  | _, _ => Eq
  end.

Fixpoint compareBy (os : list Orders) (a b : Instance) : comparison :=
  match os with
  | [] => Eq
  | o :: rest =>
      let c := compareValues (readField (order_field o) a)
                             (readField (order_field o) b) in
      match match direction o with Asc => c | Desc => CompOpp c end with
      | Eq => compareBy rest a b
      | c' => c'
      end
  end.

Fixpoint insertOrdered (os : list Orders) (x : Instance) (l : Collection)
    : Collection :=
  match l with
  | [] => [x]
  | y :: r =>
      match compareBy os x y with
      | Gt => y :: insertOrdered os x r
      | _ => x :: l
      end
  end.

(** Modelled from the spec: [Filter.orderBy] ([query/filters/Filter.ts], not
    among the sources), a stable multi-key sort; numbers compare by
    value, strings by character order. *)
Definition Filter_orderBy (q : Query) (records : Collection) : Collection :=
  match orders q with
  | [] => records
  | os => fold_right (insertOrdered os) [] records
  end.

Fixpoint drop (n : N) (l : Collection) : Collection :=
  match l with
  | [] => []
  | _ :: r => if (n =? 0)%N then l else drop (N.pred n) r
  end.

Fixpoint take (n : N) (l : Collection) : Collection :=
  match l with
  | [] => []
  | x :: r => if (n =? 0)%N then [] else x :: take (N.pred n) r
  end.

(** Modelled from the spec: [Filter.limit] ([query/filters/Filter.ts], not
    among the sources), the offset/limit slicing. *)
Definition Filter_limit (q : Query) (records : Collection) : Collection :=
  take (limitNumber q) (drop (offsetNumber q) records).

Definition filterWhere := Filter_where.
Definition filterOrderBy := Filter_orderBy.
Definition filterLimit := Filter_limit.

(** *** Hydration *)

(** [new model(record)]. *)
Definition new (model : string) (record : option Record) : Instance :=
  {| ctor := Some model; props := construct C model record |}.

(** [x instanceof Model]. *)
Definition isModel (x : Instance) : bool :=
  match ctor x with Some _ => true | None => false end.

(** [x instanceof model]. *)
Definition instanceOf (x : Instance) (model : string) : bool :=
  match ctor x with
  | Some c => extends C c model
  | None => false
  end.

(** [hydrate(record, forceModel)].  The record may be missing
    ([undefined]).  The second component is the record as the call leaves
    it: the type key is written into the record itself. *)
Definition hydrate (q : Query) (record : option Record)
    (forceModel : option string) : Instance * option Record :=
  match forceModel with
  | Some m => (new m record, record)
  | None =>
      match record with
      | Some r =>
          match getModelFromRecord C (entity q) r with
          | Some newModel => (new newModel (Some r), Some r)
          | None =>
              let r' :=
                if appliedOnBase q then r
                else obj_set (typeKey C (entity q))
                             (getTypeKeyValueFromModel C (entity q)) r in
              (new (entity q) (Some r'), Some r')
          end
      | None => (new (entity q) None, None)
      end
  end.

(** *** Selection pipeline *)

Definition with_data (t : Table) (st : St) : St :=
  {| data := t; reg := reg st |}.

Definition with_reg (r : Registry) (st : St) : St :=
  {| data := data st; reg := r |}.

(** The body of the [map] and [filter] of [records]: fetch the row of one
    id, hydrate it unless it is a model instance already, and leave it out
    when a derived entity is queried and the row is of another type.
    Hydrating a plain row writes into that row. *)
Definition fetch (q : Query) (acc : Collection * Table) (id : Value)
    : Collection * Table :=
  let (found, t) := acc in
  let key := toString id in
  let (hydrated, t') :=
    match obj_get key t with
    | Some model =>
        if isModel model then (model, t)
        else
          match hydrate q (Some (props model)) None with
          | (h, Some r) => (h, obj_set key {| ctor := None; props := r |} t)
          | (h, None) => (h, t)
          end
    | None => (fst (hydrate q None None), t)
    end in
  if negb (appliedOnBase q) && negb (instanceOf hydrated (entity q))
  then (found, t')
  else (found ++ [hydrated], t').

(** [records()]; the query comes back with its id filter finalized. *)
Definition records (q : Query) (st : St) : Collection * Query * St :=
  let q1 := finalizeIdFilter q in
  let (found, t) :=
    fold_left (fetch q1) (getIdsToLookup q1 (data st)) ([], data st) in
  (found, q1, with_data t st).

(** [select()].  No [has] constraint is recorded, so
    [Rollcaller.applyConstraints] has nothing to apply. *)
Definition select (q : Query) (st : St) : Collection * Query * St :=
  let '(found, q1, st1) := records q st in
  let (r1, g1) := executeRetrieveHook "beforeSelect" q1 found (reg st1) in
  let r2 := filterWhere q1 r1 in
  let (r3, g3) := executeRetrieveHook "afterWhere" q1 r2 g1 in
  let r4 := filterOrderBy q1 r3 in
  let (r5, g5) := executeRetrieveHook "afterOrderBy" q1 r4 g3 in
  let r6 := filterLimit q1 r5 in
  let (r7, g7) := executeRetrieveHook "afterLimit" q1 r6 g5 in
  (r7, q1, with_reg g7 st1).

(** [collect(collection)], no relation being loaded. *)
Definition collect (collection : Collection) : Collection :=
  match collection with
  | [] => []
  | _ => collection
  end.

(** [get()]. *)
Definition get (q : Query) (st : St) : Collection * Query * St :=
  let '(found, q1, st1) := select q st in
  (collect found, q1, st1).

(** [find(id)], for an id given as a number or a string. *)
Definition find (q : Query) (i : Value) (st : St) : option Instance :=
  obj_get (toString i) (data st).

(** *** Persistence pipeline: the operations on one table *)

(** [map(instances)] ([map] names the list function here). *)
Definition map_ (instances : Instances) : Collection :=
  flat_map (fun i => match obj_get i instances with
                     | Some model => [inst model]
                     | None => []
                     end)
           (obj_keys instances).

(** The instances of a batch, as [{ ...this.state.data, ...instances }]
    reads them. *)
Definition unstage (instances : Instances) : Table :=
  map (fun e => (fst e, inst (snd e))) instances.

(** The body of the [reduce] in [filterData]. *)
Definition filterStep (S : Type) (predicate : Instance -> S -> bool * S)
    (t : Table) (acc : Table * S) (i : string) : Table * S :=
  let (models, s) := acc in
  match obj_get i t with
  | Some model =>
      let (keep, s') := predicate model s in
      (if keep then obj_set i model models else models, s')
  | None => acc
  end.

(** [filterData(predicate)]; [S] is what the predicate reads and writes
    besides the model. *)
Definition filterData (S : Type) (predicate : Instance -> S -> bool * S)
    (t : Table) (s : S) : Table * S :=
  fold_left (filterStep predicate t) (obj_keys t) ([], s).

Definition hydrateMany (q : Query) (records : Records) : Instances :=
  fold_left
    (fun (instances : Instances) i =>
       match option_map (fun record =>
                           fresh (fst (hydrate q (Some record) None)))
                        (obj_get i records) with
       | Some instance => obj_set i instance instances
       | None => instances
       end)
    (obj_keys records) [].

(** [hydrate({ ...instance, ...record })], keeping the constructor of an
    instance of another model: the merge of [combine] and
    [processUpdate]. *)
Definition merge (q : Query) (instance : Instance) (record : Record)
    : Instance :=
  match ctor instance with
  | Some c =>
      if negb (c =? entity q)%string
      then fst (hydrate q (Some (spread (props instance) record)) (Some c))
      else fst (hydrate q (Some (spread (props instance) record)) None)
  | None => fst (hydrate q (Some (spread (props instance) record)) None)
  end.

(** The instance that [combine] has for an id: the merge of the row and
    the record, or nothing where the table has no row. *)
Definition combined (q : Query) (records : Records) (t : Table)
    (i : string) : option Staged :=
  match obj_get i t with
  | None => None
  | Some instance =>
      option_map (fun record => fresh (merge q instance record))
                 (obj_get i records)
  end.

Definition combine (q : Query) (records : Records) (t : Table) : Instances :=
  fold_left
    (fun (instances : Instances) i =>
       match combined q records t i with
       | Some instance => obj_set i instance instances
       | None => instances
       end)
    (obj_keys records) [].

(** The body of the [for...in] of [emptyState]. *)
Definition emptyStep (q : Query) (t : Table) (i : string) : Table :=
  match obj_get i t with
  | Some row => if instanceOf row (entity q) then obj_delete i t else t
  | None => t
  end.

(** [emptyState()]. *)
Definition emptyState (q : Query) (t : Table) : Table :=
  if appliedOnBase q then [] else fold_left (emptyStep q) (obj_keys t) t.

(** [commitCreateOnRecords(models, callback)]: [callback] is the write to
    the table. *)
Definition commitCreateOnRecords (q : Query) (models : Instances)
    (callback : Instances -> Table -> Table) (st : St) : Instances * St :=
  let (models1, r1) := executeBeforeCreateHookOnModels q models (reg st) in
  let t1 := callback models1 (data st) in
  let r2 := executeAfterCreateHookOnModels q models1 r1 in
  (models1, {| data := t1; reg := r2 |}).

Definition createMany (q : Query) (records : Records) (st : St)
    : Collection * St :=
  let instances := hydrateMany q records in
  let createCallback := fun (instances : Instances) (t : Table) =>
    spread (emptyState q t) (unstage instances) in
  let (instances', st') := commitCreateOnRecords q instances createCallback st in
  (map_ instances', st').

Definition insertMany (q : Query) (records : Records) (st : St)
    : Collection * St :=
  let instances := hydrateMany q records in
  let (instances', st') :=
    commitCreateOnRecords q instances
      (fun (instances : Instances) (t : Table) => spread t (unstage instances))
      st in
  (map_ instances', st').

(** The [data] of [processUpdate]: a partial record or a closure, which
    is given by the record it leaves behind. *)
Inductive UpdateData : Type :=
| UpdateRecord (r : Record)
| UpdateClosure (f : Record -> Record).

Definition processUpdate (q : Query) (d : UpdateData) (instance : Instance)
    : Instance :=
  match d with
  | UpdateClosure f => {| ctor := ctor instance; props := f (props instance) |}
  | UpdateRecord r => merge q instance r
  end.

(** What [processUpdate] hands to the batch.  A closure has edited the row
    of the table in place and that row itself is staged. *)
Definition stage (d : UpdateData) (key : string) (updated : Instance)
    (t : Table) : Staged * Table :=
  match d with
  | UpdateClosure _ =>
      ({| inst := updated; home := Some key |}, obj_set key updated t)
  | UpdateRecord _ => (fresh updated, t)
  end.

(** [instance.$id = id]. *)
Definition setId (i : string) (instance : Instance) : Instance :=
  {| ctor := ctor instance; props := obj_set "$id" (VStr i) (props instance) |}.

(** [String(this.model.getIndexIdFromRecord(instance))]. *)
Definition indexId (q : Query) (instance : Instance) : string :=
  toString (getIndexIdFromRecord C (entity q) (props instance)).

(** The body of the [reduce] in [updateIndexes].  The batch is edited in
    place; the write of [$id] reaches the table when the instance is one
    of its rows. *)
Definition indexStep (q : Query) (acc : Instances * Table) (key : string)
    : Instances * Table :=
  let (instances, t) := acc in
  match obj_get key instances with
  | Some staged =>
      let i := indexId q (inst staged) in
      if (key =? i)%string then acc
      else
        let instance := setId i (inst staged) in
        (obj_delete key
           (obj_set i {| inst := instance; home := home staged |} instances),
         match home staged with
         | Some h => obj_set h instance t
         | None => t
         end)
  | None => acc
  end.

(** [updateIndexes(instances)]. *)
Definition updateIndexes (q : Query) (instances : Instances) (t : Table)
    : Instances * Table :=
  fold_left (indexStep q) (obj_keys instances) (instances, t).

(** [commitUpdateOnRecords(models, callback)]. *)
Definition commitUpdateOnRecords (q : Query) (models : Instances)
    (callback : Instances -> Table -> Table) (st : St) : Instances * St :=
  let (models1, r1) := executeBeforeUpdateHookOnModels q models (reg st) in
  let t1 := callback models1 (data st) in
  let r2 := executeAfterUpdateHookOnModels q models1 r1 in
  (models1, {| data := t1; reg := r2 |}).

(** [commitUpdate(instances)].  The batch object as the call leaves it is
    returned as well: [updateById] reads it afterwards. *)
Definition commitUpdate (q : Query) (instances : Instances) (st : St)
    : Collection * Instances * St :=
  let (instances1, t1) := updateIndexes q instances (data st) in
  let (instances2, st2) :=
    commitUpdateOnRecords q instances1
      (fun (instances : Instances) (t : Table) => spread t (unstage instances))
      (with_data t1 st) in
  (map_ instances2, instances2, st2).

Definition updateMany (q : Query) (records : Records) (st : St)
    : Collection * St :=
  let instances := combine q records (data st) in
  let '(updated, _, st') := commitUpdate q instances st in
  (updated, st').

(** [updateById(data, id)]. *)
Definition updateById (q : Query) (d : UpdateData) (i : Value) (st : St)
    : option Instance * St :=
  let key := toString i in
  match obj_get key (data st) with
  | None => (None, st)
  | Some instance =>
      let (staged, t) := stage d key (processUpdate q d instance) (data st) in
      let instances := obj_set key staged [] in
      let '(_, instances', st') := commitUpdate q instances (with_data t st) in
      (option_map inst (obj_get key instances'), st')
  end.

(** [updateByCondition(data, condition)]. *)
Definition updateByCondition (q : Query) (d : UpdateData)
    (condition : Instance -> bool) (st : St) : Collection * St :=
  let (instances, t) :=
    fold_left
      (fun (acc : Instances * Table) key =>
         let (instances, t) := acc in
         match obj_get key t with
         | Some instance =>
             if condition instance then
               let (staged, t') :=
                 stage d key (processUpdate q d instance) t in
               (obj_set key staged instances, t')
             else acc
         | None => acc
         end)
      (obj_keys (data st)) ([], data st) in
  let '(updated, _, st') := commitUpdate q instances (with_data t st) in
  (updated, st').

(** The body of the [forEach] in [insertOrUpdateMany]. *)
Definition partitionStep (records : Records) (t : Table)
    (acc : Records * Records) (i : string) : Records * Records :=
  let (toBeInserted, toBeUpdated) := acc in
  match obj_get i records with
  | Some record =>
      if obj_has i t
      then (toBeInserted, obj_set i record toBeUpdated)
      else (obj_set i record toBeInserted, toBeUpdated)
  | None => acc
  end.

(** [insertOrUpdateMany(records)]. *)
Definition insertOrUpdateMany (q : Query) (records : Records) (st : St)
    : Collection * St :=
  let (toBeInserted, toBeUpdated) :=
    fold_left (partitionStep records (data st)) (obj_keys records) ([], []) in
  let (inserted, st1) := insertMany q toBeInserted st in
  let (updated, st2) := updateMany q toBeUpdated st1 in
  (inserted ++ updated, st2).

(** The predicate that [deleteByCondition] gives to [filterData]: it
    tells whether the model is kept, collects the deleted models and runs
    the delete hooks. *)
Definition keepOnDelete (q : Query) (condition : Instance -> bool)
    (model : Instance) (s : Collection * Registry)
    : bool * (Collection * Registry) :=
  let (deleted, r) := s in
  if negb (condition model) then (true, s)
  else
    let (veto, r1) := executeBeforeDeleteHook q model r in
    if veto then (true, (deleted, r1))
    else (false, (deleted ++ [model], executeAfterDeleteHook q model r1)).

(** [deleteByCondition(condition)]. *)
Definition deleteByCondition (q : Query) (condition : Instance -> bool)
    (st : St) : Collection * St :=
  let '(t, (deleted, r)) :=
    filterData (keepOnDelete q condition) (data st) ([], reg st) in
  (deleted, {| data := t; reg := r |}).

(** [deleteById(id)]. *)
Definition deleteById (q : Query) (i : Value) (st : St)
    : option Instance * St :=
  match find q i st with
  | None => (None, st)
  | Some item =>
      let (deleted, st') :=
        deleteByCondition q
          (fun model => strictEq (readField "$id" model) (readField "$id" item))
          st in
      (hd_error deleted, st')
  end.

(** [deleteAll()]. *)
Definition deleteAll (q : Query) (st : St) : Collection * St :=
  if appliedOnBase q then deleteByCondition q (fun _ => true) st
  else deleteByCondition q (fun model => instanceOf model (entity q)) st.

(** *** Persistence pipeline: the calls on the root state *)

Inductive JsError : Type :=
| Error (message : string)
| TypeError.

Inductive Outcome (A : Type) : Type :=
| Returned (a : A) (w : World)
| Thrown (e : JsError) (w : World).

Arguments Returned {A} a w.
Arguments Thrown {A} e w.

(** A call: it returns or throws, and leaves a world. *)
Definition Call (A : Type) : Type := World -> Outcome A.

Definition ret (A : Type) (a : A) : Call A := fun w => Returned a w.

Definition throw (A : Type) (e : JsError) : Call A := fun w => Thrown e w.

Arguments throw {A} e.

Definition bind (A B : Type) (c : Call A) (k : A -> Call B) : Call B :=
  fun w =>
    match c w with
    | Returned a w' => k a w'
    | Thrown e w' => Thrown e w'
    end.

Notation "x <- c ;; k" := (bind c (fun x => k))
  (at level 61, c at next level, right associativity).

(** A method of the query run on [this.state], the state of the base
    entity.  Where the root state has no such entry, [this.state] is
    [undefined] and the method throws a [TypeError] at its first read of
    [this.state.data]; the hook calls that [createMany] and [insertMany]
    make before that read are left out. *)
Definition onState (A : Type) (q : Query) (method : St -> A * St) : Call A :=
  fun w =>
    match obj_get (baseModel C (entity q)) (root w) with
    | Some t =>
        let (a, st) := method {| data := t; reg := wreg w |} in
        Returned a {| root := obj_set (baseModel C (entity q)) (data st) (root w);
                      wreg := reg st |}
    | None => Thrown TypeError w
    end.

Inductive PersistMethod : Type := Create | Insert | Update | InsertOrUpdate.

(** [PersistOptions]: the entities to persist by each method. *)
Record PersistOptions : Type := mkOptions {
  create_ : option (list string);
  insert_ : option (list string);
  update_ : option (list string);
  insertOrUpdate_ : option (list string)
}.

(** [list && list.includes(entity)]. *)
Definition lists (l : option (list string)) (e : string) : bool :=
  match l with
  | Some names => existsb (String.eqb e) names
  | None => false
  end.

Definition getPersistMethod (e : string) (method : PersistMethod)
    (options : PersistOptions) : PersistMethod :=
  if lists (create_ options) e then Create
  else if lists (insert_ options) e then Insert
  else if lists (update_ options) e then Update
  else if lists (insertOrUpdate_ options) e then InsertOrUpdate
  else method.

(** [query[`${persistMethod}Many`]]. *)
Definition many (method : PersistMethod) (q : Query) (records : Records)
    : St -> Collection * St :=
  match method with
  | Create => createMany q records
  | Insert => insertMany q records
  | Update => updateMany q records
  | InsertOrUpdate => insertOrUpdateMany q records
  end.

Abbreviation Collections := (Obj Collection) (only parsing).

(** [Utils.isEmpty(data)] on normalized data. *)
Definition isEmpty (d : NormalizedData) : bool :=
  match d with [] => true | _ => false end.

(** [persist(data, method, options)]. *)
Definition persist (q : Query) (d : Payload) (method : PersistMethod)
    (options : PersistOptions) : Call Collections :=
  let normalized := normalize C (entity q) d in
  if isEmpty normalized then
    match method with
    | Create =>
        _ <- onState q (fun st => (tt, with_data (emptyState q (data st)) st)) ;;
        ret []
    | _ => ret []
    end
  else
    fold_left
      (fun (acc : Call Collections) e =>
         collection <- acc ;;
         match obj_get e normalized with
         | Some batch =>
             let query := newQuery e in
             let persistMethod := getPersistMethod e method options in
             found <- onState query (many persistMethod query batch) ;;
             ret (match found with
                  | [] => collection
                  | _ => obj_set e found collection
                  end)
         | None => ret collection
         end)
      (obj_keys normalized) (ret []).


Definition insert (q : Query) (d : Payload) (options : PersistOptions)
    : Call Collections :=
  persist q d Insert options.

Definition insertOrUpdate (q : Query) (d : Payload) (options : PersistOptions)
    : Call Collections :=
  persist q d InsertOrUpdate options.

(** The [data] of [update]. *)
Inductive UpdatePayload : Type :=
| DataArray (rs : list Record)
| DataRecord (r : Record)
| DataClosure (f : Record -> Record).

(** [UpdateCondition]: a number, a string or [null], or a predicate. *)
Inductive UpdateCondition : Type :=
| ConditionValue (v : Value)
| ConditionPredicate (p : Instance -> bool).

Inductive UpdateResult : Type :=
| UpdatedItem (item : option Instance)
| UpdatedCollection (c : Collection)
| UpdatedCollections (cs : Collections).

Definition missingWhere : string :=
  "You must specify `where` to update records by specifying `data` as a closure.".

Definition compositeKeyWhere : string :=
  "
      You can't specify `where` value as `string` or `number` when you
      have a composite key defined in your model. Please include composite
      keys to the `data` fields.
    ".

(** [update(data, condition, options)]. *)
Definition update (q : Query) (d : UpdatePayload) (condition : UpdateCondition)
    (options : PersistOptions) : Call UpdateResult :=
  match d with
  | DataArray rs =>
      cs <- persist q (PMany rs) Update options ;;
      ret (UpdatedCollections cs)
  | DataClosure f =>
      match condition with
      | ConditionValue v =>
          if negb (truthy v) then throw (Error missingWhere)
          else
            item <- onState q (updateById q (UpdateClosure f) v) ;;
            ret (UpdatedItem item)
      | ConditionPredicate p =>
          c <- onState q (updateByCondition q (UpdateClosure f) p) ;;
          ret (UpdatedCollection c)
      end
  | DataRecord r =>
      match condition with
      | ConditionPredicate p =>
          c <- onState q (updateByCondition q (UpdateRecord r) p) ;;
          ret (UpdatedCollection c)
      | ConditionValue v =>
          if negb (truthy v) then
            cs <- persist q (POne r) Update options ;;
            ret (UpdatedCollections cs)
          else
            match primaryKey C (entity q) with
            | PkComposite _ => throw (Error compositeKeyWhere)
            | PkField _ =>
                item <- onState q (updateById q (UpdateRecord r) v) ;;
                ret (UpdatedItem item)
            end
      end
  end.

Inductive DeleteCondition : Type :=
| DeleteId (i : Value)
| DeletePredicate (p : Instance -> bool).

Inductive DeleteResult : Type :=
| DeletedItem (item : option Instance)
| DeletedCollection (c : Collection).

(** [delete(condition)], for a predicate or an id given as a number or
    a string. *)
Definition delete (q : Query) (condition : DeleteCondition)
    : Call DeleteResult :=
  match condition with
  | DeletePredicate p =>
      c <- onState q (deleteByCondition q p) ;;
      ret (DeletedCollection c)
  | DeleteId i =>
      item <- onState q (deleteById q i) ;;
      ret (DeletedItem item)
  end.

(** *** Chains of builder calls *)

(** A conjunctive constraint on the primary key: [where(primaryKey, v)],
    [whereId(v)] or [whereIdIn(vs)]. *)
Inductive KeyConstraint : Type :=
| ByWhere (v : WhereValue)
| ById (v : Value)
| ByIdIn (vs : list Value).

Definition constrain (q : Query) (c : KeyConstraint) : Query :=
  match c with
  | ByWhere v => where_ q (keyField q) v
  | ById v => whereId q v
  | ByIdIn vs => whereIdIn q vs
  end.

(** The value set that a constraint gives. *)
Definition constraintValues (c : KeyConstraint) : list Value :=
  match c with
  | ByWhere v => valuesOf v
  | ById v => [v]
  | ByIdIn vs => vs
  end.

(** One call of a where chain. *)
Inductive Clause : Type :=
| CallWhere (f : Field) (v : WhereValue)
| CallOrWhere (f : Field) (v : WhereValue)
| CallWhereId (v : Value)
| CallWhereIdIn (vs : list Value).

Definition call (q : Query) (c : Clause) : Query :=
  match c with
  | CallWhere f v => where_ q f v
  | CallOrWhere f v => orWhere q f v
  | CallWhereId v => whereId q v
  | CallWhereIdIn vs => whereIdIn q vs
  end.

(** The query that a chain of calls builds on a new query. *)
Definition chain (e : string) (cs : list Clause) : Query :=
  fold_left call cs (newQuery e).

Definition isOrWhere (c : Clause) : bool :=
  match c with CallOrWhere _ _ => true | _ => false end.

(** The where-expression that the chain writes, clause by clause. *)
Definition clauseOf (e : string) (c : Clause) : Where :=
  match c with
  | CallWhere f v => {| field := f; value := v; boolean := And |}
  | CallOrWhere f v => {| field := f; value := v; boolean := Or |}
  | CallWhereId v =>
      {| field := keyField (newQuery e); value := WScalar v; boolean := And |}
  | CallWhereIdIn vs =>
      {| field := keyField (newQuery e); value := WArray vs; boolean := And |}
  end.

(** The reference for the index optimisation: a query that carries the
    where-expression of the chain and no identity index, so that [get]
    scans the whole table and filters it by the expression. *)
Definition scanQuery (e : string) (cs : list Clause) : Query :=
  {| entity := e;
     idFilter := None;
     cancelIdFilter := false;
     joinedIdFilter := None;
     wheres := map (clauseOf e) cs;
     orders := [];
     offsetNumber := 0;
     limitNumber := 2 ^ 53 - 1 |}.

Definition fullScan (e : string) (cs : list Clause) (st : St)
    : Collection * St :=
  let '(found, _, st') := get (scanQuery e cs) st in (found, st').

Definition retrieveEvents : list string :=
  ["beforeSelect"; "afterWhere"; "afterOrderBy"; "afterLimit"].

(** Every retrieve hook in reach of the query leaves an empty collection
    empty. *)
Definition keepEmpty (q : Query) (r : Registry) : Prop :=
  forall name,
    In name retrieveEvents ->
    (forall hook, localHook C (entity q) name = Some hook ->
                  onCollection hook [] (entity q) = [])
    /\ (forall hs hook, obj_get name (hooks r) = Some hs -> In hook hs ->
                        onCollection (callback hook) [] (entity q) = []).

(** What a chain of where calls maintains, [done] being the calls made so
    far: the where-expression is the one written, the index is cancelled
    as soon as an [orWhere] was called, and a record that passes every
    [and] clause has its key among the candidates of [idFilter]. *)
Definition ChainInv (e : string) (done : list Clause) (q : Query) : Prop :=
  entity q = e
  /\ joinedIdFilter q = None
  /\ orders q = []
  /\ offsetNumber q = 0%N
  /\ limitNumber q = (2 ^ 53 - 1)%N
  /\ wheres q = map (clauseOf e) done
  /\ cancelIdFilter q = existsb isOrWhere done
  /\ forall ids,
      idFilter q = Some ids ->
      filter isAnd (wheres q) <> []
      /\ forall record,
          forallb (whereOnRecord q record) (filter isAnd (wheres q)) = true ->
          includes (readField (fieldName q (keyField q)) record) ids = true.

(** *** The verdicts of the delete hooks *)

(** The keys of the rows that the before-delete stage vetoes, as the scan
    of [deleteByCondition] comes to them: the stage runs for the rows that
    satisfy the condition, in table order, on the registry that the
    earlier rows have left. *)
Fixpoint vetoedKeys (q : Query) (condition : Instance -> bool)
    (rows : Table) (r : Registry) : list string :=
  match rows with
  | [] => []
  | (k, model) :: rest =>
      if condition model then
        let (veto, r1) := executeBeforeDeleteHook q model r in
        if veto then k :: vetoedKeys q condition rest r1
        else vetoedKeys q condition rest (executeAfterDeleteHook q model r1)
      else vetoedKeys q condition rest r
  end.

Definition isVetoed (vetoed : list string) (k : string) : bool :=
  existsb (String.eqb k) vetoed.

(** *** Hooks that do not veto *)

(** No hook in reach of the query returns [false]: neither a hook of
    the model class nor a registered global hook. *)
Definition peaceful (q : Query) (r : Registry) : Prop :=
  (forall name hook m,
      localHook C (entity q) name = Some hook ->
      onModel hook m (entity q) = false)
  /\ (forall name hs hook m,
        obj_get name (hooks r) = Some hs -> In hook hs ->
        onModel (callback hook) m (entity q) = false).

(** *** Lookups and aggregates *)


(** [item(item)], no relation being loaded. *)
Definition item (i : option Instance) : option Instance := i.

(** [all()]. *)
Definition all (q : Query) (st : St) : Collection * Query * St := get q st.

(** [first()]. *)
Definition first (q : Query) (st : St) : option Instance * Query * St :=
  let '(found, q1, st1) := select q st in
  (item (nth_error found 0), q1, st1).

(** [last()]; [records[records.length - 1]] is [undefined] on an empty
    result. *)
Definition last (q : Query) (st : St) : option Instance * Query * St :=
  let '(found, q1, st1) := select q st in
  (item (match found with
         | [] => None
         | _ => nth_error found (List.length found - 1)
         end), q1, st1).

(** [count()]. *)
Definition count (q : Query) (st : St) : nat * Query * St :=
  let '(found, q1, st1) := get q st in (List.length found, q1, st1).






(** *** The scan of an update by condition *)



(** *** Builder calls in general *)

Inductive BuilderCall : Type :=
| BWhere (f : Field) (v : WhereValue)
| BOrWhere (f : Field) (v : WhereValue)
| BWhereId (v : Value)
| BWhereIdIn (vs : list Value)
| BWhereFk (f : string) (v : WhereValue)
| BOrderBy (f : string) (d : OrderDirection)
| BOffset (n : N)
| BLimit (n : N).

Definition applyCall (q : Query) (c : BuilderCall) : Query :=
  match c with
  | BWhere f v => where_ q f v
  | BOrWhere f v => orWhere q f v
  | BWhereId v => whereId q v
  | BWhereIdIn vs => whereIdIn q vs
  | BWhereFk f v => whereFk q f v
  | BOrderBy f d => orderBy q f d
  | BOffset n => offset q n
  | BLimit n => limit q n
  end.

(** The query that a sequence of builder calls leaves. *)
Definition build (q : Query) (cs : list BuilderCall) : Query :=
  fold_left applyCall cs q.

(** *** The calls of the after hooks *)

(** The hook calls that the after stage makes on one model: the hook of
    the model class, if any, and then the given global hooks in order. *)
Definition afterCalls (name : string) (q : Query) (hs : list GlobalHook)
    (m : Instance) : list HookCall :=
  match localHook C (entity q) name with
  | Some _ => [mkCall name None m]
  | None => []
  end ++ map (fun h => mkCall name (Some h) m) hs.

Definition notOnce (hs : list GlobalHook) : list GlobalHook :=
  filter (fun hook => negb (once hook)) hs.

End Engine.

Arguments throw {A} e.
Arguments Returned {A} a w.
Arguments Thrown {A} e w.

(** ** A concrete store

    Users keyed by [id], and a hierarchy stored in one table: [people] is
    the base entity and [adults] derives from it, told apart by the field
    [type]. *)

Module Example.

Definition typeOf (r : Record) : option string :=
  match obj_get "type" r with
  | Some (VStr "ADULT") => Some "adults"
  | Some (VStr "PERSON") => Some "people"
  | _ => None
  end.

Definition container : Container :=
  {| baseModel := fun e => if (e =? "adults")%string then "people" else e;
     primaryKey := fun _ => PkField "id";
     typeKey := fun _ => "type";
     getModelFromRecord := fun e r =>
       if (e =? "users")%string then None else typeOf r;
     getTypeKeyValueFromModel := fun e =>
       if (e =? "adults")%string then VStr "ADULT" else VStr "PERSON";
     getIndexIdFromRecord := fun _ r =>
       match obj_get "id" r with Some v => v | None => VNull end;
     construct := fun _ r =>
       match r with
       | Some fields => fields
       | None => [("id", VNull); ("name", VStr EmptyString)]
       end;
     extends := fun c m =>
       (c =? m)%string || ((c =? "adults") && (m =? "people"))%string;
     localHook := fun _ _ => None;
     normalize := fun _ _ => [] |}.

(** The same registry with a composite key on every model. *)
Definition compositeContainer : Container :=
  {| baseModel := baseModel container;
     primaryKey := fun _ => PkComposite ["id"; "name"];
     typeKey := typeKey container;
     getModelFromRecord := getModelFromRecord container;
     getTypeKeyValueFromModel := getTypeKeyValueFromModel container;
     getIndexIdFromRecord := getIndexIdFromRecord container;
     construct := construct container;
     extends := extends container;
     localHook := localHook container;
     normalize := normalize container |}.

Definition user (i : Z) (name : string) : Instance :=
  {| ctor := Some "users"; props := [("id", VNum i); ("name", VStr name)] |}.

(** The table [{ "1": {id:1,name:"a"}, "2": {id:2,name:"b"} }]. *)
Definition users : Table := [("1", user 1 "a"); ("2", user 2 "b")].

Definition noHooks : Registry :=
  {| hooks := []; lastHookId := 0; calls := [] |}.

Definition store : St := {| data := users; reg := noHooks |}.

Definition noOptions : PersistOptions :=
  {| create_ := None; insert_ := None; update_ := None;
     insertOrUpdate_ := None |}.

(** Hooks that return [false] (a veto) and that return nothing. *)
Definition vetoing : HookableClosure :=
  {| onModel := fun _ _ => true; onCollection := fun c _ => c |}.

Definition passing : HookableClosure :=
  {| onModel := fun _ _ => false; onCollection := fun c _ => c |}.

(** The root state that holds the users. *)
Definition world : World := {| root := [("users", users)]; wreg := noHooks |}.

Definition usersQuery : Query := newQuery "users".

(** A batch for [insertOrUpdate]: the id [1] is in the table, [3] is not. *)
Definition upsertBatch : Records :=
  [("1", [("id", VNum 1); ("name", VStr "z")]);
   ("3", [("id", VNum 3); ("name", VStr "c")])].

(** The registry after [Query.on('beforeCreate', vetoing)] and
    [Query.on('beforeCreate', passing)]. *)
Definition vetoThenPass : Registry :=
  snd (on "beforeCreate" passing false
         (snd (on "beforeCreate" vetoing false noHooks))).

(** A batch with two records of index id [2], for the keys [1] and [2]
    of the table. *)
Definition collidingBatch : Records :=
  [("1", [("id", VNum 2); ("name", VStr "x")]);
   ("2", [("id", VNum 2); ("name", VStr "y")])].

(** The registry after [Query.on('beforeDelete', vetoing)] and
    [Query.on('beforeDelete', passing)]. *)
Definition vetoThenPassOnDelete : Registry :=
  snd (on "beforeDelete" passing false
         (snd (on "beforeDelete" vetoing false noHooks))).

(** The registry after [Query.on('beforeCreate', vetoing)]. *)
Definition vetoOnly : Registry :=
  snd (on "beforeCreate" vetoing false noHooks).


(** The users registry with a [beforeCreate] hook on the model class that
    vetoes the record of id [1]. *)
Definition guardedContainer : Container :=
  {| baseModel := baseModel container;
     primaryKey := primaryKey container;
     typeKey := typeKey container;
     getModelFromRecord := getModelFromRecord container;
     getTypeKeyValueFromModel := getTypeKeyValueFromModel container;
     getIndexIdFromRecord := getIndexIdFromRecord container;
     construct := construct container;
     extends := extends container;
     localHook := fun _ name =>
       if (name =? "beforeCreate")%string
       then Some {| onModel := fun m _ =>
                      strictEq (readField "id" m) (VNum 1);
                    onCollection := fun c _ => c |}
       else None;
     normalize := normalize container |}.

Definition person (i : Z) (name : string) : Instance :=
  {| ctor := Some "people";
     props := [("id", VNum i); ("name", VStr name); ("type", VStr "PERSON")] |}.

Definition adult (i : Z) (name : string) : Instance :=
  {| ctor := Some "adults";
     props := [("id", VNum i); ("name", VStr name); ("type", VStr "ADULT")] |}.

(** One table for the hierarchy: a person and an adult. *)
Definition people : Table := [("1", person 1 "p"); ("2", adult 2 "q")].

Definition peopleStore : St := {| data := people; reg := noHooks |}.

(** The instance that [update({ id: 2 }, 1)] builds from the user of
    id [1]. *)
Definition moved : Instance :=
  {| ctor := Some "users";
     props := [("id", VNum 2); ("name", VStr "a"); ("$id", VStr "2")] |}.

(** The chain [where("id", 1).orWhere("id", 2)]. *)
Definition eitherId : list Clause :=
  [CallWhere (FName "id") (WScalar (VNum 1));
   CallOrWhere (FName "id") (WScalar (VNum 2))].

(** The predicate [m => m.name === "a"]. *)
Definition namedA (m : Instance) : bool :=
  strictEq (readField "name" m) (VStr "a").

(** The closure [record => { record.name = "z" }]. *)
Definition renameZ (r : Record) : Record := obj_set "name" (VStr "z") r.

(** A hook call as the event, the id of the global hook and the model. *)
Definition seen (c : HookCall) : string * option N * Instance :=
  (call_on c, option_map id (call_hook c), call_model c).

(** The registry after [Query.on('beforeUpdate', vetoing)]. *)
Definition vetoOnUpdate : Registry :=
  snd (on "beforeUpdate" vetoing false noHooks).

(** The update batch that moves user [1] to the id [2] and user [2] to
    the id [3]. *)
Definition shiftBatch : Instances :=
  [("1", fresh {| ctor := Some "users";
                  props := [("id", VNum 2); ("name", VStr "a")] |});
   ("2", fresh {| ctor := Some "users";
                  props := [("id", VNum 3); ("name", VStr "b")] |})].

Definition twoUsers : Instances :=
  [("1", fresh (user 1 "a")); ("2", fresh (user 2 "b"))].



(** The records of the two users, keyed by id. *)
Definition twoRecords : Records :=
  [("1", [("id", VNum 1); ("name", VStr "a")]);
   ("2", [("id", VNum 2); ("name", VStr "b")])].

(** The hook that [guardedContainer] declares on the model class. *)
Definition guardHook : HookableClosure :=
  {| onModel := fun m _ => strictEq (readField "id" m) (VNum 1);
     onCollection := fun c _ => c |}.

(** The registry after [Query.on('afterCreate', passing, true)] and
    [Query.on('afterCreate', passing)]. *)
Definition onceThenAlways : Registry :=
  snd (on "afterCreate" passing false
         (snd (on "afterCreate" passing true noHooks))).

(** The registry after [Query.on('beforeSelect', passing, true)] and
    [Query.on('beforeCreate', passing, true)]. *)
Definition onceOnSelect : Registry :=
  snd (on "beforeCreate" passing true
         (snd (on "beforeSelect" passing true noHooks))).

(** A [Processor.normalize] for flat records: the records of the queried
    entity keyed by the string of their [id]. *)
Definition normalizeFlat (e : string) (d : Payload) : NormalizedData :=
  let key := fun r : Record =>
    toString (match obj_get "id" r with Some v => v | None => VNull end) in
  match d with
  | POne r => [(e, [(key r, r)])]
  | PMany [] => []
  | PMany rs => [(e, fold_left (fun acc r => obj_set (key r) r acc) rs [])]
  end.

Definition flatContainer : Container :=
  {| baseModel := baseModel container;
     primaryKey := primaryKey container;
     typeKey := typeKey container;
     getModelFromRecord := getModelFromRecord container;
     getTypeKeyValueFromModel := getTypeKeyValueFromModel container;
     getIndexIdFromRecord := getIndexIdFromRecord container;
     construct := construct container;
     extends := extends container;
     localHook := localHook container;
     normalize := normalizeFlat |}.


End Example.

(** * Properties *)

Unset Implicit Arguments.

(** ** Objects *)

Section ObjFacts.

Variable V : Type.
Implicit Types (o : Obj V) (k : string) (v : V).

Lemma key_before_neq a b : key_before a b = true -> a <> b.
Proof.
  unfold key_before. intros H E. subst b.
  destruct (array_index a).
  - apply N.ltb_lt in H. lia.
  - rewrite String.eqb_refl in H. discriminate.
Qed.

Lemma keys_wf_app l1 l2 :
  keys_wf (l1 ++ l2) =
  keys_wf l1 && keys_wf l2
  && forallb (fun a => forallb (key_before a) l2) l1.
Proof.
  induction l1 as [|a l1 IH]; simpl.
  - now rewrite andb_true_r.
  - rewrite forallb_app, IH.
    destruct (forallb (key_before a) l1), (keys_wf l1), (keys_wf l2),
      (forallb (key_before a) l2); simpl; auto.
Qed.

Lemma keys_wf_NoDup l : keys_wf l = true -> NoDup l.
Proof.
  induction l as [|a l IH]; simpl; intros H.
  - constructor.
  - apply andb_true_iff in H. destruct H as [H1 H2].
    constructor; auto.
    intros Hin. rewrite forallb_forall in H1.
    apply (key_before_neq _ _ (H1 _ Hin)). reflexivity.
Qed.

Lemma keys_wf_filter (p : string -> bool) l :
  keys_wf l = true -> keys_wf (filter p l) = true.
Proof.
  induction l as [|a l IH]; simpl; auto.
  intros H. apply andb_true_iff in H. destruct H as [H1 H2].
  destruct (p a); simpl; auto.
  rewrite IH by assumption. rewrite andb_true_r.
  rewrite forallb_forall in *. intros x Hx.
  apply filter_In in Hx. apply H1. tauto.
Qed.

Lemma obj_get_In k v o : obj_get k o = Some v -> In (k, v) o.
Proof.
  induction o as [|[k' v'] o IH]; simpl; try discriminate.
  destruct (String.eqb_spec k' k).
  - intros [= ->]. subst. now left.
  - intros H. right. auto.
Qed.

Lemma obj_get_None k o : obj_get k o = None <-> ~ In k (obj_keys o).
Proof.
  induction o as [|[k' v'] o IH]; simpl.
  - tauto.
  - destruct (String.eqb_spec k' k).
    + split; [discriminate | intros H; exfalso; apply H; now left].
    + rewrite IH. tauto.
Qed.

Lemma obj_get_NoDup k v o :
  NoDup (obj_keys o) -> In (k, v) o -> obj_get k o = Some v.
Proof.
  induction o as [|[k' v'] o IH]; simpl; intros ND H; [tauto|].
  inversion ND as [|? ? Hn ND']; subst.
  destruct H as [[= -> ->]|H].
  - now rewrite String.eqb_refl.
  - destruct (String.eqb_spec k' k).
    + subst. exfalso. apply Hn. apply (in_map fst) in H. exact H.
    + auto.
Qed.

Lemma obj_has_true k o : obj_has k o = true <-> In k (obj_keys o).
Proof.
  unfold obj_has. destruct (obj_get k o) eqn:E.
  - split; auto. intros _. apply obj_get_In in E.
    apply (in_map fst) in E. exact E.
  - apply obj_get_None in E. split; [discriminate | tauto].
Qed.

Lemma obj_get_app k o1 o2 :
  obj_get k (o1 ++ o2) =
  match obj_get k o1 with Some v => Some v | None => obj_get k o2 end.
Proof.
  induction o1 as [|[k' v'] o1 IH]; simpl; auto.
  destruct (k' =? k)%string; auto.
Qed.

Lemma obj_get_replace k v k' o :
  obj_get k' (obj_replace k v o) =
  if (k =? k')%string
  then match obj_get k o with Some _ => Some v | None => None end
  else obj_get k' o.
Proof.
  induction o as [|[k0 v0] o IH]; simpl.
  - now destruct (k =? k')%string.
  - destruct (String.eqb_spec k0 k) as [->|N0]; simpl.
    + destruct (String.eqb_spec k k'); auto.
    + rewrite IH. destruct (String.eqb_spec k k') as [<-|N1].
      * destruct (String.eqb_spec k0 k); [contradiction|reflexivity].
      * reflexivity.
Qed.

Lemma obj_get_insert_index n k v k' o :
  obj_get k o = None ->
  obj_get k' (obj_insert_index n k v o) =
  if (k =? k')%string then Some v else obj_get k' o.
Proof.
  induction o as [|[k0 v0] o IH]; simpl; intros H.
  - reflexivity.
  - destruct (String.eqb_spec k0 k) as [->|N0]; [discriminate|].
    destruct (array_index k0) as [n'|].
    + destruct (n <? n')%N; simpl; auto.
      rewrite IH by assumption.
      destruct (String.eqb_spec k k') as [<-|N1]; auto.
      destruct (String.eqb_spec k0 k); [contradiction|reflexivity].
    + simpl. reflexivity.
Qed.

(** Reading after a write. *)
Lemma obj_get_set k v k' o :
  obj_get k' (obj_set k v o) =
  if (k =? k')%string then Some v else obj_get k' o.
Proof.
  unfold obj_set, obj_has. destruct (obj_get k o) eqn:E.
  - rewrite obj_get_replace, E. reflexivity.
  - destruct (array_index k).
    + now apply obj_get_insert_index.
    + rewrite obj_get_app. simpl.
      destruct (String.eqb_spec k k') as [<-|N1].
      * now rewrite E.
      * now destruct (obj_get k' o).
Qed.

Lemma obj_get_set_same k v o : obj_get k (obj_set k v o) = Some v.
Proof. now rewrite obj_get_set, String.eqb_refl. Qed.

Lemma obj_get_set_other k v k' o :
  k <> k' -> obj_get k' (obj_set k v o) = obj_get k' o.
Proof.
  intros H. rewrite obj_get_set.
  now destruct (String.eqb_spec k k'); [contradiction|].
Qed.

(** Reading after a [delete]. *)
Lemma obj_get_delete k k' o :
  obj_get k' (obj_delete k o) =
  if (k =? k')%string then None else obj_get k' o.
Proof.
  unfold obj_delete.
  induction o as [|[k0 v0] o IH]; simpl.
  - now destruct (k =? k')%string.
  - destruct (String.eqb_spec k0 k) as [->|N0]; simpl.
    + rewrite IH. destruct (String.eqb_spec k k'); auto.
    + rewrite IH. destruct (String.eqb_spec k k') as [<-|N1]; auto.
      destruct (String.eqb_spec k0 k); [contradiction|reflexivity].
Qed.

(** A key that may come after all the others is appended. *)
Lemma obj_set_append k v o :
  forallb (fun k' => key_before k' k) (obj_keys o) = true ->
  obj_set k v o = o ++ [(k, v)].
Proof.
  intros H. rewrite forallb_forall in H.
  assert (Hn : obj_get k o = None).
  { apply obj_get_None. intros Hin.
    apply (key_before_neq _ _ (H _ Hin)). reflexivity. }
  unfold obj_set, obj_has. rewrite Hn.
  destruct (array_index k) as [n|] eqn:Ek; [|reflexivity].
  clear Hn. induction o as [|[k0 v0] o IH]; simpl; [reflexivity|].
  assert (H0 : key_before k0 k = true) by (apply H; now left).
  unfold key_before in H0. rewrite Ek in H0.
  destruct (array_index k0) as [n0|]; [|discriminate].
  apply N.ltb_lt in H0.
  destruct (N.ltb_spec n n0); [lia|].
  f_equal. apply IH. intros x Hx. apply H. now right.
Qed.

(** Writing entries whose keys come in enumeration order appends them. *)
Lemma fold_set_append (l acc : Obj V) :
  keys_wf (obj_keys acc ++ obj_keys l) = true ->
  fold_left (@set_entry V) l acc = acc ++ l.
Proof.
  revert acc. induction l as [|[k v] l IH]; intros acc H; simpl.
  - now rewrite app_nil_r.
  - unfold set_entry at 2. simpl. rewrite obj_set_append.
    + rewrite IH.
      * now rewrite <- app_assoc.
      * unfold obj_keys in *. rewrite map_app. simpl.
        rewrite <- app_assoc. exact H.
    + rewrite keys_wf_app in H. simpl in H.
      repeat (apply andb_true_iff in H; destruct H as [H ?]).
      rewrite forallb_forall in *. intros x Hx.
      match goal with
      | H1 : forall x, In x (obj_keys acc) -> _ |- _ =>
          specialize (H1 x Hx); simpl in H1;
          apply andb_true_iff in H1; tauto
      end.
Qed.

Lemma spread_wf (a b : Obj V) :
  keys_wf (obj_keys a ++ obj_keys b) = true -> spread a b = a ++ b.
Proof.
  intros H. unfold spread.
  apply (fold_set_append (a ++ b) []). simpl.
  unfold obj_keys in *. now rewrite map_app.
Qed.


Lemma fold_set_get k (l acc : Obj V) :
  obj_get k (fold_left (@set_entry V) l acc) =
  match obj_get k (rev l) with
  | Some v => Some v
  | None => obj_get k acc
  end.
Proof.
  revert acc. induction l as [|[k0 v0] l IH]; intros acc; simpl; auto.
  rewrite IH, obj_get_app. simpl. unfold set_entry. simpl.
  destruct (obj_get k (rev l)); auto.
  rewrite obj_get_set. now destruct (k0 =? k)%string.
Qed.

Lemma obj_get_rev k (l : Obj V) :
  NoDup (obj_keys l) -> obj_get k (rev l) = obj_get k l.
Proof.
  induction l as [|[k0 v0] l IH]; simpl; auto.
  intros ND. inversion ND as [|? ? Hn ND']; subst.
  rewrite obj_get_app, IH by assumption. simpl.
  destruct (String.eqb_spec k0 k) as [->|N0].
  - apply obj_get_None in Hn. now rewrite Hn.
  - now destruct (obj_get k l).
Qed.

(** Reading [{ ...a, ...b }]. *)
Lemma obj_get_spread k (a b : Obj V) :
  NoDup (obj_keys a) -> NoDup (obj_keys b) ->
  obj_get k (spread a b) =
  match obj_get k b with Some v => Some v | None => obj_get k a end.
Proof.
  intros Ha Hb. unfold spread.
  rewrite fold_set_get, rev_app_distr, obj_get_app.
  rewrite !obj_get_rev by assumption. simpl.
  now destruct (obj_get k b), (obj_get k a).
Qed.

(** Writing, key by key in enumeration order, the values that [g]
    provides builds the object of these entries. *)
Lemma fold_keys_build (g : string -> option V) (keys : list string)
      (acc : Obj V) :
  keys_wf (obj_keys acc ++ keys) = true ->
  fold_left (fun (acc : Obj V) k =>
               match g k with Some v => obj_set k v acc | None => acc end)
            keys acc
  = acc ++ flat_map (fun k => match g k with
                              | Some v => [(k, v)]
                              | None => []
                              end) keys.
Proof.
  revert acc. induction keys as [|k keys IH]; intros acc H; simpl.
  - now rewrite app_nil_r.
  - assert (H' := H). rewrite keys_wf_app in H'.
    apply andb_true_iff in H' as [H1 H3].
    apply andb_true_iff in H1 as [H1 H2].
    simpl in H2. apply andb_true_iff in H2 as [H2a H2b].
    assert (Hk : forallb (fun k' => key_before k' k) (obj_keys acc) = true).
    { rewrite forallb_forall in *. intros x Hx.
      specialize (H3 x Hx). simpl in H3.
      apply andb_true_iff in H3. tauto. }
    assert (Hr : forallb (fun a => forallb (key_before a) keys)
                         (obj_keys acc) = true).
    { rewrite forallb_forall in *. intros x Hx.
      specialize (H3 x Hx). simpl in H3.
      apply andb_true_iff in H3. tauto. }
    destruct (g k) as [v|].
    + rewrite obj_set_append by assumption.
      rewrite IH; [now rewrite <- app_assoc|].
      unfold obj_keys in *. rewrite map_app. simpl.
      now rewrite <- app_assoc.
    + simpl. apply IH. rewrite keys_wf_app, H1, H2b, Hr. reflexivity.
Qed.

(** Mapping the keys of an object to their values gives its values. *)
Lemma flat_map_keys (B : Type) (f : V -> B) (o : Obj V) :
  NoDup (obj_keys o) ->
  flat_map (fun k => match obj_get k o with
                     | Some v => [f v]
                     | None => []
                     end) (obj_keys o)
  = map (fun e => f (snd e)) o.
Proof.
  induction o as [|[k v] o IH]; simpl; auto.
  intros ND. inversion ND as [|? ? Hn ND']; subst.
  rewrite String.eqb_refl. simpl. f_equal.
  rewrite <- IH by assumption.
  assert (G : forall ks, ~ In k ks ->
    flat_map (fun k0 => match (if (k =? k0)%string then Some v
                               else obj_get k0 o) with
                        | Some v0 => [f v0]
                        | None => []
                        end) ks
    = flat_map (fun k0 => match obj_get k0 o with
                          | Some v0 => [f v0]
                          | None => []
                          end) ks).
  { induction ks as [|k' ks IHk]; simpl; auto.
    intros Hk. destruct (String.eqb_spec k k') as [->|N0].
    - exfalso. apply Hk. now left.
    - f_equal. apply IHk. intros Hin. apply Hk. now right. }
  apply G. exact Hn.
Qed.

End ObjFacts.

(** ** Identity index *)

Lemma strictEq_eq a b : strictEq a b = true <-> a = b.
Proof.
  destruct a as [| |x|x|x], b as [| |y|y|y]; simpl;
    try (split; [discriminate | intros H; discriminate H]);
    try (split; reflexivity).
  - split.
    + intros H. apply Bool.eqb_prop in H. now subst.
    + intros [= ->]. apply Bool.eqb_reflx.
  - split.
    + intros H. apply Z.eqb_eq in H. now subst.
    + intros [= ->]. apply Z.eqb_refl.
  - split.
    + intros H. apply String.eqb_eq in H. now subst.
    + intros [= ->]. apply String.eqb_refl.
Qed.

Lemma includes_In x l : includes x l = true <-> In x l.
Proof.
  unfold includes. rewrite existsb_exists. split.
  - intros [y [Hy E]]. apply strictEq_eq in E. now subst.
  - intros H. exists x. split; auto. now apply strictEq_eq.
Qed.

Lemma Set_of_fold_In x l acc :
  In x (fold_left (fun acc v => if includes v acc then acc else acc ++ [v]) l acc)
  <-> In x acc \/ In x l.
Proof.
  revert acc. induction l as [|v l IH]; intros acc; simpl.
  - tauto.
  - rewrite IH. destruct (includes v acc) eqn:E.
    + apply includes_In in E. split; [tauto|].
      intros [H|[H|H]]; subst; auto.
    + rewrite in_app_iff. simpl. tauto.
Qed.

(** [new Set(values)] has the members of [values]. *)
Lemma Set_of_In x l : In x (Set_of l) <-> In x l.
Proof. unfold Set_of. rewrite Set_of_fold_In. simpl. tauto. Qed.

Section IndexFacts.

Variable C : Container.

Lemma isPrimaryKey_keyField q f :
  isPrimaryKey C q f = true -> f = keyField C q.
Proof.
  unfold isPrimaryKey, keyField.
  destruct f, (primaryKey C (entity q)); try discriminate; auto.
  intros H. apply String.eqb_eq in H. now subst.
Qed.

Lemma keyField_isPrimaryKey q : isPrimaryKey C q (keyField C q) = true.
Proof.
  unfold isPrimaryKey, keyField.
  destruct (primaryKey C (entity q)); auto. apply String.eqb_refl.
Qed.

(** C6.  The lookup-key resolution of [getIdsToLookup]: with both filters
    set, the ids of [idFilter] that [joinedIdFilter] has, which are exactly
    the ids in both (an intersection, never a union); with one filter set,
    that filter; with none, every key of the table. *)
Theorem getIdsToLookup_resolution (q : Query) (t : Table)
    (ids joined : list Value) :
  (getIdsToLookup
     (with_idFilter (Some ids) (with_joinedIdFilter (Some joined) q)) t
   = filter (fun x => includes x joined) ids
   /\ forall x,
       In x (getIdsToLookup
               (with_idFilter (Some ids)
                  (with_joinedIdFilter (Some joined) q)) t)
       <-> In x ids /\ In x joined)
  /\ getIdsToLookup
       (with_idFilter (Some ids) (with_joinedIdFilter None q)) t = ids
  /\ getIdsToLookup
       (with_idFilter None (with_joinedIdFilter (Some joined) q)) t = joined
  /\ getIdsToLookup
       (with_idFilter None (with_joinedIdFilter None q)) t
     = map VStr (obj_keys t).
Proof.
  unfold getIdsToLookup; simpl.
  split; [split|]; [reflexivity| |repeat split; reflexivity].
  intros x. rewrite filter_In, includes_In. tauto.
Qed.

Lemma constrain_entity q c : entity (constrain C q c) = entity q.
Proof.
  destruct c; unfold constrain, whereId, whereIdIn, where_, setIdFilter;
    destruct (isIdfilterable C q _); simpl; auto;
    destruct (idFilter q); reflexivity.
Qed.

Lemma constrain_cancel q c :
  cancelIdFilter (constrain C q c) = cancelIdFilter q.
Proof.
  destruct c; unfold constrain, whereId, whereIdIn, where_, setIdFilter;
    destruct (isIdfilterable C q _); simpl; auto;
    destruct (idFilter q); reflexivity.
Qed.

(** One constraint: the candidate set is created from the value set, or
    narrowed to the candidates that the value set has. *)
Lemma constrain_idFilter q c :
  cancelIdFilter q = false ->
  exists ids,
    idFilter (constrain C q c) = Some ids
    /\ forall x,
        In x ids <->
        In x (constraintValues c)
        /\ match idFilter q with
           | Some current => In x current
           | None => True
           end.
Proof.
  intros Hc.
  assert (E : forall v,
    idFilter (where_ C q (keyField C q) v) = idFilter (setIdFilter q v)).
  { intros v. unfold where_, isIdfilterable.
    rewrite keyField_isPrimaryKey, Hc. reflexivity. }
  assert (G : forall v, exists ids,
    idFilter (setIdFilter q v) = Some ids
    /\ forall x, In x ids <->
         In x (valuesOf v)
         /\ match idFilter q with
            | Some current => In x current
            | None => True
            end).
  { intros v. unfold setIdFilter. destruct (idFilter q) as [current|]; simpl.
    - eexists. split; [reflexivity|]. intros x.
      rewrite Set_of_In, filter_In, includes_In. tauto.
    - eexists. split; [reflexivity|]. intros x.
      rewrite Set_of_In. tauto. }
  destruct c as [v|v|vs]; unfold constrain, whereId, whereIdIn;
    rewrite E; simpl.
  - apply G.
  - apply (G (WScalar v)).
  - apply (G (WArray vs)).
Qed.

(** A chain of constraints narrows the candidate set to the ids that
    every value set has. *)
Lemma constrain_all cs : forall q,
  cancelIdFilter q = false ->
  cs <> [] ->
  exists ids,
    idFilter (fold_left (constrain C) cs q) = Some ids
    /\ forall x,
        In x ids <->
        Forall (fun c => In x (constraintValues c)) cs
        /\ match idFilter q with
           | Some current => In x current
           | None => True
           end.
Proof.
  induction cs as [|c cs IH]; intros q Hc Hne; [contradiction|].
  simpl. destruct (constrain_idFilter q c Hc) as [ids [E Hids]].
  destruct cs as [|c' cs].
  - simpl. exists ids. split; auto. intros x. rewrite Hids.
    split.
    + intros [H1 H2]. split; auto.
    + intros [H1 H2]. inversion H1; subst. tauto.
  - destruct (IH (constrain C q c)) as [ids' [E' Hids']].
    + now rewrite constrain_cancel.
    + discriminate.
    + exists ids'. split; auto. intros x. rewrite Hids', E, Hids.
      split.
      * intros [H1 [H2 H3]]. split; auto.
      * intros [H1 H2]. inversion H1; subst. tauto.
Qed.

End IndexFacts.

(** ** Selection pipeline *)

Section SelectFacts.

Variable C : Container.

Lemma cleanGlobalHooksOn_get name name' r :
  obj_get name' (hooks (cleanGlobalHooksOn name r)) =
  match obj_get name (hooks r) with
  | Some hs =>
      if (name =? name')%string
      then Some (filter (fun hook => negb (once hook)) hs)
      else obj_get name' (hooks r)
  | None => obj_get name' (hooks r)
  end.
Proof.
  unfold cleanGlobalHooksOn. destruct (obj_get name (hooks r)); simpl; auto.
  apply obj_get_set.
Qed.

Lemma keepEmpty_clean q name r :
  keepEmpty C q r -> keepEmpty C q (cleanGlobalHooksOn name r).
Proof.
  intros H name' Hin. destruct (H name' Hin) as [H1 H2]. split; auto.
  intros hs hook. rewrite cleanGlobalHooksOn_get.
  destruct (obj_get name (hooks r)) as [hs0|] eqn:E; [|apply H2].
  destruct (String.eqb_spec name name') as [<-|N]; [|apply H2].
  intros [= <-] Hh. apply filter_In in Hh. destruct Hh as [Hh _].
  eapply H2; eauto.
Qed.

Lemma keepEmpty_entity q q' r :
  entity q' = entity q -> keepEmpty C q r -> keepEmpty C q' r.
Proof. unfold keepEmpty. intros ->. auto. Qed.

(** A retrieve stage passes an empty collection on. *)
Lemma executeRetrieveHook_empty name q r :
  In name retrieveEvents ->
  keepEmpty C q r ->
  exists r', executeRetrieveHook C name q [] r = ([], r')
             /\ keepEmpty C q r'.
Proof.
  intros Hin H. destruct (H name Hin) as [H1 H2].
  unfold executeRetrieveHook, executeLocalRetrieveHook,
    executeGlobalRetrieveHook.
  assert (L : match localHook C (entity q) name with
              | Some hook => onCollection hook [] (entity q)
              | None => []
              end = []).
  { destruct (localHook C (entity q) name); auto. }
  rewrite L.
  destruct (obj_get name (hooks r)) as [hs|] eqn:E.
  - exists (cleanGlobalHooksOn name r). split.
    + f_equal. specialize (H2 hs).
      assert (G : forall hook, In hook hs ->
                    onCollection (callback hook) [] (entity q) = [])
        by (intros; now apply H2).
      clear -G. induction hs as [|h hs IH]; simpl; auto.
      rewrite G by (now left). apply IH. intros. apply G. now right.
    + now apply keepEmpty_clean.
  - exists r. auto.
Qed.

Lemma Filter_where_nil q : Filter_where C q [] = [].
Proof. unfold Filter_where. now destruct (wheres q). Qed.

Lemma Filter_orderBy_nil q : Filter_orderBy q [] = [].
Proof. unfold Filter_orderBy. now destruct (orders q). Qed.

Lemma Filter_limit_nil q : Filter_limit q [] = [].
Proof. reflexivity. Qed.

(** With no id to look up, [get] returns the empty sequence and leaves
    the table as it is. *)
Lemma get_nothing_to_lookup q st :
  keepEmpty C q (reg st) ->
  getIdsToLookup (finalizeIdFilter C q) (data st) = [] ->
  fst (fst (get C q st)) = [] /\ data (snd (get C q st)) = data st.
Proof.
  intros H E. unfold get, select, records. rewrite E. simpl.
  set (q1 := finalizeIdFilter C q).
  assert (H0 : keepEmpty C q1 (reg st)).
  { apply (keepEmpty_entity q); auto. unfold q1, finalizeIdFilter.
    destruct (idFilter q), (cancelIdFilter q); auto.
    unfold where_. destruct (isIdfilterable C q (keyField C q)); simpl; auto.
    unfold setIdFilter. now destruct (idFilter q). }
  unfold filterWhere, filterOrderBy, filterLimit.
  destruct (executeRetrieveHook_empty "beforeSelect" q1 (reg st))
    as [r1 [E1 K1]]; [simpl; tauto | assumption |].
  rewrite E1, Filter_where_nil.
  destruct (executeRetrieveHook_empty "afterWhere" q1 r1)
    as [r2 [E2 K2]]; [simpl; tauto | assumption |].
  rewrite E2, Filter_orderBy_nil.
  destruct (executeRetrieveHook_empty "afterOrderBy" q1 r2)
    as [r3 [E3 K3]]; [simpl; tauto | assumption |].
  rewrite E3, Filter_limit_nil.
  destruct (executeRetrieveHook_empty "afterLimit" q1 r3)
    as [r4 [E4 K4]]; [simpl; tauto | assumption |].
  rewrite E4. simpl. auto.
Qed.

Lemma constrain_joined q c :
  joinedIdFilter (constrain C q c) = joinedIdFilter q.
Proof.
  destruct c; unfold constrain, whereId, whereIdIn, where_, setIdFilter;
    destruct (isIdfilterable C q _); simpl; auto;
    destruct (idFilter q); reflexivity.
Qed.

(** C5.  On a new query, a sequence of conjunctive primary-key constraints
    ([where] on the primary key, [whereId], [whereIdIn]) leaves in
    [idFilter] exactly the ids that belong to every given value set, their
    intersection.  In particular [whereId(1).whereId(2)] has no id to look
    up: [get()] returns the empty sequence and no row of the table is
    fetched, provided the retrieve hooks, if any, leave an empty
    collection empty. *)
Theorem idFilter_intersection :
  (forall e c cs,
      exists ids,
        idFilter (fold_left (constrain C) (c :: cs) (newQuery e)) = Some ids
        /\ forall x,
            In x ids <->
            Forall (fun c' => In x (constraintValues c')) (c :: cs))
  /\ (forall e st,
        keepEmpty C (newQuery e) (reg st) ->
        let q := whereId C (whereId C (newQuery e) (VNum 1)) (VNum 2) in
        getIdsToLookup (finalizeIdFilter C q) (data st) = []
        /\ fst (fst (get C q st)) = []
        /\ data (snd (get C q st)) = data st).
Proof.
  split.
  - intros e c cs.
    destruct (constrain_all C (c :: cs) (newQuery e)) as [ids [E H]];
      [reflexivity | discriminate |].
    exists ids. split; auto. intros x. rewrite H. simpl. tauto.
  - intros e st K q.
    destruct (constrain_all C [ById (VNum 1); ById (VNum 2)] (newQuery e))
      as [ids [E H]]; [reflexivity | discriminate |].
    change (fold_left (constrain C) [ById (VNum 1); ById (VNum 2)]
              (newQuery e)) with q in E.
    assert (Hids : ids = []).
    { destruct ids as [|x ids]; auto. exfalso.
      destruct (H x) as [H1 _]. destruct H1 as [H1 _]; [now left|].
      inversion H1 as [|? ? A1 H2]; subst.
      inversion H2 as [|? ? A2 H3]; subst.
      simpl in A1, A2. destruct A1 as [<-|[]]. destruct A2 as [A2|[]].
      discriminate A2. }
    subst ids.
    assert (Hc : cancelIdFilter q = false).
    { unfold q. change (cancelIdFilter
        (constrain C (constrain C (newQuery e) (ById (VNum 1)))
           (ById (VNum 2))) = false).
      now rewrite !constrain_cancel. }
    assert (Hj : joinedIdFilter q = None).
    { unfold q. change (joinedIdFilter
        (constrain C (constrain C (newQuery e) (ById (VNum 1)))
           (ById (VNum 2))) = None).
      now rewrite !constrain_joined. }
    assert (Hl : getIdsToLookup (finalizeIdFilter C q) (data st) = []).
    { unfold finalizeIdFilter. rewrite E, Hc.
      unfold getIdsToLookup. now rewrite E, Hj. }
    split; auto. apply get_nothing_to_lookup; auto.
    apply (keepEmpty_entity (newQuery e)); auto.
    unfold q. change (entity
        (constrain C (constrain C (newQuery e) (ById (VNum 1)))
           (ById (VNum 2))) = entity (newQuery e)).
    now rewrite !constrain_entity.
Qed.

(** *** The where chain and the full scan *)

Lemma whereOnRecord_entity q q' record w :
  entity q = entity q' ->
  whereOnRecord C q record w = whereOnRecord C q' record w.
Proof. unfold whereOnRecord, fieldName. now intros ->. Qed.

Lemma forallb_whereOnRecord_entity q q' record ws :
  entity q = entity q' ->
  forallb (whereOnRecord C q record) ws
  = forallb (whereOnRecord C q' record) ws.
Proof.
  intros E. induction ws as [|w ws IH]; simpl; auto.
  now rewrite IH, (whereOnRecord_entity q q' record w E).
Qed.

Lemma keyField_entity q q' :
  entity q = entity q' -> keyField C q = keyField C q'.
Proof. unfold keyField. now intros ->. Qed.

Lemma fieldName_entity q q' f :
  entity q = entity q' -> fieldName C q f = fieldName C q' f.
Proof. unfold fieldName. now intros ->. Qed.

Lemma ChainInv_new e : ChainInv C e [] (newQuery e).
Proof. unfold ChainInv; simpl. repeat split; auto; discriminate. Qed.

(** An [and] clause on a field: the step of [where]. *)
Lemma ChainInv_where e done q f v :
  ChainInv C e done q ->
  ChainInv C e (done ++ [CallWhere f v]) (where_ C q f v).
Proof.
  intros (He & Hj & Ho & Hof & Hl & Hw & Hc & Hi).
  assert (Ee : entity (where_ C q f v) = entity q).
  { unfold where_, setIdFilter. destruct (isIdfilterable C q f); auto.
    now destruct (idFilter q). }
  assert (Ew : wheres (where_ C q f v)
               = wheres q ++ [{| field := f; value := v; boolean := And |}]).
  { unfold where_, setIdFilter. destruct (isIdfilterable C q f); auto.
    now destruct (idFilter q). }
  unfold ChainInv. rewrite Ee, Ew.
  split; [assumption|].
  split; [unfold where_, setIdFilter; destruct (isIdfilterable C q f); auto;
          now destruct (idFilter q)|].
  split; [unfold where_, setIdFilter; destruct (isIdfilterable C q f); auto;
          now destruct (idFilter q)|].
  split; [unfold where_, setIdFilter; destruct (isIdfilterable C q f); auto;
          now destruct (idFilter q)|].
  split; [unfold where_, setIdFilter; destruct (isIdfilterable C q f); auto;
          now destruct (idFilter q)|].
  split; [rewrite map_app, Hw; reflexivity|].
  split.
  { rewrite existsb_app, <- Hc. simpl. rewrite orb_false_r.
    unfold where_, setIdFilter. destruct (isIdfilterable C q f); auto.
    now destruct (idFilter q). }
  intros ids Hids. rewrite filter_app. simpl.
  split; [intros H; apply app_eq_nil in H; destruct H; discriminate|].
  intros record Hall. rewrite forallb_app in Hall. simpl in Hall.
  apply andb_true_iff in Hall. destruct Hall as [Hall Hnew].
  rewrite andb_true_r in Hnew.
  rewrite (forallb_whereOnRecord_entity _ q) in Hall by assumption.
  rewrite (whereOnRecord_entity _ q) in Hnew by assumption.
  rewrite (fieldName_entity _ q), (keyField_entity _ q) by assumption.
  unfold where_ in Hids. unfold isIdfilterable in Hids.
  destruct (isPrimaryKey C q f) eqn:Ep; simpl in Hids.
  - destruct (cancelIdFilter q) eqn:Ec; simpl in Hids.
    + now apply Hi.
    + apply isPrimaryKey_keyField in Ep. subst f.
      assert (Hv : includes (readField (fieldName C q (keyField C q)) record)
                            (valuesOf v) = true).
      { unfold whereOnRecord in Hnew. simpl in Hnew.
        destruct v; simpl; auto. now rewrite Hnew. }
      unfold setIdFilter in Hids. apply includes_In.
      apply includes_In in Hv.
      destruct (idFilter q) as [current|] eqn:Ef; simpl in Hids;
        injection Hids as <-; apply Set_of_In; auto.
      apply filter_In. split; auto.
      now apply Hi.
  - now apply Hi.
Qed.

Lemma ChainInv_step e done q c :
  ChainInv C e done q -> ChainInv C e (done ++ [c]) (call C q c).
Proof.
  intros H. destruct c as [f v|f v|v|vs].
  - now apply ChainInv_where.
  - destruct H as (He & Hj & Ho & Hof & Hl & Hw & Hc & Hi).
    unfold ChainInv, call, orWhere. simpl.
    repeat (split; [assumption|]).
    split; [rewrite map_app, Hw; reflexivity|].
    split; [rewrite existsb_app; simpl; now rewrite !orb_true_r|].
    rewrite filter_app. simpl. rewrite app_nil_r. exact Hi.
  - destruct H as (He & H').
    assert (G := ChainInv_where e done q (keyField C q) (WScalar v)
                   (conj He H')).
    unfold call, whereId.
    unfold ChainInv in *. rewrite !map_app in *. simpl in *.
    rewrite existsb_app in *. simpl in *.
    replace (keyField C (newQuery e)) with (keyField C q)
      by (apply keyField_entity; now rewrite He).
    exact G.
  - destruct H as (He & H').
    assert (G := ChainInv_where e done q (keyField C q) (WArray vs)
                   (conj He H')).
    unfold call, whereIdIn.
    unfold ChainInv in *. rewrite !map_app in *. simpl in *.
    rewrite existsb_app in *. simpl in *.
    replace (keyField C (newQuery e)) with (keyField C q)
      by (apply keyField_entity; now rewrite He).
    exact G.
Qed.

Lemma ChainInv_fold e cs : forall done q,
  ChainInv C e done q ->
  ChainInv C e (done ++ cs) (fold_left (call C) cs q).
Proof.
  induction cs as [|c cs IH]; intros done q H; simpl.
  - now rewrite app_nil_r.
  - replace (done ++ c :: cs) with ((done ++ [c]) ++ cs)
      by (now rewrite <- app_assoc).
    apply IH. now apply ChainInv_step.
Qed.

Lemma ChainInv_chain e cs : ChainInv C e cs (chain C e cs).
Proof. apply (ChainInv_fold e cs [] (newQuery e)), ChainInv_new. Qed.

Lemma existsb_pointwise (A : Type) (f g : A -> bool) (l : list A) :
  (forall x, f x = g x) -> existsb f l = existsb g l.
Proof.
  intros H. induction l as [|x l IH]; simpl; auto. now rewrite H, IH.
Qed.

Lemma fetch_entity q q' acc i :
  entity q = entity q' -> fetch C q acc i = fetch C q' acc i.
Proof.
  intros E. unfold fetch, hydrate, appliedOnBase. now rewrite E.
Qed.

Lemma fold_fetch_entity q q' ids : forall acc,
  entity q = entity q' ->
  fold_left (fetch C q) ids acc = fold_left (fetch C q') ids acc.
Proof.
  induction ids as [|i ids IH]; intros acc E; simpl; auto.
  now rewrite IH, (fetch_entity q q' acc i E).
Qed.

Lemma executeRetrieveHook_entity name q q' models r :
  entity q = entity q' ->
  executeRetrieveHook C name q models r
  = executeRetrieveHook C name q' models r.
Proof.
  intros E.
  unfold executeRetrieveHook, executeGlobalRetrieveHook,
    executeLocalRetrieveHook.
  now rewrite E.
Qed.

(** [select] reads the finalized query through its entity, its lookup
    ids, its ordering and slicing, and the where filter. *)
Lemma select_congr q q' st :
  entity (finalizeIdFilter C q) = entity (finalizeIdFilter C q') ->
  getIdsToLookup (finalizeIdFilter C q) (data st)
  = getIdsToLookup (finalizeIdFilter C q') (data st) ->
  orders (finalizeIdFilter C q) = orders (finalizeIdFilter C q') ->
  offsetNumber (finalizeIdFilter C q) = offsetNumber (finalizeIdFilter C q') ->
  limitNumber (finalizeIdFilter C q) = limitNumber (finalizeIdFilter C q') ->
  (forall found, Filter_where C (finalizeIdFilter C q) found
                 = Filter_where C (finalizeIdFilter C q') found) ->
  fst (fst (select C q st)) = fst (fst (select C q' st))
  /\ snd (select C q st) = snd (select C q' st).
Proof.
  intros He Hids Ho Hof Hl Hw. unfold select, records.
  set (q1 := finalizeIdFilter C q) in *.
  set (q2 := finalizeIdFilter C q') in *.
  rewrite Hids, (fold_fetch_entity q1 q2 _ _ He).
  destruct (fold_left (fetch C q2) _ _) as [found t].
  unfold filterWhere, filterOrderBy, filterLimit.
  rewrite (executeRetrieveHook_entity _ q1 q2 _ _ He).
  destruct (executeRetrieveHook C "beforeSelect" q2 found _) as [r1 g1].
  rewrite Hw, (executeRetrieveHook_entity _ q1 q2 _ _ He).
  destruct (executeRetrieveHook C "afterWhere" q2 _ g1) as [r3 g3].
  unfold Filter_orderBy. rewrite Ho.
  rewrite (executeRetrieveHook_entity _ q1 q2 _ _ He).
  destruct (executeRetrieveHook C "afterOrderBy" q2 _ g3) as [r5 g5].
  unfold Filter_limit. rewrite Hof, Hl.
  rewrite (executeRetrieveHook_entity _ q1 q2 _ _ He).
  destruct (executeRetrieveHook C "afterLimit" q2 _ g5) as [r7 g7].
  simpl. auto.
Qed.

Lemma Filter_where_congr q q' found :
  entity q = entity q' -> wheres q = wheres q' ->
  Filter_where C q found = Filter_where C q' found.
Proof.
  intros E W. unfold Filter_where. rewrite W.
  destruct (wheres q') as [|w ws]; auto.
  apply filter_ext. intros record.
  rewrite !(forallb_whereOnRecord_entity q q' record) by assumption.
  f_equal. f_equal.
  apply existsb_pointwise. intros w'. now apply whereOnRecord_entity.
Qed.

(** What [finalizeIdFilter] does to a chain in which [orWhere] was
    called: the candidates become a membership clause on the primary key
    and the index is dropped. *)
Lemma finalizeIdFilter_cancelled q :
  cancelIdFilter q = true ->
  finalizeIdFilter C q =
  match idFilter q with
  | Some ids =>
      with_idFilter None
        (push_where {| field := keyField C q; value := WArray ids;
                       boolean := And |} q)
  | None => q
  end.
Proof.
  intros Hc. unfold finalizeIdFilter. rewrite Hc.
  destruct (idFilter q); auto.
  unfold where_, isIdfilterable. rewrite Hc, andb_false_r. reflexivity.
Qed.

(** The membership clause that replaces the index does not change what
    the where-expression accepts. *)
Lemma Filter_where_finalized e cs found :
  existsb isOrWhere cs = true ->
  Filter_where C (finalizeIdFilter C (chain C e cs)) found
  = Filter_where C (scanQuery C e cs) found.
Proof.
  intros Hor.
  destruct (ChainInv_chain e cs) as (He & Hj & Ho & Hof & Hl & Hw & Hc & Hi).
  rewrite Hor in Hc. rewrite finalizeIdFilter_cancelled by assumption.
  set (q := chain C e cs) in *.
  destruct (idFilter q) as [ids|] eqn:Ef.
  - destruct (Hi ids eq_refl) as [Hne Hin].
    assert (Hm : forall (X : Type) (l : list Where) (a b : X),
               l <> [] ->
               match l with [] => a | _ :: _ => b end = b)
      by (intros X [|? ?] a b Hnil; [now elim Hnil | reflexivity]).
    unfold Filter_where. simpl wheres. rewrite Hw in *.
    rewrite Hm
      by (intros H; apply app_eq_nil in H; destruct H; discriminate).
    rewrite Hm by (intros H; rewrite H in Hne; now apply Hne).
    apply filter_ext. intros record.
    rewrite !filter_app, forallb_app, length_app. simpl.
    rewrite andb_true_r, Nat.add_1_r. simpl.
    replace (filter isOr (map (clauseOf C e) cs) ++ [])
      with (filter isOr (map (clauseOf C e) cs)) by (now rewrite app_nil_r).
    set (ands := filter isAnd (map (clauseOf C e) cs)) in *.
    assert (Ea : forallb (whereOnRecord C (with_idFilter None
                   (push_where {| field := keyField C q;
                                  value := WArray ids;
                                  boolean := And |} q)) record) ands
                 = forallb (whereOnRecord C q record) ands)
      by (now apply forallb_whereOnRecord_entity).
    assert (Eb : forallb (whereOnRecord C (scanQuery C e cs) record) ands
                 = forallb (whereOnRecord C q record) ands)
      by (apply forallb_whereOnRecord_entity; now rewrite He).
    rewrite Ea, Eb.
    assert (Ec : Nat.eqb (List.length ands) 0 = false)
      by (destruct ands; [now elim Hne | reflexivity]).
    rewrite Ec. simpl.
    f_equal.
    + destruct (forallb (whereOnRecord C q record) ands) eqn:Eall; auto.
      simpl. unfold whereOnRecord at 1. simpl.
      apply (Hin record Eall).
    + f_equal. apply existsb_pointwise. intros w'.
      apply whereOnRecord_entity. simpl. now rewrite He.
  - apply Filter_where_congr; [now rewrite He | now rewrite Hw].
Qed.

Lemma finalizeIdFilter_scanQuery e cs :
  finalizeIdFilter C (scanQuery C e cs) = scanQuery C e cs.
Proof. reflexivity. Qed.

(** C4.  When [orWhere] is called anywhere in a where chain on a new
    query, [get()] returns what the full-table scan filtered by the
    where-expression of the chain returns, and leaves the same state:
    the candidates accumulated in [idFilter] are re-expressed as a
    membership clause on the primary key, the index is dropped, and every
    key of the table is looked up. *)
Theorem orWhere_full_scan e cs st :
  existsb isOrWhere cs = true ->
  (fst (fst (get C (chain C e cs) st)), snd (get C (chain C e cs) st))
  = fullScan C e cs st
  /\ (forall ids,
        idFilter (chain C e cs) = Some ids ->
        idFilter (finalizeIdFilter C (chain C e cs)) = None
        /\ wheres (finalizeIdFilter C (chain C e cs))
           = wheres (chain C e cs)
             ++ [{| field := keyField C (chain C e cs);
                    value := WArray ids;
                    boolean := And |}])
  /\ getIdsToLookup (finalizeIdFilter C (chain C e cs)) (data st)
     = map VStr (obj_keys (data st)).
Proof.
  intros Hor.
  destruct (ChainInv_chain e cs) as (He & Hj & Ho & Hof & Hl & Hw & Hc & Hi).
  rewrite Hor in Hc.
  assert (Hfin := finalizeIdFilter_cancelled (chain C e cs) Hc).
  set (q := chain C e cs) in *.
  assert (Hlook : getIdsToLookup (finalizeIdFilter C q) (data st)
                  = map VStr (obj_keys (data st))).
  { rewrite Hfin. unfold getIdsToLookup.
    destruct (idFilter q) eqn:Ef; simpl; rewrite ?Ef, Hj; reflexivity. }
  split; [|split; [|exact Hlook]].
  - destruct (select_congr q (scanQuery C e cs) st) as [E1 E2].
    + rewrite Hfin. destruct (idFilter q); simpl; now rewrite He.
    + now rewrite Hlook.
    + rewrite Hfin. destruct (idFilter q); simpl; now rewrite Ho.
    + rewrite Hfin. destruct (idFilter q); simpl; now rewrite Hof.
    + rewrite Hfin. destruct (idFilter q); simpl; now rewrite Hl.
    + intros found. rewrite finalizeIdFilter_scanQuery.
      now apply Filter_where_finalized.
    + unfold fullScan, get.
      destruct (select C q st) as [[f1 q1] s1].
      destruct (select C (scanQuery C e cs) st) as [[f2 q2] s2].
      simpl in E1, E2. simpl. now rewrite E1, E2.
  - intros ids Hids. rewrite Hfin, Hids. simpl. auto.
Qed.

End SelectFacts.

(** ** Hook execution *)

Section HookFacts.

Variable C : Container.

(** [some] calls the predicate on the elements in order, up to the first
    one that it accepts. *)
Lemma array_some_seen (A : Type) (p : A -> bool) (l : list A) :
  exists rest,
    l = snd (array_some p l) ++ rest
    /\ forallb (fun x => negb (p x))
               (removelast (snd (array_some p l))) = true
    /\ fst (array_some p l) = existsb p (snd (array_some p l)).
Proof.
  induction l as [|x l IH]; simpl.
  - exists []. auto.
  - destruct (p x) eqn:E; simpl.
    + exists l. rewrite E. auto.
    + destruct IH as [rest [H1 [H2 H3]]].
      destruct (array_some p l) as [b seen]. simpl in *.
      exists rest. rewrite E. simpl. split; [now f_equal|]. split; auto.
      destruct seen; auto. simpl. rewrite E. simpl. exact H2.
Qed.

Lemma called_all_calls name hs m r :
  calls (called_all name hs m r)
  = calls r ++ map (fun h => mkCall name (Some h) m) hs.
Proof.
  revert r. induction hs as [|h hs IH]; intros r; simpl.
  - now rewrite app_nil_r.
  - rewrite IH. simpl. now rewrite <- app_assoc.
Qed.

Lemma called_all_hooks name hs m r :
  hooks (called_all name hs m r) = hooks r.
Proof.
  revert r. induction hs as [|h hs IH]; intros r; simpl; auto.
  now rewrite IH.
Qed.

Lemma cleanGlobalHooksOn_calls name r :
  calls (cleanGlobalHooksOn name r) = calls r.
Proof.
  unfold cleanGlobalHooksOn. now destruct (obj_get name (hooks r)).
Qed.

Lemma noOnce_clean name r : noOnce name (cleanGlobalHooksOn name r).
Proof.
  intros hs hook. rewrite cleanGlobalHooksOn_get.
  destruct (obj_get name (hooks r)) as [hs0|] eqn:E.
  - rewrite String.eqb_refl. intros [= <-] H.
    apply filter_In in H. destruct H as [_ H].
    now apply negb_true_iff in H.
  - discriminate.
Qed.

Lemma noOnce_hooks name r r' :
  hooks r' = hooks r -> noOnce name r -> noOnce name r'.
Proof. unfold noOnce. now intros ->. Qed.

(** The global stage on one model: the hooks called are a prefix of the
    registered ones, in registration order, and they are called on that
    model; afterwards no once-flagged hook is left for the event. *)
Lemma executeGlobalBeforeMutationHook_calls name q m r :
  exists seen,
    calls (snd (executeGlobalBeforeMutationHook name q m r))
    = calls r ++ map (fun h => mkCall name (Some h) m) seen
    /\ (exists rest, match obj_get name (hooks r) with
                     | Some hs => hs
                     | None => []
                     end = seen ++ rest)
    /\ noOnce name (snd (executeGlobalBeforeMutationHook name q m r)).
Proof.
  unfold executeGlobalBeforeMutationHook, executeGlobalBeforeMutationHooks.
  destruct (obj_get name (hooks r)) as [[|h hs]|] eqn:E.
  - exists []. simpl. rewrite app_nil_r. repeat split; eauto.
    intros hs' hook. rewrite E. now intros [= <-] [].
  - set (p := fun hook : GlobalHook =>
                if onModel (callback hook) m (entity q) then false else true).
    destruct (array_some_seen _ p (h :: hs)) as [rest [H1 _]].
    destruct (array_some p (h :: hs)) as [result seen]. simpl in H1.
    exists seen. simpl. rewrite called_all_calls, cleanGlobalHooksOn_calls.
    repeat split; eauto.
    apply (noOnce_hooks name (cleanGlobalHooksOn name r)).
    + apply called_all_hooks.
    + apply noOnce_clean.
  - exists []. simpl. rewrite app_nil_r. repeat split; eauto.
    intros hs' hook. rewrite E. discriminate.
Qed.

Lemma callsSince_app r r' new :
  calls r' = calls r ++ new -> callsSince r r' = new.
Proof.
  unfold callsSince. intros ->. rewrite skipn_app, skipn_all, Nat.sub_diag.
  reflexivity.
Qed.







(** *** The verdict of the before stage *)

Lemma array_some_result (A : Type) (p : A -> bool) (l : list A) :
  fst (array_some p l) = existsb p l.
Proof.
  induction l as [|x l IH]; simpl; auto.
  destruct (p x); simpl; auto.
  destruct (array_some p l). exact IH.
Qed.

(** [some] looks for a hook whose call does not return [false]: with hooks
    registered for the event, the global stage returns [false] exactly
    when every one of them does. *)
Lemma executeGlobalBeforeMutationHooks_verdict name run r hs :
  obj_get name (hooks r) = Some hs ->
  fst (fst (executeGlobalBeforeMutationHooks name run r))
  = negb (Nat.eqb (List.length hs) 0)
    && forallb (fun hook => run (callback hook)) hs.
Proof.
  intros E. unfold executeGlobalBeforeMutationHooks. rewrite E.
  destruct hs as [|h hs]; [reflexivity|].
  set (p := fun hook : GlobalHook =>
              if run (callback hook) then false else true).
  pose proof (array_some_result _ p (h :: hs)) as R.
  destruct (array_some p (h :: hs)) as [result seen].
  cbn [fst] in *. rewrite R. cbn [List.length Nat.eqb negb andb].
  generalize (h :: hs). intros l.
  induction l as [|x l IH]; [reflexivity|].
  cbn [existsb forallb]. unfold p at 1.
  destruct (run (callback x)); cbn [orb andb]; [exact IH | reflexivity].
Qed.

(** The whole stage on one model vetoes when the hook of the model class
    returns [false], or when global hooks are registered and all of them
    return [false]. *)
Lemma executeBeforeMutationHook_verdict name q m r :
  fst (executeBeforeMutationHook C name q m r)
  = match localHook C (entity q) name with
    | Some hook => onModel hook m (entity q)
    | None => false
    end
    || match obj_get name (hooks r) with
       | Some hs =>
           negb (Nat.eqb (List.length hs) 0)
           && forallb (fun hook => onModel (callback hook) m (entity q)) hs
       | None => false
       end.
Proof.
  unfold executeBeforeMutationHook, executeLocalBeforeMutationHook.
  assert (G : forall r0,
             hooks r0 = hooks r ->
             fst (executeGlobalBeforeMutationHook name q m r0)
             = match obj_get name (hooks r) with
               | Some hs =>
                   negb (Nat.eqb (List.length hs) 0)
                   && forallb (fun hook =>
                                 onModel (callback hook) m (entity q)) hs
               | None => false
               end).
  { intros r0 E0. unfold executeGlobalBeforeMutationHook.
    destruct (obj_get name (hooks r)) as [hs|] eqn:E.
    - pose proof (executeGlobalBeforeMutationHooks_verdict name
                    (fun hook => onModel hook m (entity q)) r0 hs) as V.
      rewrite E0 in V. specialize (V E).
      destruct (executeGlobalBeforeMutationHooks name
                  (fun hook => onModel hook m (entity q)) r0)
        as [[veto seen] r']. exact V.
    - unfold executeGlobalBeforeMutationHooks. rewrite E0, E. reflexivity. }
  destruct (localHook C (entity q) name) as [hook|].
  - destruct (onModel hook m (entity q)); [reflexivity|].
    cbn [orb]. rewrite <- (G (called name None m r) eq_refl).
    destruct (executeGlobalBeforeMutationHook name q m (called name None m r))
      as [veto r2]. now destruct veto.
  - cbn [orb]. rewrite <- (G r eq_refl).
    destruct (executeGlobalBeforeMutationHook name q m r) as [veto r2].
    now destruct veto.
Qed.

End HookFacts.

(** ** Delete *)

Section DeleteFacts.

Variable C : Container.

Lemma keys_wf_remove l1 k l2 :
  keys_wf (l1 ++ k :: l2) = true -> keys_wf (l1 ++ l2) = true.
Proof.
  rewrite !keys_wf_app. simpl. intros H.
  apply andb_true_iff in H as [H H3].
  apply andb_true_iff in H as [H1 H2].
  apply andb_true_iff in H2 as [_ H2].
  rewrite H1, H2. simpl.
  rewrite forallb_forall in *. intros x Hx. specialize (H3 x Hx).
  simpl in H3. apply andb_true_iff in H3. tauto.
Qed.

Lemma vetoedKeys_keys q condition rows : forall r k,
  In k (vetoedKeys C q condition rows r) -> In k (obj_keys rows).
Proof.
  induction rows as [|[k0 m] rows IH]; intros r k; simpl; [tauto|].
  destruct (condition m); [|intros H; right; eapply IH; eauto].
  destruct (executeBeforeDeleteHook C q m r) as [veto r1].
  destruct veto; simpl.
  - intros [<-|H]; [now left | right; eapply IH; eauto].
  - intros H. right. eapply IH; eauto.
Qed.

Lemma isVetoed_cons k0 vetoed k :
  k <> k0 -> isVetoed (k0 :: vetoed) k = isVetoed vetoed k.
Proof.
  intros N. unfold isVetoed. simpl.
  now destruct (String.eqb_spec k k0); [contradiction|].
Qed.

Lemma isVetoed_false vetoed k : ~ In k vetoed -> isVetoed vetoed k = false.
Proof.
  intros N. unfold isVetoed. apply not_true_is_false. intros H.
  apply existsb_exists in H. destruct H as [x [Hx E]].
  apply String.eqb_eq in E. now subst.
Qed.

Lemma filterStep_row q condition (t models : Table)
      (deleted : Collection) (r : Registry) k m :
  obj_get k t = Some m ->
  filterStep (keepOnDelete C q condition) t (models, (deleted, r)) k
  = if condition m then
      if fst (executeBeforeDeleteHook C q m r)
      then (obj_set k m models,
            (deleted, snd (executeBeforeDeleteHook C q m r)))
      else (models,
            (deleted ++ [m],
             executeAfterDeleteHook C q m
               (snd (executeBeforeDeleteHook C q m r))))
    else (obj_set k m models, (deleted, r)).
Proof.
  intros H. unfold filterStep, keepOnDelete. rewrite H.
  destruct (condition m); simpl; auto.
  destruct (executeBeforeDeleteHook C q m r) as [veto r1].
  now destruct veto.
Qed.

Lemma vetoedKeys_cons q condition k m rest r :
  vetoedKeys C q condition ((k, m) :: rest) r
  = if condition m then
      if fst (executeBeforeDeleteHook C q m r)
      then k :: vetoedKeys C q condition rest
                  (snd (executeBeforeDeleteHook C q m r))
      else vetoedKeys C q condition rest
             (executeAfterDeleteHook C q m
                (snd (executeBeforeDeleteHook C q m r)))
    else vetoedKeys C q condition rest r.
Proof.
  simpl. destruct (condition m); auto.
  destruct (executeBeforeDeleteHook C q m r) as [veto r1].
  now destruct veto.
Qed.

(** The scan of [deleteByCondition] from any row on: the rows kept are
    appended to the new table and the rows deleted to the collection. *)
Lemma delete_scan q condition (rest : Table) :
  forall (done models : Table) (deleted : Collection) (r : Registry),
    NoDup (obj_keys (done ++ rest)) ->
    keys_wf (obj_keys models ++ obj_keys rest) = true ->
    exists r',
      fold_left (filterStep (keepOnDelete C q condition) (done ++ rest))
                (obj_keys rest) (models, (deleted, r))
      = (models
           ++ filter (fun e => negb (condition (snd e))
                               || isVetoed (vetoedKeys C q condition rest r)
                                           (fst e)) rest,
         (deleted
            ++ map snd
                 (filter (fun e => condition (snd e)
                                   && negb (isVetoed
                                              (vetoedKeys C q condition rest r)
                                              (fst e))) rest),
          r')).
Proof.
  induction rest as [|[k m] rest IH]; intros done models deleted r ND WF.
  - exists r. simpl. now rewrite !app_nil_r.
  - assert (Hget : obj_get k (done ++ (k, m) :: rest) = Some m).
    { apply obj_get_NoDup; auto. apply in_or_app. right. now left. }
    assert (Hin : ~ In k (obj_keys rest)).
    { unfold obj_keys in ND. rewrite map_app in ND. simpl in ND.
      apply NoDup_remove_2 in ND. intros H. apply ND.
      apply in_or_app. now right. }
    assert (Hdone : done ++ (k, m) :: rest = (done ++ [(k, m)]) ++ rest)
      by (now rewrite <- app_assoc).
    assert (Hother : forall vetoed e, In e rest ->
                       isVetoed (k :: vetoed) (fst e) = isVetoed vetoed (fst e)).
    { intros vetoed e He. apply isVetoed_cons. intros E.
      apply Hin. rewrite <- E. now apply (in_map fst). }
    assert (Hset : obj_set k m models = models ++ [(k, m)]).
    { apply obj_set_append. rewrite keys_wf_app in WF. simpl in WF.
      apply andb_true_iff in WF as [_ WF].
      rewrite forallb_forall in *. intros x Hx.
      specialize (WF x Hx). simpl in WF.
      apply andb_true_iff in WF. tauto. }
    assert (WF1 : keys_wf (obj_keys (models ++ [(k, m)]) ++ obj_keys rest)
                  = true).
    { unfold obj_keys in *. rewrite map_app. simpl.
      now rewrite <- app_assoc. }
    assert (WF2 : keys_wf (obj_keys models ++ obj_keys rest) = true)
      by (now apply keys_wf_remove in WF).
    change (obj_keys ((k, m) :: rest)) with (k :: obj_keys rest).
    cbn [fold_left].
    rewrite (filterStep_row q condition _ models deleted r k m Hget).
    rewrite vetoedKeys_cons. cbn [filter fst snd].
    rewrite Hdone in *.
    destruct (condition m) eqn:Ec; cbn [negb orb andb].
    + destruct (fst (executeBeforeDeleteHook C q m r)) eqn:Ev.
      * set (r1 := snd (executeBeforeDeleteHook C q m r)).
        destruct (IH (done ++ [(k, m)]) (models ++ [(k, m)]) deleted r1 ND WF1)
          as [r' E].
        exists r'. rewrite Hset, E.
        assert (Hk : isVetoed (k :: vetoedKeys C q condition rest r1) k
                     = true)
          by (unfold isVetoed; cbn [existsb]; now rewrite String.eqb_refl).
        rewrite Hk. cbn [orb negb]. rewrite <- !app_assoc. cbn [app].
        f_equal; [f_equal; f_equal|f_equal; f_equal; f_equal];
          apply filter_ext_in; intros e He; now rewrite Hother.
      * set (r2 := executeAfterDeleteHook C q m
                     (snd (executeBeforeDeleteHook C q m r))).
        destruct (IH (done ++ [(k, m)]) models (deleted ++ [m]) r2 ND WF2)
          as [r' E].
        exists r'. rewrite E.
        rewrite (isVetoed_false _ k)
          by (intros H; apply Hin; eapply vetoedKeys_keys; eauto).
        cbn [negb map snd]. now rewrite <- !app_assoc.
    + destruct (IH (done ++ [(k, m)]) (models ++ [(k, m)]) deleted r ND WF1)
        as [r' E].
      exists r'. rewrite Hset, E. now rewrite <- !app_assoc.
Qed.

(** [delete(predicate)] runs [deleteByCondition] on the table of the
    entity.  On a table as the engine keeps it, the rebuilt table holds
    exactly the rows for which the predicate is false or for which the
    before-delete stage returned [false], unchanged and in their order,
    and the returned collection holds exactly the rows for which the
    predicate is true and the stage did not return [false].  When the
    stage returns [false] is told by [executeBeforeMutationHook_verdict]. *)
Theorem deleteByCondition_partition q condition st :
  obj_wf (data st) = true ->
  data (snd (deleteByCondition C q condition st))
  = filter (fun e => negb (condition (snd e))
                     || isVetoed (vetoedKeys C q condition (data st) (reg st))
                                 (fst e))
           (data st)
  /\ fst (deleteByCondition C q condition st)
     = map snd
         (filter (fun e => condition (snd e)
                           && negb (isVetoed
                                      (vetoedKeys C q condition (data st)
                                         (reg st))
                                      (fst e)))
                 (data st))
  /\ forall w,
      obj_get (baseModel C (entity q)) (root w) = Some (data st) ->
      wreg w = reg st ->
      delete C q (DeletePredicate condition) w
      = Returned
          (DeletedCollection (fst (deleteByCondition C q condition st)))
          {| root := obj_set (baseModel C (entity q))
                             (data (snd (deleteByCondition C q condition st)))
                             (root w);
             wreg := reg (snd (deleteByCondition C q condition st)) |}.
Proof.
  intros WF.
  destruct (delete_scan q condition (data st) [] [] [] (reg st)) as [r' E].
  - simpl. apply keys_wf_NoDup. exact WF.
  - exact WF.
  - simpl in E.
    assert (Hd : deleteByCondition C q condition st
                 = (map snd
                      (filter (fun e => condition (snd e)
                                 && negb (isVetoed
                                            (vetoedKeys C q condition (data st)
                                               (reg st))
                                            (fst e)))
                              (data st)),
                    {| data :=
                         filter (fun e => negb (condition (snd e))
                                   || isVetoed
                                        (vetoedKeys C q condition (data st)
                                           (reg st))
                                        (fst e))
                                (data st);
                       reg := r' |})).
    { unfold deleteByCondition, filterData. now rewrite E. }
    split; [now rewrite Hd|]. split; [now rewrite Hd|].
    intros w Ht Hr. unfold delete, bind, onState, ret. rewrite Ht, Hr.
    replace {| data := data st; reg := reg st |} with st
      by (now destruct st).
    now rewrite Hd.
Qed.

End DeleteFacts.

(** ** Batches *)

Section BatchFacts.

Variable C : Container.

Lemma flat_map_entries (V B : Type) (F : string -> V -> B) (o : Obj V) :
  NoDup (obj_keys o) ->
  flat_map (fun k => match obj_get k o with
                     | Some v => [F k v]
                     | None => []
                     end) (obj_keys o)
  = map (fun e => F (fst e) (snd e)) o.
Proof.
  induction o as [|[k v] o IH]; simpl; auto.
  intros ND. inversion ND as [|? ? Hn ND']; subst.
  rewrite String.eqb_refl. simpl. f_equal.
  rewrite <- IH by assumption.
  assert (G : forall ks, ~ In k ks ->
    flat_map (fun k0 => match (if (k =? k0)%string then Some v
                               else obj_get k0 o) with
                        | Some v0 => [F k0 v0]
                        | None => []
                        end) ks
    = flat_map (fun k0 => match obj_get k0 o with
                          | Some v0 => [F k0 v0]
                          | None => []
                          end) ks).
  { induction ks as [|k' ks IHk]; simpl; auto.
    intros Hk. destruct (String.eqb_spec k k') as [->|N0].
    - exfalso. apply Hk. now left.
    - f_equal. apply IHk. intros Hin. apply Hk. now right. }
  apply G. exact Hn.
Qed.

Lemma obj_keys_map (V W : Type) (f : string * V -> W) (o : Obj V) :
  obj_keys (map (fun e => (fst e, f e)) o) = obj_keys o.
Proof.
  unfold obj_keys. rewrite map_map. apply map_ext. now intros [k v].
Qed.

Lemma obj_get_map (V W : Type) (f : V -> W) (o : Obj V) k :
  obj_get k (map (fun e => (fst e, f (snd e))) o)
  = option_map f (obj_get k o).
Proof.
  induction o as [|[k0 v0] o IH]; simpl; auto.
  now destruct (k0 =? k)%string.
Qed.

(** On records keyed as the engine keys them, [hydrateMany] hydrates each
    record under its key. *)
Lemma hydrateMany_map q (records : Records) :
  obj_wf records = true ->
  hydrateMany C q records
  = map (fun e => (fst e, fresh (fst (hydrate C q (Some (snd e)) None))))
        records.
Proof.
  intros WF. unfold hydrateMany.
  rewrite (fold_keys_build _
             (fun i => option_map
                         (fun record =>
                            fresh (fst (hydrate C q (Some record) None)))
                         (obj_get i records))
             (obj_keys records) []) by exact WF.
  simpl.
  etransitivity;
    [|exact (flat_map_entries _ _
               (fun k v => (k, fresh (fst (hydrate C q (Some v) None))))
               records (keys_wf_NoDup _ WF))].
  apply flat_map_ext. intros k. now destruct (obj_get k records).
Qed.

Lemma obj_keys_delete (V : Type) k (o : Obj V) :
  obj_keys (obj_delete k o)
  = filter (fun k' => negb (k' =? k)%string) (obj_keys o).
Proof.
  unfold obj_delete, obj_keys.
  induction o as [|[k0 v0] o IH]; simpl; auto.
  destruct (negb (k0 =? k)%string); simpl; now rewrite IH.
Qed.

Lemma obj_delete_wf (V : Type) k (o : Obj V) :
  obj_wf o = true -> obj_wf (obj_delete k o) = true.
Proof.
  unfold obj_wf. rewrite obj_keys_delete. apply keys_wf_filter.
Qed.

Lemma obj_keys_unstage (instances : Instances) :
  obj_keys (unstage instances) = obj_keys instances.
Proof. unfold unstage, obj_keys. now rewrite map_map. Qed.

Lemma obj_get_unstage k (instances : Instances) :
  obj_get k (unstage instances) = option_map inst (obj_get k instances).
Proof. apply (obj_get_map _ _ inst). Qed.

Lemma beforeMutationStep_cases name q (models : Instances) r i :
  fst (beforeMutationStep C name q (models, r) i) = models
  \/ fst (beforeMutationStep C name q (models, r) i) = obj_delete i models.
Proof.
  unfold beforeMutationStep.
  destruct (obj_get i models) as [model|]; [|now left].
  destruct (executeBeforeMutationHook C name q (inst model) r) as [veto r1].
  destruct veto; [now right | now left].
Qed.

(** The before stage only deletes from the batch. *)
Lemma beforeMutation_fold name q keys :
  forall (models : Instances) (r : Registry),
    (obj_wf models = true ->
     obj_wf (fst (fold_left (beforeMutationStep C name q) keys (models, r)))
     = true)
    /\ forall k,
        obj_get k (fst (fold_left (beforeMutationStep C name q) keys
                          (models, r))) = None
        \/ obj_get k (fst (fold_left (beforeMutationStep C name q) keys
                             (models, r)))
           = obj_get k models.
Proof.
  induction keys as [|i keys IH]; intros models r; cbn [fold_left].
  - split; auto.
  - destruct (beforeMutationStep_cases name q models r i) as [E|E];
      destruct (beforeMutationStep C name q (models, r) i) as [m1 r1];
      simpl in E; subst m1; [apply IH|].
    destruct (IH (obj_delete i models) r1) as [H1 H2]. split.
    + intros WF. apply H1. now apply obj_delete_wf.
    + intros k. destruct (H2 k) as [H|H]; [now left|].
      rewrite H, obj_get_delete.
      destruct (i =? k)%string; [now left | now right].
Qed.

Lemma executeBeforeMutationHookOnModels_wf name q (models : Instances) r :
  obj_wf models = true ->
  obj_wf (fst (executeBeforeMutationHookOnModels C name q models r)) = true.
Proof. apply beforeMutation_fold. Qed.


(** *** Create *)






Lemma hydrateMany_wf q (records : Records) :
  obj_wf records = true -> obj_wf (hydrateMany C q records) = true.
Proof.
  intros WF. rewrite hydrateMany_map by assumption.
  unfold obj_wf.
  rewrite (obj_keys_map _ _
             (fun e => fresh (fst (hydrate C q (Some (snd e)) None)))).
  exact WF.
Qed.

Lemma createMany_data q (records : Records) st :
  data (snd (createMany C q records st))
  = spread (emptyState C q (data st))
           (unstage (fst (executeBeforeCreateHookOnModels C q
                            (hydrateMany C q records) (reg st)))).
Proof.
  unfold createMany, commitCreateOnRecords.
  now destruct (executeBeforeCreateHookOnModels C q
                  (hydrateMany C q records) (reg st)).
Qed.


(** *** Update: the argument checks *)

(** C9 (as amended).  [update] with a closure as data and no condition (a
    condition that is [null], [0] or the empty string), and [update] with
    a plain record as data (neither an array nor a closure) and a number
    or string condition on a model whose primary key is composite, throw
    at once: the call leaves the root state and the hook registry as
    they were. *)
Theorem update_invalid_arguments q options w :
  (forall f v,
      truthy v = false ->
      update C q (DataClosure f) (ConditionValue v) options w
      = Thrown (Error missingWhere) w)
  /\ (forall r v fs,
        truthy v = true ->
        primaryKey C (entity q) = PkComposite fs ->
        update C q (DataRecord r) (ConditionValue v) options w
        = Thrown (Error compositeKeyWhere) w).
Proof.
  split.
  - intros f v Hv. unfold update. now rewrite Hv.
  - intros r v fs Hv Hk. unfold update. now rewrite Hv, Hk.
Qed.

(** *** Hooks that do not veto *)

Lemma peaceful_hooks q r r' :
  (forall name hs', obj_get name (hooks r') = Some hs' ->
                    exists hs, obj_get name (hooks r) = Some hs
                               /\ incl hs' hs) ->
  peaceful C q r -> peaceful C q r'.
Proof.
  intros Hs [Hl Hg]. split; auto.
  intros name hs' hook m E Hin.
  destruct (Hs name hs' E) as [hs [E' Hi]].
  apply (Hg name hs hook m E'). now apply Hi.
Qed.

Lemma peaceful_clean q name r :
  peaceful C q r -> peaceful C q (cleanGlobalHooksOn name r).
Proof.
  apply peaceful_hooks. intros name' hs'. rewrite cleanGlobalHooksOn_get.
  destruct (obj_get name (hooks r)) as [hs|] eqn:E.
  - destruct (String.eqb_spec name name') as [<-|N].
    + intros [= <-]. exists hs. split; auto.
      intros x Hx. apply filter_In in Hx. tauto.
    + intros E'. exists hs'. split; auto. apply incl_refl.
  - intros E'. exists hs'. split; auto. apply incl_refl.
Qed.

Lemma peaceful_called q name h m r :
  peaceful C q r -> peaceful C q (called name h m r).
Proof.
  apply peaceful_hooks. intros name' hs' E. exists hs'. split; auto.
  apply incl_refl.
Qed.

Lemma peaceful_called_all q name hs m r :
  peaceful C q r -> peaceful C q (called_all name hs m r).
Proof.
  apply peaceful_hooks. intros name' hs' E.
  rewrite called_all_hooks in E. exists hs'. split; auto. apply incl_refl.
Qed.

(** Where no hook returns [false], the before stage lets the model
    through. *)
Lemma executeBeforeMutationHook_peaceful name q m r :
  peaceful C q r ->
  fst (executeBeforeMutationHook C name q m r) = false
  /\ peaceful C q (snd (executeBeforeMutationHook C name q m r)).
Proof.
  intros P. unfold executeBeforeMutationHook.
  assert (G : forall r0, peaceful C q r0 ->
            fst (executeGlobalBeforeMutationHook name q m r0) = false
            /\ peaceful C q (snd (executeGlobalBeforeMutationHook name q m r0))).
  { intros r0 [Hl Hg].
    unfold executeGlobalBeforeMutationHook,
      executeGlobalBeforeMutationHooks.
    destruct (obj_get name (hooks r0)) as [[|h hs]|] eqn:E; simpl.
    - split; auto. now split.
    - rewrite (Hg name (h :: hs) h m E) by (now left). simpl. split; auto.
      apply peaceful_called, peaceful_clean. now split.
    - split; auto. now split. }
  unfold executeLocalBeforeMutationHook.
  destruct (localHook C (entity q) name) as [hook|] eqn:El.
  - destruct P as [Hl Hg]. rewrite (Hl name hook m El).
    destruct (G (called name None m r)) as [G1 G2].
    { apply peaceful_called. now split. }
    destruct (executeGlobalBeforeMutationHook name q m (called name None m r))
      as [veto r2]. simpl in *. subst veto. now split.
  - destruct (G r P) as [G1 G2].
    destruct (executeGlobalBeforeMutationHook name q m r) as [veto r2].
    simpl in *. subst veto. now split.
Qed.

Lemma beforeMutation_fold_peaceful name q keys :
  forall (models : Instances) (r : Registry),
    peaceful C q r ->
    fst (fold_left (beforeMutationStep C name q) keys (models, r)) = models
    /\ peaceful C q
         (snd (fold_left (beforeMutationStep C name q) keys (models, r))).
Proof.
  induction keys as [|i keys IH]; intros models r P; cbn [fold_left].
  - now split.
  - assert (E : exists r1,
              beforeMutationStep C name q (models, r) i = (models, r1)
              /\ peaceful C q r1).
    { unfold beforeMutationStep.
      destruct (obj_get i models) as [model|]; [|now exists r].
      destruct (executeBeforeMutationHook_peaceful name q (inst model) r P)
        as [H1 H2].
      destruct (executeBeforeMutationHook C name q (inst model) r)
        as [veto r1]. simpl in *. subst veto. now exists r1. }
    destruct E as [r1 [-> P1]]. now apply IH.
Qed.

(** Where no hook returns [false], the before stage keeps the whole
    batch. *)
Lemma executeBeforeMutationHookOnModels_peaceful name q
      (models : Instances) r :
  peaceful C q r ->
  fst (executeBeforeMutationHookOnModels C name q models r) = models
  /\ peaceful C q
       (snd (executeBeforeMutationHookOnModels C name q models r)).
Proof. apply beforeMutation_fold_peaceful. Qed.

Lemma executeAfterMutationHook_peaceful name q m r :
  peaceful C q r -> peaceful C q (executeAfterMutationHook C name q m r).
Proof.
  intros P. unfold executeAfterMutationHook, executeGlobalAfterMutationHook,
    executeGlobalAfterMutationHooks.
  assert (P0 : peaceful C q (executeLocalAfterMutationHook C name q m r)).
  { unfold executeLocalAfterMutationHook.
    destruct (localHook C (entity q) name); auto. }
  set (r0 := executeLocalAfterMutationHook C name q m r) in *.
  destruct (obj_get name (hooks r0)); simpl.
  - now apply peaceful_called_all, peaceful_clean.
  - exact P0.
Qed.

Lemma executeAfterMutationHookOnModels_peaceful name q
      (models : Instances) r :
  peaceful C q r ->
  peaceful C q (executeAfterMutationHookOnModels C name q models r).
Proof.
  unfold executeAfterMutationHookOnModels. revert r.
  induction (obj_keys models) as [|i keys IH]; intros r P; simpl; auto.
  apply IH. destruct (obj_get i models); auto.
  now apply executeAfterMutationHook_peaceful.
Qed.

(** *** Insert or update *)

Lemma map__values (instances : Instances) :
  NoDup (obj_keys instances) ->
  map_ instances = map (fun e => inst (snd e)) instances.
Proof. intros ND. unfold map_. now apply flat_map_keys. Qed.

Lemma flat_map_ext_in (A B : Type) (f g : A -> list B) (l : list A) :
  (forall x, In x l -> f x = g x) -> flat_map f l = flat_map g l.
Proof.
  induction l as [|x l IH]; intros H; simpl; auto.
  rewrite H by (now left). f_equal. apply IH. intros y Hy. apply H.
  now right.
Qed.

Lemma flat_map_entries_opt (V B : Type) (G : string -> V -> list B)
      (o : Obj V) :
  NoDup (obj_keys o) ->
  flat_map (fun k => match obj_get k o with
                     | Some v => G k v
                     | None => []
                     end) (obj_keys o)
  = flat_map (fun e => G (fst e) (snd e)) o.
Proof.
  induction o as [|[k v] o IH]; simpl; auto.
  intros ND. inversion ND as [|? ? Hn ND']; subst.
  rewrite String.eqb_refl. f_equal.
  rewrite <- IH by assumption.
  apply flat_map_ext_in. intros k' Hk'.
  destruct (String.eqb_spec k k') as [->|N]; [contradiction | reflexivity].
Qed.

Lemma obj_wf_filter (V : Type) (p : string * V -> bool) (o : Obj V) :
  obj_wf o = true -> obj_wf (filter p o) = true.
Proof.
  unfold obj_wf, obj_keys.
  induction o as [|[k v] o IH]; simpl; auto.
  intros H. apply andb_true_iff in H. destruct H as [H1 H2].
  destruct (p (k, v)); simpl; auto.
  rewrite IH by assumption. rewrite andb_true_r.
  rewrite forallb_forall in *. intros x Hx. apply H1.
  apply in_map_iff in Hx. destruct Hx as [e [<- He]].
  apply filter_In in He. apply in_map. tauto.
Qed.

(** The partition of [insertOrUpdateMany], from any record on. *)
Lemma partition_scan (t : Table) (rest : Records) :
  forall (done ins upd : Records),
    NoDup (obj_keys (done ++ rest)) ->
    keys_wf (obj_keys ins ++ obj_keys rest) = true ->
    keys_wf (obj_keys upd ++ obj_keys rest) = true ->
    fold_left (partitionStep (done ++ rest) t) (obj_keys rest) (ins, upd)
    = (ins ++ filter (fun e => negb (obj_has (fst e) t)) rest,
       upd ++ filter (fun e => obj_has (fst e) t) rest).
Proof.
  induction rest as [|[k v] rest IH]; intros done ins upd ND W1 W2.
  - simpl. now rewrite !app_nil_r.
  - assert (Hget : obj_get k (done ++ (k, v) :: rest) = Some v).
    { apply obj_get_NoDup; auto. apply in_or_app. right. now left. }
    assert (Hdone : done ++ (k, v) :: rest = (done ++ [(k, v)]) ++ rest)
      by (now rewrite <- app_assoc).
    assert (Happ : forall acc : Records,
               keys_wf (obj_keys acc ++ obj_keys ((k, v) :: rest)) = true ->
               obj_set k v acc = acc ++ [(k, v)]
               /\ keys_wf (obj_keys (acc ++ [(k, v)]) ++ obj_keys rest) = true
               /\ keys_wf (obj_keys acc ++ obj_keys rest) = true).
    { intros acc W. split; [|split].
      - apply obj_set_append. rewrite keys_wf_app in W. simpl in W.
        apply andb_true_iff in W as [_ W].
        rewrite forallb_forall in *. intros x Hx.
        specialize (W x Hx). simpl in W.
        apply andb_true_iff in W. tauto.
      - unfold obj_keys in *. rewrite map_app. simpl.
        now rewrite <- app_assoc.
      - now apply keys_wf_remove in W. }
    destruct (Happ ins W1) as [S1 [A1 B1]].
    destruct (Happ upd W2) as [S2 [A2 B2]].
    change (obj_keys ((k, v) :: rest)) with (k :: obj_keys rest).
    cbn [fold_left]. unfold partitionStep at 2. rewrite Hget.
    cbn [filter fst]. rewrite Hdone in *.
    destruct (obj_has k t); cbn [negb].
    + rewrite S2, IH by assumption. now rewrite <- app_assoc.
    + rewrite S1, IH by assumption. now rewrite <- app_assoc.
Qed.

(** Where no hook returns [false], [insertMany] hydrates every record and
    adds it to the table. *)
Lemma insertMany_peaceful q (records : Records) st :
  obj_wf records = true ->
  peaceful C q (reg st) ->
  fst (insertMany C q records st)
  = map (fun e => fst (hydrate C q (Some (snd e)) None)) records
  /\ data (snd (insertMany C q records st))
     = spread (data st) (unstage (hydrateMany C q records))
  /\ peaceful C q (reg (snd (insertMany C q records st))).
Proof.
  intros WF P. unfold insertMany, commitCreateOnRecords.
  destruct (executeBeforeMutationHookOnModels_peaceful "beforeCreate" q
              (hydrateMany C q records) (reg st) P) as [H1 H2].
  fold (executeBeforeCreateHookOnModels C) in H1, H2.
  destruct (executeBeforeCreateHookOnModels C q (hydrateMany C q records)
              (reg st)) as [models r1].
  simpl in *. subst models. split; [|split; auto].
  - rewrite map__values
      by (apply keys_wf_NoDup; now apply hydrateMany_wf).
    rewrite hydrateMany_map by assumption. rewrite map_map. reflexivity.
  - now apply executeAfterMutationHookOnModels_peaceful.
Qed.

(** [combine] merges, under its key, each record whose id has a row. *)
Lemma combine_entries q (records : Records) (t t0 : Table) :
  obj_wf records = true ->
  (forall k, In k (obj_keys records) -> obj_get k t = obj_get k t0) ->
  combine C q records t
  = flat_map (fun e => match obj_get (fst e) t0 with
                       | Some row => [(fst e, fresh (merge C q row (snd e)))]
                       | None => []
                       end) records.
Proof.
  intros WF Ht. unfold combine.
  rewrite (fold_keys_build _ (combined C q records t) (obj_keys records) [])
    by exact WF.
  simpl.
  rewrite <- (flat_map_entries_opt _ _
                (fun k v => match obj_get k t0 with
                            | Some row => [(k, fresh (merge C q row v))]
                            | None => []
                            end) records)
    by (now apply keys_wf_NoDup).
  apply flat_map_ext_in. intros k Hk. unfold combined.
  rewrite (Ht k Hk).
  destruct (obj_get k t0), (obj_get k records); reflexivity.
Qed.

(** Where every instance of the batch sits under its index id,
    [updateIndexes] changes nothing. *)
Lemma updateIndexes_fixed q (instances : Instances) (t : Table) :
  (forall k s, obj_get k instances = Some s -> indexId C q (inst s) = k) ->
  updateIndexes C q instances t = (instances, t).
Proof.
  intros H. unfold updateIndexes.
  induction (obj_keys instances) as [|k keys IH]; simpl; auto.
  destruct (obj_get k instances) as [s|] eqn:E; auto.
  now rewrite (H k s E), String.eqb_refl.
Qed.

(** Where moreover no hook returns [false], [commitUpdate] writes the
    batch into the table and returns its instances. *)
Lemma commitUpdate_fixed q (instances : Instances) st :
  obj_wf instances = true ->
  peaceful C q (reg st) ->
  (forall k s, obj_get k instances = Some s -> indexId C q (inst s) = k) ->
  fst (fst (commitUpdate C q instances st))
  = map (fun e => inst (snd e)) instances
  /\ data (snd (commitUpdate C q instances st))
     = spread (data st) (unstage instances).
Proof.
  intros WF P H. unfold commitUpdate, commitUpdateOnRecords.
  rewrite (updateIndexes_fixed q instances (data st) H). simpl.
  destruct (executeBeforeMutationHookOnModels_peaceful "beforeUpdate" q
              instances (reg st) P) as [H1 _].
  fold (executeBeforeUpdateHookOnModels C) in H1.
  destruct (executeBeforeUpdateHookOnModels C q instances (reg st))
    as [models r1].
  simpl in *. subst models. split; auto.
  apply map__values. now apply keys_wf_NoDup.
Qed.

Lemma length_flat_map_rows (B : Type) (t : Table) (records : Records)
      (F : string * Obj Value -> Instance -> B) :
  List.length
    (flat_map (fun e => match obj_get (fst e) t with
                        | Some row => [F e row]
                        | None => []
                        end)
              (filter (fun e => obj_has (fst e) t) records))
  = List.length (filter (fun e => obj_has (fst e) t) records).
Proof.
  induction records as [|e records IH]; simpl; auto.
  destruct (obj_has (fst e) t) eqn:Eh; auto.
  unfold obj_has in Eh. simpl.
  destruct (obj_get (fst e) t) eqn:E; [|discriminate].
  simpl. now rewrite IH.
Qed.

Lemma length_filter_split (A : Type) (p : A -> bool) (l : list A) :
  List.length (filter (fun x => negb (p x)) l) + List.length (filter p l)
  = List.length l.
Proof.
  induction l as [|x l IH]; simpl; auto.
  destruct (p x); simpl; lia.
Qed.

Lemma obj_wf_flat_map_opt (V W : Type) (G : string * V -> option W)
      (o : Obj V) :
  obj_wf o = true ->
  obj_wf (flat_map (fun e => match G e with
                             | Some x => [(fst e, x)]
                             | None => []
                             end) o) = true.
Proof.
  unfold obj_wf, obj_keys.
  induction o as [|[k v] o IH]; simpl; auto.
  intros H. apply andb_true_iff in H. destruct H as [H1 H2].
  destruct (G (k, v)); simpl; auto.
  rewrite IH by assumption. rewrite andb_true_r.
  rewrite forallb_forall in *. intros x Hx. apply H1.
  apply in_map_iff in Hx. destruct Hx as [[k' w'] [<- He]].
  apply in_flat_map in He. destruct He as [e [He Hin]].
  destruct (G e); [|destruct Hin].
  destruct Hin as [[= <- <-]|[]]. simpl. now apply (in_map fst).
Qed.

Lemma map_flat_map (A B D : Type) (f : B -> D) (g : A -> list B)
      (l : list A) :
  map f (flat_map g l) = flat_map (fun x => map f (g x)) l.
Proof.
  induction l as [|x l IH]; simpl; auto. now rewrite map_app, IH.
Qed.

(** C1 (as amended).  On a table and a batch keyed as the engine keys
    them, where no hook returns [false] and no update changes the index
    id of its record, [insertOrUpdateMany] returns the records processed
    through insert (the hydrated records of the new ids, in batch order)
    followed by the records processed through update (the merged rows of
    the ids that the table has, in batch order): inserted records come
    before updated records, and the length is that of the batch. *)
Theorem insertOrUpdateMany_inserted_then_updated q (records : Records) st :
  obj_wf (data st) = true ->
  obj_wf records = true ->
  peaceful C q (reg st) ->
  (forall k record row,
      In (k, record) records ->
      obj_get k (data st) = Some row ->
      indexId C q (merge C q row record) = k) ->
  fst (insertOrUpdateMany C q records st)
  = map (fun e => fst (hydrate C q (Some (snd e)) None))
        (filter (fun e => negb (obj_has (fst e) (data st))) records)
    ++ flat_map (fun e => match obj_get (fst e) (data st) with
                          | Some row => [merge C q row (snd e)]
                          | None => []
                          end)
                (filter (fun e => obj_has (fst e) (data st)) records)
  /\ List.length (fst (insertOrUpdateMany C q records st))
     = List.length records.
Proof.
  intros WFt WFr P Hfix.
  set (ins := filter (fun e => negb (obj_has (fst e) (data st))) records).
  set (upd := filter (fun e => obj_has (fst e) (data st)) records).
  assert (WFi : obj_wf ins = true) by (now apply obj_wf_filter).
  assert (WFu : obj_wf upd = true) by (now apply obj_wf_filter).
  assert (E : fst (insertOrUpdateMany C q records st)
              = map (fun e => fst (hydrate C q (Some (snd e)) None)) ins
                ++ flat_map (fun e => match obj_get (fst e) (data st) with
                                      | Some row => [merge C q row (snd e)]
                                      | None => []
                                      end) upd).
  { unfold insertOrUpdateMany.
    pose proof (partition_scan (data st) records [] [] []
                  (keys_wf_NoDup _ WFr) WFr WFr) as Hp.
    cbn [app] in Hp. rewrite Hp. clear Hp. fold ins upd.
    destruct (insertMany_peaceful q ins st WFi P) as [I1 [I2 I3]].
    destruct (insertMany C q ins st) as [inserted st1]. cbn [fst snd] in *.
    unfold updateMany.
    set (B := flat_map (fun e => match obj_get (fst e) (data st) with
                                 | Some row =>
                                     [(fst e, fresh (merge C q row (snd e)))]
                                 | None => []
                                 end) upd).
    assert (Hc : combine C q upd (data st1) = B).
    { apply combine_entries; auto. intros k Hk. rewrite I2.
      rewrite obj_get_spread.
      - rewrite obj_get_unstage.
        assert (Hn : obj_get k (hydrateMany C q ins) = None).
        { apply obj_get_None. rewrite hydrateMany_map by assumption.
          rewrite (obj_keys_map _ _
                     (fun e => fresh (fst (hydrate C q (Some (snd e)) None)))).
          intros Hi. unfold obj_keys in Hk, Hi.
          apply in_map_iff in Hk. destruct Hk as [e1 [<- H1]].
          apply in_map_iff in Hi. destruct Hi as [e2 [E2 H2]].
          apply filter_In in H1. apply filter_In in H2.
          rewrite E2 in H2. destruct H1 as [_ H1]. destruct H2 as [_ H2].
          rewrite H1 in H2. discriminate. }
        now rewrite Hn.
      - now apply keys_wf_NoDup.
      - rewrite obj_keys_unstage. apply keys_wf_NoDup.
        now apply hydrateMany_wf. }
    rewrite Hc.
    assert (WFB : obj_wf B = true).
    { unfold B.
      apply (obj_wf_flat_map_opt _ _
               (fun e => option_map (fun row => fresh (merge C q row (snd e)))
                                    (obj_get (fst e) (data st)))) in WFu.
      erewrite flat_map_ext; [exact WFu|].
      intros e. simpl. now destruct (obj_get (fst e) (data st)). }
    assert (HB : forall k s, obj_get k B = Some s ->
                             indexId C q (inst s) = k).
    { intros k s Hs. apply obj_get_In in Hs. unfold B in Hs.
      apply in_flat_map in Hs. destruct Hs as [[k' record] [He Hin]].
      simpl in Hin. destruct (obj_get k' (data st)) as [row|] eqn:Er;
        [|destruct Hin].
      destruct Hin as [[= <- <-]|[]]. simpl.
      apply filter_In in He. apply (Hfix k' record row); tauto. }
    destruct (commitUpdate_fixed q B st1 WFB I3 HB) as [U1 _].
    destruct (commitUpdate C q B st1) as [[updated batch] st2].
    cbn [fst snd] in *. rewrite I1, U1. f_equal.
    unfold B. rewrite map_flat_map. apply flat_map_ext. intros e.
    now destruct (obj_get (fst e) (data st)). }
  split; [exact E|].
  rewrite E, length_app, length_map. unfold ins, upd.
  rewrite <- (length_filter_split _ (fun e => obj_has (fst e) (data st))
                records).
  f_equal.
  exact (length_flat_map_rows _ (data st) records
           (fun e row => merge C q row (snd e))).
Qed.

(** *** Rekeying *)

Lemma obj_keys_replace (V : Type) k (v : V) (o : Obj V) :
  obj_keys (obj_replace k v o) = obj_keys o.
Proof.
  induction o as [|[k0 v0] o IH]; simpl; auto.
  destruct (k0 =? k)%string; simpl; auto. now f_equal.
Qed.

Lemma obj_keys_insert_index (V : Type) n k (v : V) (o : Obj V) :
  (forall x, In x (obj_keys (obj_insert_index n k v o))
             <-> x = k \/ In x (obj_keys o))
  /\ (NoDup (obj_keys o) -> ~ In k (obj_keys o) ->
      NoDup (obj_keys (obj_insert_index n k v o))).
Proof.
  induction o as [|[k0 v0] o [IH1 IH2]]; simpl.
  - split.
    + intros x. split; intros [H|H]; auto.
    + intros _ _. constructor; auto. constructor.
  - assert (G : forall x, In x (obj_keys ((k, v) :: (k0, v0) :: o))
                          <-> x = k \/ k0 = x \/ In x (obj_keys o)).
    { intros x. simpl. split; intros [H|H]; auto. }
    assert (N : NoDup (k0 :: obj_keys o) -> ~ (k0 = k \/ In k (obj_keys o)) ->
                NoDup (obj_keys ((k, v) :: (k0, v0) :: o))).
    { intros ND Hn. simpl. constructor; auto. }
    destruct (array_index k0) as [n'|]; [destruct (n <? n')%N|]; auto.
    split.
    + intros x. simpl. rewrite IH1. tauto.
    + intros ND Hn. simpl. inversion ND as [|? ? Hk0 ND']; subst.
      constructor.
      * rewrite IH1. intros [<-|H]; auto.
      * apply IH2; auto.
Qed.

Lemma NoDup_snoc (A : Type) (x : A) (l : list A) :
  NoDup l -> ~ In x l -> NoDup (l ++ [x]).
Proof.
  induction l as [|y l IH]; simpl; intros ND Hn.
  - constructor; auto.
  - inversion ND as [|? ? Hy ND']; subst. constructor.
    + rewrite in_app_iff. simpl. intros [H|[H|[]]]; auto.
    + apply IH; auto.
Qed.

Lemma obj_set_NoDup (V : Type) k (v : V) (o : Obj V) :
  NoDup (obj_keys o) -> NoDup (obj_keys (obj_set k v o)).
Proof.
  intros ND. unfold obj_set. destruct (obj_has k o) eqn:E.
  - now rewrite obj_keys_replace.
  - assert (Hn : ~ In k (obj_keys o)).
    { intros H. apply obj_has_true in H. rewrite H in E. discriminate. }
    destruct (array_index k) as [n|].
    + now apply obj_keys_insert_index.
    + unfold obj_keys. rewrite map_app. simpl. now apply NoDup_snoc.
Qed.

Lemma obj_delete_NoDup (V : Type) k (o : Obj V) :
  NoDup (obj_keys o) -> NoDup (obj_keys (obj_delete k o)).
Proof. rewrite obj_keys_delete. apply NoDup_filter. Qed.

(** Reading [{ ...a, ...b }] at a key of [b]. *)
Lemma obj_get_spread_right (V : Type) k (v : V) (a b : Obj V) :
  NoDup (obj_keys b) -> obj_get k b = Some v ->
  obj_get k (spread a b) = Some v.
Proof.
  intros ND H. unfold spread.
  rewrite fold_set_get, rev_app_distr, obj_get_app.
  now rewrite obj_get_rev, H.
Qed.

Lemma map__In (instances : Instances) k s :
  obj_get k instances = Some s -> In (inst s) (map_ instances).
Proof.
  intros H. unfold map_. apply in_flat_map. exists k. split.
  - apply obj_has_true. unfold obj_has. now rewrite H.
  - rewrite H. now left.
Qed.

(** The scan of [updateIndexes] for one instance that changes key: the
    instance [s] staged under [k] ends under its index id, provided no
    other instance of the batch has the old or the new key as its index
    id and the new key is not a key of the batch. *)
Lemma updateIndexes_scan q k s :
  (forall x i, indexId C q (setId x i) = indexId C q i) ->
  indexId C q (inst s) <> k ->
  forall keys (acc : Instances) (t : Table),
    NoDup keys ->
    NoDup (obj_keys acc) ->
    ~ In (indexId C q (inst s)) keys ->
    (forall k' s', obj_get k' acc = Some s' ->
                   k' <> k -> k' <> indexId C q (inst s) ->
                   indexId C q (inst s') <> indexId C q (inst s)
                   /\ indexId C q (inst s') <> k) ->
    (In k keys /\ obj_get k acc = Some s
     /\ obj_get (indexId C q (inst s)) acc = None)
    \/ (~ In k keys
        /\ obj_get (indexId C q (inst s)) acc
           = Some {| inst := setId (indexId C q (inst s)) (inst s);
                     home := home s |}) ->
    obj_get (indexId C q (inst s))
            (fst (fold_left (indexStep C q) keys (acc, t)))
    = Some {| inst := setId (indexId C q (inst s)) (inst s);
              home := home s |}
    /\ NoDup (obj_keys (fst (fold_left (indexStep C q) keys (acc, t)))).
Proof.
  intros Hid Hne. set (new := indexId C q (inst s)) in *.
  induction keys as [|key keys IH]; intros acc t NDk NDa Hnew Hoth Hst.
  - simpl. destruct Hst as [[[] _]|[_ H]]. now split.
  - cbn [fold_left]. inversion NDk as [|? ? Hkey NDk']; subst.
    assert (Hnew' : ~ In new keys) by (intros H; apply Hnew; now right).
    assert (Hkn : key <> new) by (intros H; apply Hnew; now left).
    destruct (String.eqb_spec key k) as [->|Nk].
    + destruct Hst as [[_ [Hk Hn]]|[Hk _]]; [|exfalso; apply Hk; now left].
      destruct (indexStep C q (acc, t) k) as [acc1 t1] eqn:Estep.
      unfold indexStep in Estep. rewrite Hk in Estep. fold new in Estep.
      destruct (String.eqb_spec k new) as [E|_]; [now elim Hne|].
      injection Estep as <- <-.
      apply IH; auto.
      * now apply obj_delete_NoDup, obj_set_NoDup.
      * intros k' s' H N1 N2. rewrite obj_get_delete, obj_get_set in H.
        destruct (String.eqb_spec k k'); [discriminate|].
        destruct (String.eqb_spec new k'); [now elim N2|].
        now apply (Hoth k' s').
      * right. split; auto. rewrite obj_get_delete, obj_get_set.
        destruct (String.eqb_spec k new); [now elim Hne|].
        now rewrite String.eqb_refl.
    + assert (Hst' : forall acc' : Instances,
                 obj_get k acc' = obj_get k acc ->
                 obj_get new acc' = obj_get new acc ->
                 (In k keys /\ obj_get k acc' = Some s
                  /\ obj_get new acc' = None)
                 \/ (~ In k keys
                     /\ obj_get new acc'
                        = Some {| inst := setId new (inst s);
                                  home := home s |})).
      { intros acc' E1 E2. rewrite E1, E2.
        destruct Hst as [[[H|H] H']|[H H']].
        - now elim Nk.
        - now left.
        - right. split; auto. intros Hin. apply H. now right. }
      destruct (indexStep C q (acc, t) key) as [acc1 t1] eqn:Estep.
      unfold indexStep in Estep.
      destruct (obj_get key acc) as [s'|] eqn:Es;
        [|injection Estep as <- <-; apply IH; auto].
      destruct (Hoth key s' Es Nk Hkn) as [O1 O2].
      destruct (String.eqb_spec key (indexId C q (inst s'))) as [E|N];
        [injection Estep as <- <-; apply IH; auto|].
      injection Estep as <- <-.
      apply IH; auto.
      * now apply obj_delete_NoDup, obj_set_NoDup.
      * intros k' s'' H N1 N2. rewrite obj_get_delete, obj_get_set in H.
        destruct (String.eqb_spec key k'); [discriminate|].
        destruct (String.eqb_spec (indexId C q (inst s')) k') as [E|_].
        -- injection H as <-. simpl. rewrite Hid. now split.
        -- now apply (Hoth k' s'').
      * apply Hst'; rewrite obj_get_delete, obj_get_set.
        -- destruct (String.eqb_spec key k); [contradiction|].
           destruct (String.eqb_spec (indexId C q (inst s')) k);
             [contradiction | reflexivity].
        -- destruct (String.eqb_spec key new); [contradiction|].
           destruct (String.eqb_spec (indexId C q (inst s')) new);
             [contradiction | reflexivity].
Qed.

(** C2 (as amended).  An update batch is rekeyed: where no hook returns
    [false], an instance whose index id differs from its key in the
    batch is, after [commitUpdate], in the table under the new key, with
    [$id] set to it, and in the returned collection -- provided the new
    key is not a key of the batch, no other instance of the batch has
    the old or the new key as its index id, and the index id does not
    depend on [$id].  Create and insert batches are not rekeyed: their
    instances are stored under the keys of the batch. *)
Theorem commitUpdate_rekeys q (instances : Instances) st k s :
  obj_wf instances = true ->
  peaceful C q (reg st) ->
  (forall x i, indexId C q (setId x i) = indexId C q i) ->
  obj_get k instances = Some s ->
  indexId C q (inst s) <> k ->
  obj_has (indexId C q (inst s)) instances = false ->
  (forall k' s',
      obj_get k' instances = Some s' -> k' <> k ->
      indexId C q (inst s') <> indexId C q (inst s)
      /\ indexId C q (inst s') <> k) ->
  (obj_get (indexId C q (inst s))
           (data (snd (commitUpdate C q instances st)))
   = Some (setId (indexId C q (inst s)) (inst s))
   /\ In (setId (indexId C q (inst s)) (inst s))
         (fst (fst (commitUpdate C q instances st))))
  /\ (forall (records : Records) st' k' s',
        obj_wf records = true ->
        obj_get k' (fst (executeBeforeCreateHookOnModels C q
                           (hydrateMany C q records) (reg st')))
        = Some s' ->
        obj_get k' (data (snd (createMany C q records st'))) = Some (inst s')
        /\ obj_get k' (data (snd (insertMany C q records st')))
           = Some (inst s')).
Proof.
  intros WF P Hid Hk Hne Hnew Hoth. split.
  - unfold commitUpdate, commitUpdateOnRecords.
    destruct (updateIndexes_scan q k s Hid Hne (obj_keys instances)
                instances (data st)) as [H1 H2].
    + now apply keys_wf_NoDup.
    + now apply keys_wf_NoDup.
    + intros H. apply obj_has_true in H. rewrite H in Hnew. discriminate.
    + intros k' s' H N1 _. now apply (Hoth k' s').
    + left. split; [|split]; auto.
      * apply obj_has_true. unfold obj_has. now rewrite Hk.
      * unfold obj_has in Hnew.
        now destruct (obj_get (indexId C q (inst s)) instances).
    + fold (updateIndexes C q instances (data st)) in H1, H2.
      destruct (updateIndexes C q instances (data st)) as [batch t1].
      cbn [fst snd] in *.
      destruct (executeBeforeMutationHookOnModels_peaceful "beforeUpdate" q
                  batch (reg st) P) as [E _].
      fold (executeBeforeUpdateHookOnModels C) in E.
      change (reg (with_data t1 st)) with (reg st).
      destruct (executeBeforeUpdateHookOnModels C q batch (reg st))
        as [models r1].
      cbn [fst snd data] in *. subst models. split.
      * apply obj_get_spread_right.
        -- now rewrite obj_keys_unstage.
        -- now rewrite obj_get_unstage, H1.
      * apply (map__In batch _ _ H1).
  - intros records st' k' s' WFr H.
    assert (ND : NoDup (obj_keys (unstage
                 (fst (executeBeforeCreateHookOnModels C q
                         (hydrateMany C q records) (reg st')))))).
    { rewrite obj_keys_unstage. apply keys_wf_NoDup.
      apply executeBeforeMutationHookOnModels_wf.
      now apply hydrateMany_wf. }
    assert (G : obj_get k' (unstage
                 (fst (executeBeforeCreateHookOnModels C q
                         (hydrateMany C q records) (reg st'))))
                = Some (inst s'))
      by (now rewrite obj_get_unstage, H).
    split.
    + rewrite createMany_data. now apply obj_get_spread_right.
    + unfold insertMany, commitCreateOnRecords.
      destruct (executeBeforeCreateHookOnModels C q
                  (hydrateMany C q records) (reg st')) as [models r1].
      cbn [fst snd data] in *. now apply obj_get_spread_right.
Qed.

End BatchFacts.

(** ** The properties on the concrete store *)

Section Examples.

Import Example.

Lemma noHooks_peaceful c q : localHook c = localHook container ->
  peaceful c q noHooks.
Proof.
  intros E. split.
  - intros name hook m. rewrite E. discriminate.
  - intros name hs hook m. discriminate.
Qed.

Lemma noHooks_keepEmpty q : keepEmpty container q noHooks.
Proof. intros name _. split; intros; discriminate. Qed.

Lemma indexId_setId q x i :
  indexId container q (setId x i) = indexId container q i.
Proof.
  unfold indexId, setId. simpl.
  now rewrite obj_get_set_other by discriminate.
Qed.

(** C1, the claim as stated fails: the inserted record comes first and
    the updated record second, not the other way round; with a vetoing
    [beforeCreate] hook the result is shorter than the batch; and so it
    is when two updates give their records the same index id. *)
Lemma insertOrUpdate_order_counterexample :
  fst (insertOrUpdateMany container usersQuery upsertBatch store)
  = [user 3 "c"; user 1 "z"]
  /\ fst (insertOrUpdateMany container usersQuery upsertBatch store)
     <> [user 1 "z"; user 3 "c"]
  /\ List.length (fst (insertOrUpdateMany container usersQuery upsertBatch
                         {| data := users; reg := vetoOnly |})) = 1%nat
  /\ List.length upsertBatch = 2%nat
  /\ List.length (fst (insertOrUpdateMany container usersQuery
                         collidingBatch store)) = 1%nat
  /\ List.length collidingBatch = 2%nat.
Proof.
  split; [reflexivity|].
  split; [intros H; vm_compute in H; discriminate H|].
  repeat split; reflexivity.
Qed.

Lemma insertOrUpdateMany_inserted_then_updated_witness :
  fst (insertOrUpdateMany container usersQuery upsertBatch store)
  = [user 3 "c"; user 1 "z"]
  /\ List.length (fst (insertOrUpdateMany container usersQuery upsertBatch
                         store)) = List.length upsertBatch.
Proof.
  destruct (insertOrUpdateMany_inserted_then_updated container usersQuery
              upsertBatch store) as [H1 H2].
  - reflexivity.
  - reflexivity.
  - now apply noHooks_peaceful.
  - intros k record row [[= <- <-]|[[= <- <-]|[]]] Hrow.
    + injection Hrow as <-. reflexivity.
    + discriminate Hrow.
  - split; [rewrite H1; reflexivity | exact H2].
Defined.

(** C2, the claim as stated fails: after the update that changes the
    primary key of user [1] to [2], the table has the new key and still
    has the old key, and [get()] returns both records; and a create batch
    is stored under the keys of the batch, not under the index ids of its
    instances.  Besides, an update that a [beforeUpdate] hook vetoes
    leaves the table as it was, and of two updates that move user [1] to
    the key of user [2] and user [2] to the key [3], the second is
    lost. *)
Lemma update_keeps_old_key_counterexample :
  update container usersQuery (DataRecord [("id", VNum 2)])
         (ConditionValue (VNum 1)) noOptions
         {| root := [("users", [("1", user 1 "a")])]; wreg := noHooks |}
  = Returned (UpdatedItem None)
      {| root := [("users", [("1", user 1 "a"); ("2", moved)])];
         wreg := noHooks |}
  /\ obj_get "1" [("1", user 1 "a"); ("2", moved)] = Some (user 1 "a")
  /\ fst (fst (get container usersQuery
                 {| data := [("1", user 1 "a"); ("2", moved)];
                    reg := noHooks |}))
     = [user 1 "a"; moved]
  /\ data (snd (createMany container usersQuery
                  [("9", [("id", VNum 1); ("name", VStr "a")])] store))
     = [("9", user 1 "a")]
  /\ data (snd (updateById container usersQuery
                  (UpdateRecord [("id", VNum 2)]) (VNum 1)
                  {| data := [("1", user 1 "a")]; reg := vetoOnUpdate |}))
     = [("1", user 1 "a")]
  /\ data (snd (commitUpdate container usersQuery shiftBatch store))
     = [("1", user 1 "a"); ("2", moved)].
Proof. repeat split; reflexivity. Qed.

Lemma commitUpdate_rekeys_witness :
  obj_get "2"
    (data (snd (commitUpdate container usersQuery
                  [("1", fresh (merge container usersQuery (user 1 "a")
                                  [("id", VNum 2)]))]
                  {| data := [("1", user 1 "a")]; reg := noHooks |})))
  = Some moved.
Proof.
  destruct (commitUpdate_rekeys container usersQuery
              [("1", fresh (merge container usersQuery (user 1 "a")
                              [("id", VNum 2)]))]
              {| data := [("1", user 1 "a")]; reg := noHooks |}
              "1"
              (fresh (merge container usersQuery (user 1 "a")
                        [("id", VNum 2)]))) as [[H _] _].
  - reflexivity.
  - now apply noHooks_peaceful.
  - apply indexId_setId.
  - reflexivity.
  - discriminate.
  - reflexivity.
  - intros k' s' H N. apply obj_get_In in H.
    destruct H as [[= <- <-]|[]]. now elim N.
  - exact H.
Defined.

(** C3, the code departs from the claim.  With the global [beforeCreate]
    hooks [vetoing] then [passing] registered, inserting one record calls
    the first hook, which returns [false], and then still calls the
    second; the veto is dropped and the record is inserted. *)
Theorem veto_overruled_by_later_hook :
  map (fun c => option_map id (call_hook c))
      (calls (reg (snd (insertMany container usersQuery
                          [("3", [("id", VNum 3); ("name", VStr "c")])]
                          {| data := users; reg := vetoThenPass |}))))
  = [Some 1%N; Some 2%N]
  /\ fst (executeBeforeCreateHook container usersQuery (user 3 "c")
            vetoThenPass) = false
  /\ fst (insertMany container usersQuery
            [("3", [("id", VNum 3); ("name", VStr "c")])]
            {| data := users; reg := vetoThenPass |})
     = [user 3 "c"]
  /\ obj_get "3"
       (data (snd (insertMany container usersQuery
                     [("3", [("id", VNum 3); ("name", VStr "c")])]
                     {| data := users; reg := vetoThenPass |})))
     = Some (user 3 "c").
Proof. repeat split; reflexivity. Qed.

Lemma orWhere_full_scan_witness :
  existsb isOrWhere eitherId = true
  /\ fst (fst (get container (chain container "users" eitherId) store))
     = [user 1 "a"; user 2 "b"].
Proof.
  split; [reflexivity|].
  destruct (orWhere_full_scan container "users" eitherId store eq_refl)
    as [H _].
  apply (f_equal fst) in H. cbn [fst] in H. rewrite H. reflexivity.
Defined.

Lemma idFilter_intersection_witness :
  getIdsToLookup
    (finalizeIdFilter container
       (whereId container (whereId container usersQuery (VNum 1)) (VNum 2)))
    users = []
  /\ fst (fst (get container
                 (whereId container (whereId container usersQuery (VNum 1))
                    (VNum 2)) store)) = []
  /\ data (snd (get container
                  (whereId container (whereId container usersQuery (VNum 1))
                     (VNum 2)) store)) = users.
Proof.
  exact (proj2 (idFilter_intersection container) "users" store
           (noHooks_keepEmpty usersQuery)).
Defined.

Lemma deleteByCondition_partition_users :
  fst (deleteByCondition container usersQuery namedA store) = [user 1 "a"]
  /\ data (snd (deleteByCondition container usersQuery namedA store))
     = [("2", user 2 "b")].
Proof.
  destruct (deleteByCondition_partition container usersQuery namedA store
              eq_refl) as [H1 [H2 _]].
  rewrite H1, H2. split; reflexivity.
Qed.

(** C7, the code departs from the claim.  With the global [beforeDelete]
    hooks [vetoing] then [passing] registered, [delete(() => true)] calls
    the first hook on each user, which returns [false], and the second,
    which does not; the veto is dropped and both users are deleted and
    returned, the table being left empty. *)
Theorem delete_removes_vetoed_record :
  onModel vetoing (user 1 "a") "users" = true
  /\ fst (executeBeforeDeleteHook container usersQuery (user 1 "a")
            vetoThenPassOnDelete) = false
  /\ fst (deleteByCondition container usersQuery (fun _ => true)
            {| data := users; reg := vetoThenPassOnDelete |})
     = [user 1 "a"; user 2 "b"]
  /\ data (snd (deleteByCondition container usersQuery (fun _ => true)
                  {| data := users; reg := vetoThenPassOnDelete |}))
     = []
  /\ map seen
         (calls (reg (snd (deleteByCondition container usersQuery
                             (fun _ => true)
                             {| data := users;
                                reg := vetoThenPassOnDelete |}))))
     = [("beforeDelete", Some 1%N, user 1 "a");
        ("beforeDelete", Some 2%N, user 1 "a");
        ("beforeDelete", Some 1%N, user 2 "b");
        ("beforeDelete", Some 2%N, user 2 "b")]
  /\ delete container usersQuery (DeletePredicate (fun _ => true))
            {| root := [("users", users)]; wreg := vetoThenPassOnDelete |}
     = Returned (DeletedCollection [user 1 "a"; user 2 "b"])
         {| root := [("users", [])];
            wreg := reg (snd (deleteByCondition container usersQuery
                                (fun _ => true)
                                {| data := users;
                                   reg := vetoThenPassOnDelete |})) |}.
Proof. repeat split; reflexivity. Qed.


(** C9, the claim as stated fails: on a model with a composite primary
    key, [update] with a closure as data and the string condition ["1"]
    raises nothing; it updates the row of that key. *)
Lemma update_closure_by_id_counterexample :
  primaryKey compositeContainer (entity usersQuery)
  = PkComposite ["id"; "name"]
  /\ update compositeContainer usersQuery (DataClosure renameZ)
            (ConditionValue (VStr "1")) noOptions world
     = Returned (UpdatedItem (Some (user 1 "z")))
         {| root := [("users", [("1", user 1 "z"); ("2", user 2 "b")])];
            wreg := noHooks |}.
Proof. split; reflexivity. Qed.

Lemma update_invalid_arguments_witness :
  update compositeContainer usersQuery (DataClosure renameZ)
         (ConditionValue VNull) noOptions world
  = Thrown (Error missingWhere) world
  /\ update compositeContainer usersQuery (DataRecord [("name", VStr "z")])
            (ConditionValue (VNum 1)) noOptions world
     = Thrown (Error compositeKeyWhere) world.
Proof.
  destruct (update_invalid_arguments compositeContainer usersQuery noOptions
              world) as [H1 H2].
  split.
  - apply H1. reflexivity.
  - apply (H2 _ _ ["id"; "name"]); reflexivity.
Defined.



End Examples.

(** ** The hook registry: [Query.on] and [Query.off] *)

Section RegistryFacts.



Lemma obj_replace_replace (V : Type) k (v v' : V) (o : Obj V) :
  obj_replace k v' (obj_replace k v o) = obj_replace k v' o.
Proof.
  induction o as [|[k0 v0] o IH]; simpl; auto.
  destruct (k0 =? k)%string eqn:E; simpl; rewrite E; auto.
  now rewrite IH.
Qed.

Lemma obj_set_set (V : Type) k (v v' : V) (o : Obj V) :
  obj_has k o = true ->
  obj_set k v' (obj_set k v o) = obj_set k v' o.
Proof.
  intros H. unfold obj_set at 2. rewrite H.
  unfold obj_set, obj_has.
  rewrite obj_get_replace.
  unfold obj_has in H. destruct (obj_get k o) eqn:E; [|discriminate].
  rewrite String.eqb_refl. apply obj_replace_replace.
Qed.

Lemma with_hooks_same r : with_hooks (hooks r) r = r.
Proof. now destruct r. Qed.

Lemma spliceById_none i hs :
  (forall h, In h hs -> id h <> i) -> spliceById i hs = None.
Proof.
  induction hs as [|h hs IH]; simpl; auto.
  intros H. destruct (N.eqb_spec (id h) i) as [E|E].
  - elim (H h); auto.
  - rewrite IH; auto.
Qed.

Lemma spliceById_last i hs h :
  (forall h', In h' hs -> id h' <> i) -> id h = i ->
  spliceById i (hs ++ [h]) = Some hs.
Proof.
  intros H E. induction hs as [|h0 hs IH]; simpl.
  - now rewrite E, N.eqb_refl.
  - destruct (N.eqb_spec (id h0) i) as [E0|E0].
    + elim (H h0); simpl; auto.
    + rewrite IH; simpl; auto. intros h' Hin. apply H. now right.
Qed.

Lemma spliceById_incl i hs hs' :
  spliceById i hs = Some hs' -> incl hs' hs.
Proof.
  revert hs'. induction hs as [|h hs IH]; simpl; [discriminate|].
  intros hs'. destruct (id h =? i)%N.
  - intros [= <-]. now apply incl_tl, incl_refl.
  - destruct (spliceById i hs) as [l|]; [|discriminate].
    intros [= <-]. intros x [->|Hx]; [now left|].
    right. now apply (IH l).
Qed.

Lemma offIn_none i names (h : GlobalHooks) :
  (forall name hs x, obj_get name h = Some hs -> In x hs -> id x <> i) ->
  offIn i names h = (false, h).
Proof.
  intros H. induction names as [|name names IH]; simpl; auto.
  destruct (obj_get name h) as [hs|] eqn:E; auto.
  rewrite spliceById_none; auto. intros x. now apply (H name).
Qed.

Lemma offIn_found i names (h : GlobalHooks) name hs hs' :
  In name names ->
  obj_get name h = Some hs ->
  spliceById i hs = Some hs' ->
  (forall name' l x,
      name' <> name -> obj_get name' h = Some l -> In x l -> id x <> i) ->
  offIn i names h = (true, obj_set name hs' h).
Proof.
  intros Hin E S H. induction names as [|n names IH]; [now elim Hin|].
  simpl. destruct (String.eqb_spec n name) as [->|N].
  - now rewrite E, S.
  - destruct (obj_get n h) as [l|] eqn:El.
    + rewrite spliceById_none.
      * apply IH. destruct Hin as [->|]; [now elim N | auto].
      * intros x. now apply (H n l).
    + apply IH. destruct Hin as [->|]; [now elim N | auto].
Qed.

Lemma obj_has_set (V : Type) k (v : V) (o : Obj V) :
  In k (obj_keys (obj_set k v o)).
Proof.
  apply obj_has_true. unfold obj_has. now rewrite obj_get_set_same.
Qed.

Lemma idsHandedOut_on name cb o r :
  idsHandedOut r -> idsHandedOut (snd (on name cb o r)).
Proof.
  intros H n hs h. unfold on. cbn [snd hooks lastHookId].
  rewrite obj_get_set.
  destruct (String.eqb_spec name n) as [->|N].
  - intros [= <-] Hin. apply in_app_or in Hin.
    destruct Hin as [Hin|[<-|[]]].
    + destruct (obj_get n (hooks r)) as [l|] eqn:E; [|now elim Hin].
      specialize (H n l h E Hin). lia.
    + cbn [id]. lia.
  - intros E Hin. specialize (H n hs h E Hin). lia.
Qed.

Lemma idsHandedOut_clean name r :
  idsHandedOut r -> idsHandedOut (cleanGlobalHooksOn name r).
Proof.
  intros H n hs h. unfold cleanGlobalHooksOn.
  destruct (obj_get name (hooks r)) as [l|] eqn:E; [|apply H].
  cbn [with_hooks hooks lastHookId]. rewrite obj_get_set.
  destruct (String.eqb_spec name n) as [->|N].
  - intros [= <-] Hin. apply filter_In in Hin. now apply (H n l).
  - apply H.
Qed.

Lemma offIn_hooks i names (h : GlobalHooks) :
  forall n hs' x,
    obj_get n (snd (offIn i names h)) = Some hs' -> In x hs' ->
    exists hs, obj_get n h = Some hs /\ In x hs.
Proof.
  induction names as [|name names IH]; simpl; intros n hs' x; eauto.
  destruct (obj_get name h) as [hs|] eqn:E; [|apply IH].
  destruct (spliceById i hs) as [l|] eqn:S; [|apply IH].
  cbn [snd]. rewrite obj_get_set.
  destruct (String.eqb_spec name n) as [->|N].
  - intros [= <-] Hin. exists hs. split; auto.
    now apply (spliceById_incl i hs l).
  - eauto.
Qed.

Lemma idsHandedOut_off i r :
  idsHandedOut r -> idsHandedOut (snd (off i r)).
Proof.
  intros H n hs' x. unfold off.
  pose proof (offIn_hooks i (obj_keys (hooks r)) (hooks r) n hs' x) as P.
  destruct (offIn i (obj_keys (hooks r)) (hooks r)) as [b h].
  cbn [snd with_hooks hooks lastHookId] in *.
  intros E Hin. destruct (P E Hin) as [hs [E' Hin']].
  now apply (H n hs).
Qed.

(** [Query.on] hands out an id that no registered hook has, puts the new
    hook after the hooks registered for the event and leaves the other
    events alone; the ids of the registry stay ids handed out, under
    [on], under [off] and under the pruning of once-flagged hooks. *)
Theorem on_hands_out_fresh_id name cb o r :
  idsHandedOut r ->
  fst (on name cb o r) = (lastHookId r + 1)%N
  /\ (forall name' hs h,
        obj_get name' (hooks r) = Some hs -> In h hs ->
        id h <> fst (on name cb o r))
  /\ registered name (snd (on name cb o r))
     = registered name r ++ [mkHook (fst (on name cb o r)) cb o]
  /\ (forall name',
        name' <> name ->
        obj_get name' (hooks (snd (on name cb o r)))
        = obj_get name' (hooks r))
  /\ idsHandedOut (snd (on name cb o r))
  /\ (forall i, idsHandedOut (snd (off i r)))
  /\ (forall name', idsHandedOut (cleanGlobalHooksOn name' r)).
Proof.
  intros H. split; [reflexivity|]. split.
  { intros name' hs h E Hin. specialize (H name' hs h E Hin).
    cbn [on fst]. lia. }
  split.
  { unfold registered, on. cbn [snd hooks fst]. now rewrite obj_get_set_same. }
  split.
  { intros name' N. unfold on. cbn [snd hooks].
    apply obj_get_set_other. congruence. }
  split; [now apply idsHandedOut_on|].
  split; [intros i; now apply idsHandedOut_off|].
  intros name'. now apply idsHandedOut_clean.
Qed.

(** [Query.off] with the id that [Query.on] has just returned removes
    that hook again: it returns [true] and every event has the hooks it
    had before, in their order. *)
Theorem off_undoes_on name cb o r :
  idsHandedOut r ->
  fst (off (fst (on name cb o r)) (snd (on name cb o r))) = true
  /\ (forall name',
        registered name'
          (snd (off (fst (on name cb o r)) (snd (on name cb o r))))
        = registered name' r)
  /\ lastHookId (snd (off (fst (on name cb o r)) (snd (on name cb o r))))
     = (lastHookId r + 1)%N
  /\ calls (snd (off (fst (on name cb o r)) (snd (on name cb o r))))
     = calls r.
Proof.
  intros H.
  set (i := (lastHookId r + 1)%N).
  set (hs := registered name r).
  set (h1 := obj_set name (hs ++ [mkHook i cb o]) (hooks r)).
  assert (F : offIn i (obj_keys h1) h1 = (true, obj_set name hs h1)).
  { apply (offIn_found i (obj_keys h1) h1 name (hs ++ [mkHook i cb o]) hs).
    - apply obj_has_set.
    - apply obj_get_set_same.
    - apply spliceById_last; [|reflexivity].
      intros h' Hin. unfold hs, registered in Hin.
      destruct (obj_get name (hooks r)) as [l|] eqn:E; [|now elim Hin].
      specialize (H name l h' E Hin). unfold i. lia.
    - intros name' l x N E Hin. unfold h1 in E.
      rewrite obj_get_set_other in E by congruence.
      specialize (H name' l x E Hin). unfold i. lia. }
  unfold off, on. cbn [fst snd hooks].
  fold i. fold hs. unfold registered in hs. fold hs. fold h1. rewrite F.
  cbn [fst snd with_hooks hooks lastHookId calls].
  split; [reflexivity|]. split; [|split; reflexivity].
  intros name'. unfold registered, with_hooks. cbn [hooks].
  rewrite obj_get_set. destruct (String.eqb_spec name name') as [<-|N].
  - reflexivity.
  - unfold h1. now rewrite obj_get_set_other by congruence.
Qed.

(** [Query.off] with an id that no registered hook has returns [false]
    and leaves the registry as it was; such is every id above the last
    one handed out. *)
Theorem off_unknown_id i r :
  (forall name hs h,
      obj_get name (hooks r) = Some hs -> In h hs -> id h <> i) ->
  off i r = (false, r).
Proof.
  intros H. unfold off. rewrite offIn_none by exact H.
  now rewrite with_hooks_same.
Qed.

End RegistryFacts.

(** ** The query builder and the two id filters *)

Section BuilderFacts.

Variable C : Container.


Lemma applyCall_entity q c : entity (applyCall C q c) = entity q.
Proof.
  destruct c; simpl; auto;
    unfold whereId, whereIdIn, whereFk, where_, setIdFilter,
      setJoinedIdFilter;
    repeat match goal with
           | |- context [if ?b then _ else _] => destruct b
           | |- context [match ?x with Some _ => _ | None => _ end] =>
               destruct x
           end; reflexivity.
Qed.

Lemma where_cancelled q f v :
  cancelIdFilter q = true ->
  where_ C q f v = push_where {| field := f; value := v; boolean := And |} q.
Proof.
  intros H. unfold where_, isIdfilterable. now rewrite H, andb_false_r.
Qed.

Lemma setJoinedIdFilter_fields q vs :
  idFilter (setJoinedIdFilter q vs) = idFilter q
  /\ cancelIdFilter (setJoinedIdFilter q vs) = cancelIdFilter q
  /\ wheres (setJoinedIdFilter q vs) = wheres q
  /\ entity (setJoinedIdFilter q vs) = entity q.
Proof.
  unfold setJoinedIdFilter. destruct (joinedIdFilter q); auto.
Qed.

Lemma applyCall_cancelled q c :
  cancelIdFilter q = true ->
  idFilter (applyCall C q c) = idFilter q
  /\ cancelIdFilter (applyCall C q c) = true.
Proof.
  intros H.
  assert (W : forall f v,
             idFilter (where_ C q f v) = idFilter q
             /\ cancelIdFilter (where_ C q f v) = true).
  { intros f v. rewrite where_cancelled by exact H. split; [reflexivity|].
    exact H. }
  destruct c as [f v|f v|v|vs|f v|f d|n|n]; simpl.
  - apply W.
  - split; reflexivity.
  - apply W.
  - apply W.
  - unfold whereFk. destruct (isPrimaryKey C q (FName f)).
    + destruct (setJoinedIdFilter_fields q (valuesOf v)) as [E1 [E2 _]].
      now rewrite E1, E2.
    + apply W.
  - split; [reflexivity | exact H].
  - split; [reflexivity | exact H].
  - split; [reflexivity | exact H].
Qed.

(** An [orWhere] switches the id index off for good: whatever builder
    calls follow it, [idFilter] stays what it was when [orWhere] was
    called and [cancelIdFilter] stays set. *)
Theorem orWhere_freezes_idFilter q f v cs :
  idFilter (build C (orWhere q f v) cs) = idFilter q
  /\ cancelIdFilter (build C (orWhere q f v) cs) = true.
Proof.
  assert (G : forall q0,
             cancelIdFilter q0 = true ->
             idFilter (build C q0 cs) = idFilter q0
             /\ cancelIdFilter (build C q0 cs) = true).
  { unfold build. induction cs as [|c cs IH]; intros q0 H; simpl; auto.
    destruct (applyCall_cancelled q0 c H) as [E1 E2].
    destruct (IH _ E2) as [E3 E4]. now rewrite E3, E1. }
  apply (G (orWhere q f v)). reflexivity.
Qed.

(** *** [whereFk] and the joined id filter *)

Lemma whereFk_joined q pk v :
  primaryKey C (entity q) = PkField pk ->
  exists ids,
    joinedIdFilter (whereFk C q pk v) = Some ids
    /\ forall x,
        In x ids <->
        In x (valuesOf v)
        /\ match joinedIdFilter q with
           | Some current => In x current
           | None => True
           end.
Proof.
  intros P. unfold whereFk, isPrimaryKey. rewrite P, String.eqb_refl.
  unfold setJoinedIdFilter. destruct (joinedIdFilter q) as [current|]; simpl.
  - eexists. split; [reflexivity|]. intros x.
    rewrite Set_of_In, filter_In, includes_In. tauto.
  - eexists. split; [reflexivity|]. intros x.
    rewrite Set_of_In. tauto.
Qed.

Lemma whereFk_key_fields q pk v :
  primaryKey C (entity q) = PkField pk ->
  idFilter (whereFk C q pk v) = idFilter q
  /\ cancelIdFilter (whereFk C q pk v) = cancelIdFilter q
  /\ wheres (whereFk C q pk v) = wheres q
  /\ entity (whereFk C q pk v) = entity q.
Proof.
  intros P. unfold whereFk, isPrimaryKey. rewrite P, String.eqb_refl.
  apply setJoinedIdFilter_fields.
Qed.

Lemma whereFk_all pk vs : forall q,
  primaryKey C (entity q) = PkField pk ->
  vs <> [] ->
  exists ids,
    joinedIdFilter (fold_left (fun q' v' => whereFk C q' pk v') vs q)
    = Some ids
    /\ forall x,
        In x ids <->
        Forall (fun v' => In x (valuesOf v')) vs
        /\ match joinedIdFilter q with
           | Some current => In x current
           | None => True
           end.
Proof.
  induction vs as [|v vs IH]; intros q P Hne; [contradiction|].
  simpl. destruct (whereFk_joined q pk v P) as [ids [E Hids]].
  destruct vs as [|v' vs].
  - simpl. exists ids. split; auto. intros x. rewrite Hids. split.
    + intros [H1 H2]. split; auto.
    + intros [H1 H2]. inversion H1; subst. tauto.
  - destruct (IH (whereFk C q pk v)) as [ids' [E' Hids']].
    + destruct (whereFk_key_fields q pk v P) as [_ [_ [_ Ee]]].
      now rewrite Ee.
    + discriminate.
    + exists ids'. split; auto. intros x. rewrite Hids', E, Hids. split.
      * intros [H1 [H2 H3]]. split; auto.
      * intros [H1 H2]. inversion H1; subst. tauto.
Qed.

Lemma call_joined q c : joinedIdFilter (call C q c) = joinedIdFilter q.
Proof.
  destruct c; unfold call, orWhere, whereId, whereIdIn, where_, setIdFilter;
    try destruct (isIdfilterable C q _); simpl; auto;
    destruct (idFilter q); reflexivity.
Qed.

Lemma call_cancel_mono q c :
  cancelIdFilter q = true -> cancelIdFilter (call C q c) = true.
Proof.
  intros H. destruct c; unfold call, whereId, whereIdIn;
    try (rewrite where_cancelled by exact H); auto.
Qed.

Lemma chain_cancelled cs : forall q,
  cancelIdFilter q = true \/ existsb isOrWhere cs = true ->
  cancelIdFilter (fold_left (call C) cs q) = true.
Proof.
  induction cs as [|c cs IH]; intros q [H|H]; simpl in *; auto;
    try discriminate.
  - apply IH. left. now apply call_cancel_mono.
  - apply IH. destruct c; simpl in *; auto.
Qed.

Lemma chain_joined cs : forall q,
  joinedIdFilter (fold_left (call C) cs q) = joinedIdFilter q.
Proof.
  induction cs as [|c cs IH]; intros q; simpl; auto.
  now rewrite IH, call_joined.
Qed.

(** [whereFk] on the primary key narrows [joinedIdFilter] to the ids that
    every call gave, writes no where clause and leaves [idFilter] alone;
    and unlike [idFilter] the joined filter is not cancelled: after a
    where chain with an [orWhere], the ids looked up are exactly those
    of the joined filter. *)
Theorem whereFk_narrows_joinedIdFilter q pk :
  primaryKey C (entity q) = PkField pk ->
  (forall v,
      wheres (whereFk C q pk v) = wheres q
      /\ idFilter (whereFk C q pk v) = idFilter q)
  /\ (forall v vs,
        joinedIdFilter q = None ->
        exists ids,
          joinedIdFilter
            (fold_left (fun q' v' => whereFk C q' pk v') (v :: vs) q)
          = Some ids
          /\ forall x,
              In x ids <->
              Forall (fun v' => In x (valuesOf v')) (v :: vs))
  /\ (forall v cs (t : Table),
        existsb isOrWhere cs = true ->
        Some (getIdsToLookup
                (finalizeIdFilter C (fold_left (call C) cs (whereFk C q pk v)))
                t)
        = joinedIdFilter (whereFk C q pk v)).
Proof.
  intros P. split; [|split].
  - intros v. destruct (whereFk_key_fields q pk v P) as [E1 [_ [E2 _]]].
    auto.
  - intros v vs J.
    destruct (whereFk_all pk (v :: vs) q P) as [ids [E H]]; [discriminate|].
    exists ids. split; auto. intros x. rewrite H, J. tauto.
  - intros v cs t Hor.
    destruct (whereFk_joined q pk v P) as [j [Ej _]].
    assert (Hc : cancelIdFilter
                   (fold_left (call C) cs (whereFk C q pk v)) = true)
      by (apply chain_cancelled; now right).
    assert (Hj : joinedIdFilter
                   (fold_left (call C) cs (whereFk C q pk v)) = Some j)
      by now rewrite chain_joined.
    rewrite Ej. f_equal.
    rewrite (finalizeIdFilter_cancelled C _ Hc).
    generalize dependent (fold_left (call C) cs (whereFk C q pk v)).
    intros q1 _ Hj. unfold getIdsToLookup.
    destruct (idFilter q1) eqn:Ei;
      cbn [idFilter joinedIdFilter with_idFilter push_where];
      rewrite ?Ei; now rewrite Hj.
Qed.

(** *** No id is looked up twice *)





End BuilderFacts.

(** ** Hook execution: the after stage, the model hooks, the retrieve hooks *)

Section StageFacts.

Variable C : Container.

Lemma fold_keys_own (V S : Type) (F : S -> V -> S) (rest : Obj V) :
  forall (done : Obj V) (a : S),
    NoDup (obj_keys (done ++ rest)) ->
    fold_left (fun acc k => match obj_get k (done ++ rest) with
                            | Some v => F acc v
                            | None => acc
                            end) (obj_keys rest) a
    = fold_left (fun acc e => F acc (snd e)) rest a.
Proof.
  induction rest as [|[k v] rest IH]; intros done a ND; simpl; auto.
  rewrite (obj_get_NoDup _ k v (done ++ (k, v) :: rest) ND)
    by (apply in_or_app; right; now left).
  specialize (IH (done ++ [(k, v)]) (F a v)).
  rewrite <- app_assoc in IH. simpl in IH. now apply IH.
Qed.

Lemma notOnce_notOnce hs : notOnce (notOnce hs) = notOnce hs.
Proof.
  unfold notOnce. induction hs as [|h hs IH]; simpl; auto.
  destruct (once h) eqn:E; simpl; auto. now rewrite E, IH.
Qed.

Lemma registered_clean n name r :
  registered name (cleanGlobalHooksOn n r)
  = if (n =? name)%string then notOnce (registered name r)
    else registered name r.
Proof.
  unfold registered. rewrite cleanGlobalHooksOn_get.
  destruct (obj_get n (hooks r)) as [hs|] eqn:E.
  - destruct (String.eqb_spec n name) as [<-|N]; auto. now rewrite E.
  - destruct (String.eqb_spec n name) as [<-|N]; auto. now rewrite E.
Qed.

Lemma registered_called_all name n hs m r :
  registered name (called_all n hs m r) = registered name r.
Proof. unfold registered. now rewrite called_all_hooks. Qed.

(** The after stage on one model. *)
Lemma executeAfterMutationHook_calls name q m r :
  calls (executeAfterMutationHook C name q m r)
  = calls r ++ afterCalls C name q (registered name r) m
  /\ registered name (executeAfterMutationHook C name q m r)
     = notOnce (registered name r).
Proof.
  unfold executeAfterMutationHook, executeGlobalAfterMutationHook,
    executeGlobalAfterMutationHooks, executeLocalAfterMutationHook,
    afterCalls.
  set (r1 := match localHook C (entity q) name with
             | Some _ => called name None m r
             | None => r
             end).
  assert (H1 : hooks r1 = hooks r)
    by (unfold r1; destruct (localHook C (entity q) name); reflexivity).
  assert (C1 : calls r1 = calls r ++ match localHook C (entity q) name with
                                     | Some _ => [mkCall name None m]
                                     | None => []
                                     end).
  { unfold r1. destruct (localHook C (entity q) name); simpl; auto.
    now rewrite app_nil_r. }
  assert (R1 : registered name r1 = registered name r)
    by (unfold registered; now rewrite H1).
  destruct (obj_get name (hooks r1)) as [hs|] eqn:E.
  - rewrite called_all_calls, cleanGlobalHooksOn_calls, C1,
      registered_called_all, registered_clean, String.eqb_refl, R1.
    rewrite <- R1. unfold registered at 1. rewrite E.
    rewrite <- app_assoc. split; reflexivity.
  - cbn [called_all fold_left]. rewrite C1, <- R1. unfold registered.
    rewrite E. simpl. now rewrite app_nil_r.
Qed.

Lemma after_fold_pruned name q (rest : Instances) : forall r,
  notOnce (registered name r) = registered name r ->
  calls (fold_left (fun r e => executeAfterMutationHook C name q
                                 (inst (snd e)) r) rest r)
  = calls r
    ++ flat_map (fun e => afterCalls C name q (registered name r)
                            (inst (snd e))) rest.
Proof.
  induction rest as [|e rest IH]; intros r H; simpl.
  - now rewrite app_nil_r.
  - destruct (executeAfterMutationHook_calls name q (inst (snd e)) r)
      as [E1 E2].
    rewrite IH by (rewrite E2; apply notOnce_notOnce).
    rewrite E1, E2, H, <- app_assoc. reflexivity.
Qed.

(** The after stage of a batch calls, for every model in the order of
    the batch, the hook of the model class and then every registered
    global hook in registration order; the once-flagged hooks are called
    for the first model only. *)
Theorem after_hooks_reach_every_model name q (models : Instances) r :
  obj_wf models = true ->
  callsSince r (executeAfterMutationHookOnModels C name q models r)
  = match models with
    | [] => []
    | e :: rest =>
        afterCalls C name q (registered name r) (inst (snd e))
        ++ flat_map (fun e' => afterCalls C name q
                                 (notOnce (registered name r))
                                 (inst (snd e'))) rest
    end.
Proof.
  intros Wf. apply callsSince_app.
  unfold executeAfterMutationHookOnModels.
  pose proof (fold_keys_own _ _
                (fun r model =>
                   executeAfterMutationHook C name q (inst model) r)
                models [] r (keys_wf_NoDup _ Wf)) as F.
  cbn [app] in F. rewrite F. clear F.
  destruct models as [|e rest]; simpl.
  - now rewrite app_nil_r.
  - destruct (executeAfterMutationHook_calls name q (inst (snd e)) r)
      as [E1 E2].
    rewrite after_fold_pruned by (rewrite E2; apply notOnce_notOnce).
    rewrite E1, E2, <- app_assoc. reflexivity.
Qed.

(** *** A veto of the model hook *)

Lemma local_veto_step name q hook k (s : Staged) keys :
  localHook C (entity q) name = Some hook ->
  onModel hook (inst s) (entity q) = true ->
  forall (models : Instances) r,
    In k keys ->
    obj_get k models = Some s ->
    obj_get k (fst (fold_left (beforeMutationStep C name q) keys
                      (models, r))) = None.
Proof.
  intros L V. induction keys as [|i keys IH]; intros models r Hin E;
    [now elim Hin|].
  cbn [fold_left]. destruct (String.eqb_spec i k) as [->|N].
  - assert (S : beforeMutationStep C name q (models, r) k
                = (obj_delete k models, called name None (inst s) r)).
    { unfold beforeMutationStep. rewrite E.
      unfold executeBeforeMutationHook, executeLocalBeforeMutationHook.
      now rewrite L, V. }
    rewrite S.
    destruct (beforeMutation_fold C name q keys (obj_delete k models)
                (called name None (inst s) r)) as [_ G].
    destruct (G k) as [G1|G1]; [exact G1|].
    rewrite G1, obj_get_delete. now rewrite String.eqb_refl.
  - destruct (beforeMutationStep C name q (models, r) i) as [models' r']
      eqn:S.
    apply IH.
    + destruct Hin as [->|]; [now elim N | auto].
    + unfold beforeMutationStep in S.
      destruct (obj_get i models) as [model|]; [|now injection S as <- _].
      destruct (executeBeforeMutationHook C name q (inst model) r)
        as [veto r0].
      destruct veto; injection S as <- _; auto.
      rewrite obj_get_delete.
      destruct (String.eqb_spec i k); [contradiction | auto].
Qed.

Lemma local_veto_excluded name q hook (models : Instances) r k s :
  localHook C (entity q) name = Some hook ->
  obj_get k models = Some s ->
  onModel hook (inst s) (entity q) = true ->
  obj_get k (fst (executeBeforeMutationHookOnModels C name q models r))
  = None.
Proof.
  intros L E V. unfold executeBeforeMutationHookOnModels.
  apply (local_veto_step name q hook k s); auto.
  apply obj_has_true. unfold obj_has. now rewrite E.
Qed.

(** A record whose instance the [beforeCreate] hook of the model class
    vetoes is taken out of the batch, whatever the global hooks are, and
    an insert does not store it: its key keeps the row that the table
    had. *)
Theorem model_hook_veto_excludes q hook (records : Records) st k record :
  localHook C (entity q) "beforeCreate" = Some hook ->
  obj_wf (data st) = true ->
  obj_wf records = true ->
  obj_get k records = Some record ->
  onModel hook (fst (hydrate C q (Some record) None)) (entity q) = true ->
  obj_get k (fst (executeBeforeCreateHookOnModels C q
                    (hydrateMany C q records) (reg st))) = None
  /\ obj_get k (data (snd (insertMany C q records st)))
     = obj_get k (data st).
Proof.
  intros L Wt Wr E V.
  assert (G : obj_get k (fst (executeBeforeCreateHookOnModels C q
                                (hydrateMany C q records) (reg st)))
              = None).
  { apply (local_veto_excluded "beforeCreate" q hook _ _ k
             (fresh (fst (hydrate C q (Some record) None)))); auto.
    rewrite (hydrateMany_map C q records Wr).
    rewrite (obj_get_map _ _
               (fun r => fresh (fst (hydrate C q (Some r) None)))).
    now rewrite E. }
  split; [exact G|].
  unfold insertMany, commitCreateOnRecords.
  pose proof (executeBeforeMutationHookOnModels_wf C "beforeCreate" q
                (hydrateMany C q records) (reg st)
                (hydrateMany_wf C q records Wr)) as Wm.
  unfold executeBeforeCreateHookOnModels in *.
  destruct (executeBeforeMutationHookOnModels C "beforeCreate" q
              (hydrateMany C q records) (reg st)) as [models1 r1].
  cbn [fst snd data] in *.
  rewrite obj_get_spread.
  - now rewrite obj_get_unstage, G.
  - now apply keys_wf_NoDup.
  - rewrite obj_keys_unstage. now apply keys_wf_NoDup.
Qed.

(** The before stage on one model calls the hook of the model class
    first and then global hooks of the event, which are the first
    registered ones in registration order; when the hook of the model
    class vetoes, the stage vetoes, no global hook is called and the
    registered hooks stay as they are, the once-flagged ones included. *)
Theorem before_hooks_order name q m r :
  exists seen rest,
    registered name r = seen ++ rest
    /\ callsSince r (snd (executeBeforeMutationHook C name q m r))
       = match localHook C (entity q) name with
         | Some _ => [mkCall name None m]
         | None => []
         end ++ map (fun h => mkCall name (Some h) m) seen
    /\ (fst (executeLocalBeforeMutationHook C name q m r) = true ->
        seen = []
        /\ fst (executeBeforeMutationHook C name q m r) = true
        /\ hooks (snd (executeBeforeMutationHook C name q m r)) = hooks r).
Proof.
  unfold executeBeforeMutationHook, executeLocalBeforeMutationHook.
  destruct (localHook C (entity q) name) as [hook|].
  - destruct (onModel hook m (entity q)) eqn:V.
    + exists [], (registered name r). split; [reflexivity|]. split.
      * apply callsSince_app. reflexivity.
      * intros _. repeat split.
    + destruct (executeGlobalBeforeMutationHook_calls name q m
                  (called name None m r)) as [seen [Ec [[rest Er] _]]].
      destruct (executeGlobalBeforeMutationHook name q m
                  (called name None m r)) as [veto r2].
      cbn [snd] in Ec. exists seen, rest. split; [exact Er|]. split.
      * apply callsSince_app.
        replace (snd (if veto then (true, r2) else (false, r2))) with r2
          by now destruct veto.
        rewrite Ec. cbn [called calls]. now rewrite <- app_assoc.
      * cbn [fst]. discriminate.
  - destruct (executeGlobalBeforeMutationHook_calls name q m r)
      as [seen [Ec [[rest Er] _]]].
    destruct (executeGlobalBeforeMutationHook name q m r) as [veto r2].
    cbn [snd] in Ec. exists seen, rest. split; [exact Er|]. split.
    + apply callsSince_app.
      replace (snd (if veto then (true, r2) else (false, r2))) with r2
        by now destruct veto.
      exact Ec.
    + cbn [fst]. discriminate.
Qed.

(** *** Retrieve hooks *)

Lemma executeRetrieveHook_registry name q models r :
  snd (executeRetrieveHook C name q models r) = cleanGlobalHooksOn name r.
Proof.
  unfold executeRetrieveHook, executeGlobalRetrieveHook, cleanGlobalHooksOn.
  now destruct (obj_get name (hooks r)).
Qed.

Lemma get_registry q st :
  reg (snd (get C q st))
  = cleanGlobalHooksOn "afterLimit"
      (cleanGlobalHooksOn "afterOrderBy"
         (cleanGlobalHooksOn "afterWhere"
            (cleanGlobalHooksOn "beforeSelect" (reg st)))).
Proof.
  unfold get, select, records.
  destruct (fold_left (fetch C (finalizeIdFilter C q))
              (getIdsToLookup (finalizeIdFilter C q) (data st))
              ([], data st)) as [found t].
  cbn [with_data reg].
  destruct (executeRetrieveHook C "beforeSelect" (finalizeIdFilter C q)
              found (reg st)) as [r1 g1] eqn:E1.
  apply (f_equal snd) in E1.
  rewrite executeRetrieveHook_registry in E1. cbn [snd] in E1.
  destruct (executeRetrieveHook C "afterWhere" (finalizeIdFilter C q)
              (filterWhere C (finalizeIdFilter C q) r1) g1)
    as [r3 g3] eqn:E3.
  apply (f_equal snd) in E3.
  rewrite executeRetrieveHook_registry in E3. cbn [snd] in E3.
  destruct (executeRetrieveHook C "afterOrderBy" (finalizeIdFilter C q)
              (filterOrderBy (finalizeIdFilter C q) r3) g3)
    as [r5 g5] eqn:E5.
  apply (f_equal snd) in E5.
  rewrite executeRetrieveHook_registry in E5. cbn [snd] in E5.
  destruct (executeRetrieveHook C "afterLimit" (finalizeIdFilter C q)
              (filterLimit (finalizeIdFilter C q) r5) g5)
    as [r7 g7] eqn:E7.
  apply (f_equal snd) in E7.
  rewrite executeRetrieveHook_registry in E7. cbn [snd] in E7.
  cbn [snd with_reg reg]. now subst.
Qed.

(** One [get()] uses up the once-flagged retrieve hooks: afterwards the
    four retrieve events have their other hooks only, in their order,
    and every other event has the hooks it had; no hook id is handed
    out and no mutation hook is called. *)
Theorem get_prunes_once_retrieve_hooks q st :
  Forall (fun name => noOnce name (reg (snd (get C q st)))) retrieveEvents
  /\ (forall name,
        registered name (reg (snd (get C q st)))
        = if existsb (String.eqb name) retrieveEvents
          then notOnce (registered name (reg st))
          else registered name (reg st))
  /\ lastHookId (reg (snd (get C q st))) = lastHookId (reg st)
  /\ calls (reg (snd (get C q st))) = calls (reg st).
Proof.
  assert (R : forall name,
             registered name (reg (snd (get C q st)))
             = if existsb (String.eqb name) retrieveEvents
               then notOnce (registered name (reg st))
               else registered name (reg st)).
  { intros name. rewrite get_registry, !registered_clean.
    unfold retrieveEvents. cbn [existsb].
    rewrite (String.eqb_sym name "beforeSelect"),
      (String.eqb_sym name "afterWhere"),
      (String.eqb_sym name "afterOrderBy"),
      (String.eqb_sym name "afterLimit").
    destruct (String.eqb_spec "afterLimit" name) as [<-|N1];
      [reflexivity|].
    destruct (String.eqb_spec "afterOrderBy" name) as [<-|N2];
      [reflexivity|].
    destruct (String.eqb_spec "afterWhere" name) as [<-|N3];
      [reflexivity|].
    destruct (String.eqb_spec "beforeSelect" name) as [<-|N4];
      reflexivity. }
  split; [|split; [exact R|]].
  - apply Forall_forall. intros name Hin hs hook E Hh.
    pose proof (R name) as Rn. unfold registered in Rn at 1.
    rewrite E in Rn.
    replace (existsb (String.eqb name) retrieveEvents) with true in Rn.
    + rewrite Rn in Hh. apply filter_In in Hh.
      destruct Hh as [_ Hh]. now apply negb_true_iff in Hh.
    + symmetry. apply existsb_exists. exists name. split; auto.
      apply String.eqb_refl.
  - rewrite get_registry. unfold cleanGlobalHooksOn.
    repeat match goal with
           | |- context [match obj_get ?n ?h with _ => _ end] =>
               destruct (obj_get n h)
           end; split; reflexivity.
Qed.

End StageFacts.

(** ** Rows of the table under insert and update *)

Section RowFacts.

Variable C : Container.




(** *** Updates that match nothing *)

Lemma spread_nil_r (V : Type) (a : Obj V) :
  obj_wf a = true -> spread a [] = a.
Proof.
  intros W. rewrite spread_wf; simpl; rewrite app_nil_r; auto.
Qed.

Lemma st_eta st : {| data := data st; reg := reg st |} = st.
Proof. now destruct st. Qed.

Lemma commitUpdate_nil q st :
  obj_wf (data st) = true -> commitUpdate C q [] st = ([], [], st).
Proof.
  intros W. unfold commitUpdate, commitUpdateOnRecords, updateIndexes,
    executeBeforeUpdateHookOnModels, executeBeforeMutationHookOnModels,
    executeAfterUpdateHookOnModels, executeAfterMutationHookOnModels.
  cbn [obj_keys map fold_left with_data data reg unstage map_ flat_map].
  rewrite (spread_nil_r _ (data st) W). now rewrite st_eta.
Qed.

Lemma combine_absent q (records : Records) (t : Table) :
  (forall k, In k (obj_keys records) -> obj_get k t = None) ->
  combine C q records t = [].
Proof.
  unfold combine. induction (obj_keys records) as [|k keys IH];
    intros H; simpl; auto.
  unfold combined at 2. rewrite (H k) by now left.
  apply IH. intros k' Hk. apply H. now right.
Qed.

(** An update that matches no row changes nothing and returns nothing:
    [updateMany] of ids that the table does not have (an update never
    inserts), [updateByCondition] with a condition that no row
    satisfies, and [updateById] of an id without a row.  No hook is
    called. *)
Theorem update_without_match_is_noop q st :
  obj_wf (data st) = true ->
  (forall records : Records,
      (forall k, In k (obj_keys records) -> obj_get k (data st) = None) ->
      updateMany C q records st = ([], st))
  /\ (forall d condition,
        (forall k row, obj_get k (data st) = Some row ->
                       condition row = false) ->
        updateByCondition C q d condition st = ([], st))
  /\ (forall d i,
        obj_get (toString i) (data st) = None ->
        updateById C q d i st = (None, st)).
Proof.
  intros W. split; [|split].
  - intros records H. unfold updateMany.
    rewrite (combine_absent q records (data st) H).
    now rewrite (commitUpdate_nil q st W).
  - intros d condition H. unfold updateByCondition.
    assert (F : forall keys,
               fold_left
                 (fun (acc : Instances * Table) key =>
                    let (instances, t) := acc in
                    match obj_get key t with
                    | Some instance =>
                        if condition instance then
                          let (staged, t') :=
                            stage d key (processUpdate C q d instance) t in
                          (obj_set key staged instances, t')
                        else acc
                    | None => acc
                    end) keys ([], data st) = ([], data st)).
    { induction keys as [|k keys IH]; simpl; auto.
      destruct (obj_get k (data st)) as [row|] eqn:E; auto.
      now rewrite (H k row E). }
    rewrite F.
    replace (with_data (data st) st) with st
      by (unfold with_data; now rewrite st_eta).
    now rewrite (commitUpdate_nil q st W).
  - intros d i E. unfold updateById. now rewrite E.
Qed.

(** *** The row that [updateById] writes *)




End RowFacts.

(** ** Deleting rows *)

Section RemovalFacts.

Variable C : Container.

Lemma vetoedKeys_peaceful q condition (rows : Table) : forall r,
  peaceful C q r -> vetoedKeys C q condition rows r = [].
Proof.
  induction rows as [|[k model] rows IH]; intros r P; simpl; auto.
  destruct (condition model); auto.
  unfold executeBeforeDeleteHook.
  destruct (executeBeforeMutationHook_peaceful C "beforeDelete" q model r P)
    as [V P1].
  destruct (executeBeforeMutationHook C "beforeDelete" q model r)
    as [veto r1].
  cbn [fst snd] in *. subst veto. apply IH.
  now apply executeAfterMutationHook_peaceful.
Qed.


Lemma deleteByCondition_peaceful q condition st :
  obj_wf (data st) = true ->
  peaceful C q (reg st) ->
  data (snd (deleteByCondition C q condition st))
  = filter (fun e => negb (condition (snd e))) (data st)
  /\ fst (deleteByCondition C q condition st)
     = map snd (filter (fun e => condition (snd e)) (data st)).
Proof.
  intros W P.
  destruct (deleteByCondition_partition C q condition st W) as [D [R _]].
  rewrite D, R, (vetoedKeys_peaceful q condition (data st) (reg st) P).
  split.
  - apply filter_ext. intros e. cbn [isVetoed existsb].
    now rewrite orb_false_r.
  - f_equal. apply filter_ext. intros e. cbn [isVetoed existsb negb].
    now rewrite andb_true_r.
Qed.


Lemma filter_none (A : Type) (l : list A) : filter (fun _ => false) l = [].
Proof. induction l; simpl; auto. Qed.

Lemma filter_every (A : Type) (l : list A) : filter (fun _ => true) l = l.
Proof. induction l; simpl; congruence. Qed.

Lemma filter_map_snd (V : Type) (p : V -> bool) (o : Obj V) :
  map snd (filter (fun e => p (snd e)) o) = filter p (map snd o).
Proof.
  induction o as [|[k v] o IH]; simpl; auto.
  destruct (p v); simpl; congruence.
Qed.

(** When no hook vetoes, [deleteAll] on a base entity returns every row
    in the order of the table and leaves the table empty; on a derived
    entity it returns and removes the rows that are instances of the
    queried model, and the other rows of the shared table stay, in their
    order. *)
Theorem deleteAll_removes_instances q st :
  obj_wf (data st) = true ->
  peaceful C q (reg st) ->
  (appliedOnBase C q = true ->
   fst (deleteAll C q st) = obj_values (data st)
   /\ data (snd (deleteAll C q st)) = [])
  /\ (appliedOnBase C q = false ->
      fst (deleteAll C q st)
      = filter (fun row => instanceOf C row (entity q))
               (obj_values (data st))
      /\ data (snd (deleteAll C q st))
         = filter (fun e => negb (instanceOf C (snd e) (entity q)))
                  (data st)).
Proof.
  intros W P. unfold deleteAll. split; intros B; rewrite B.
  - destruct (deleteByCondition_peaceful q (fun _ => true) st W P)
      as [D R].
    rewrite D, R. cbn [negb]. now rewrite filter_none, filter_every.
  - destruct (deleteByCondition_peaceful q
                (fun model => instanceOf C model (entity q)) st W P)
      as [D R].
    rewrite D, R. split; auto.
    apply (filter_map_snd _ (fun row => instanceOf C row (entity q))).
Qed.

End RemovalFacts.

(** ** Reading the table *)

Section ReadFacts.

Variable C : Container.






Lemma fetch_rows q (rest : Table) :
  forall (done : Table) (found : Collection),
    NoDup (obj_keys (done ++ rest)) ->
    (forall k row, obj_get k (done ++ rest) = Some row ->
                   isModel row = true) ->
    fold_left (fetch C q) (map VStr (obj_keys rest)) (found, done ++ rest)
    = (found ++ filter (fun row => appliedOnBase C q
                                   || instanceOf C row (entity q))
                       (obj_values rest),
       done ++ rest).
Proof.
  induction rest as [|[k row] rest IH]; intros done found ND M;
    cbn [obj_keys obj_values map fold_left fst snd filter].
  - now rewrite !app_nil_r.
  - assert (E : obj_get k (done ++ (k, row) :: rest) = Some row).
    { apply obj_get_NoDup; auto. apply in_or_app. right. now left. }
    assert (S : fetch C q (found, done ++ (k, row) :: rest) (VStr k)
                = (if appliedOnBase C q || instanceOf C row (entity q)
                   then found ++ [row] else found,
                   done ++ (k, row) :: rest)).
    { unfold fetch. cbn [toString]. rewrite E, (M k row E).
      destruct (appliedOnBase C q); cbn [negb andb orb]; auto.
      now destruct (instanceOf C row (entity q)). }
    rewrite S. clear S.
    specialize (IH (done ++ [(k, row)])).
    rewrite <- app_assoc in IH. cbn [app] in IH.
    fold (obj_keys rest). fold (obj_values rest).
    destruct (appliedOnBase C q || instanceOf C row (entity q)).
    + rewrite IH by assumption. now rewrite <- app_assoc.
    + now rewrite IH by assumption.
Qed.

(** Without an id filter, [records()] on a table of model instances
    returns the rows in the key order of the table: all of them on a
    base entity, those that are instances of the queried model on a
    derived entity.  The query and the state stay as they are. *)
Theorem records_returns_the_rows q st :
  obj_wf (data st) = true ->
  idFilter q = None ->
  joinedIdFilter q = None ->
  (forall k row, obj_get k (data st) = Some row -> isModel row = true) ->
  records C q st
  = (filter (fun row => appliedOnBase C q || instanceOf C row (entity q))
            (obj_values (data st)),
     q, st).
Proof.
  intros W I J M. unfold records.
  assert (F : finalizeIdFilter C q = q)
    by (unfold finalizeIdFilter; now rewrite I).
  rewrite F. unfold getIdsToLookup. rewrite I, J.
  pose proof (fetch_rows q (data st) [] [] (keys_wf_NoDup _ W) M) as R.
  cbn [app] in R. rewrite R.
  unfold with_data. now destruct st.
Qed.

(** *** [find] and [findIn] *)



(** *** Aggregates *)





(** [first], [last] and [count] agree with [get()]: [first] and [last]
    are the first and the last record of what [get()] returns, [count]
    is its length, and [first] and [last] are [null] exactly when
    [count] is [0]. *)
Theorem first_last_count_agree q st :
  fst (fst (first C q st)) = hd_error (fst (fst (get C q st)))
  /\ fst (fst (last C q st))
     = hd_error (rev (fst (fst (get C q st))))
  /\ fst (fst (count C q st)) = List.length (fst (fst (get C q st)))
  /\ (fst (fst (count C q st)) = 0%nat <-> fst (fst (first C q st)) = None)
  /\ (fst (fst (count C q st)) = 0%nat <-> fst (fst (last C q st)) = None).
Proof.
  unfold first, last, count, get, item.
  destruct (select C q st) as [[found q1] st1]. cbn [fst snd].
  assert (Ec : collect found = found) by now destruct found.
  rewrite Ec.
  assert (L : match found with
              | [] => None
              | _ :: _ => nth_error found (List.length found - 1)
              end = hd_error (rev found)).
  { destruct found as [|x l]; auto.
    destruct (rev (x :: l)) as [|y l'] eqn:R.
    - apply (f_equal (@List.length _)) in R.
      rewrite length_rev in R. discriminate.
    - cbn [hd_error].
      rewrite <- (rev_involutive (x :: l)), R.
      cbn [rev]. rewrite length_app, length_rev. cbn [List.length].
      rewrite nth_error_app2 by (rewrite length_rev; lia).
      rewrite length_rev.
      replace (List.length l' + 1 - 1 - List.length l')%nat with 0%nat
        by lia.
      reflexivity. }
  rewrite L.
  split; [now destruct found|]. split; [reflexivity|].
  split; [reflexivity|]. split.
  - destruct found; simpl; split; congruence.
  - destruct found as [|x l]; [simpl; split; congruence|].
    split; [discriminate|]. intros H. exfalso. clear L.
    destruct (rev (x :: l)) eqn:R; [|discriminate].
    apply (f_equal (@List.length _)) in R.
    rewrite length_rev in R. discriminate.
Qed.

End ReadFacts.

(** ** [persist] *)

Section PersistFacts.

Variable C : Container.

(** The body of the [reduce] in [persist] keeps what is true of the
    collections so far. *)
Lemma persist_fold (normalized : NormalizedData) method options
      (Good : Obj (list Instance) -> Prop) keys :
  (forall e found (collection : Obj (list Instance)),
      In e keys -> found <> [] -> Good collection ->
      Good (obj_set e found collection)) ->
  forall (acc : Call (Obj (list Instance))),
    (forall w cs w', acc w = Returned cs w' -> Good cs) ->
    forall w cs w',
      fold_left
        (fun (acc : Call (Obj (list Instance))) e =>
           bind acc
             (fun collection =>
                match obj_get e normalized with
                | Some batch =>
                    bind (onState C (newQuery e)
                            (many C (getPersistMethod e method options)
                               (newQuery e) batch))
                         (fun found =>
                            ret (match found with
                                 | [] => collection
                                 | _ => obj_set e found collection
                                 end))
                | None => ret collection
                end))
        keys acc w = Returned cs w' ->
      Good cs.
Proof.
  induction keys as [|k keys IH]; intros Hset acc Hacc w cs w' E.
  - now apply (Hacc w cs w').
  - cbn [fold_left] in E. revert E. apply IH.
    + intros e found collection Hin. apply Hset. now right.
    + clear w cs w'. intros w cs w'. unfold bind, ret.
      destruct (acc w) as [collection w1|] eqn:Ea; [|discriminate].
      specialize (Hacc w collection w1 Ea).
      destruct (obj_get k normalized) as [batch|].
      * destruct (onState C (newQuery k) _ w1) as [found w2|];
          [|discriminate].
        intros [= <- _]. destruct found as [|x found]; auto.
        apply Hset; auto; [now left | discriminate].
      * now intros [= <- _].
Qed.

(** Whenever [persist] returns, by whatever method, the collections it
    returns hold no empty collection: an entity of the normalized data
    for which nothing was persisted (every record of it vetoed, or ids
    to update that the table does not have) has no entry, and every
    entry is for an entity of the normalized data. *)
Theorem persist_returns_no_empty_collection q d method options w cs w' :
  persist C q d method options w = Returned cs w' ->
  forall e found,
    obj_get e cs = Some found ->
    found <> []
    /\ In e (obj_keys (normalize C (entity q) d)).
Proof.
  unfold persist. destruct (isEmpty (normalize C (entity q) d)).
  - intros E e found Hf. assert (Hc : cs = []).
    { destruct method; unfold bind, ret in E;
        try (match type of E with
             | context [match ?x with
                        | Returned _ _ => _
                        | Thrown _ _ => _
                        end] => destruct x
             end); congruence. }
    subst cs. discriminate Hf.
  - intros E.
    apply (persist_fold (normalize C (entity q) d) method options
             (fun cs => forall e found,
                  obj_get e cs = Some found ->
                  found <> []
                  /\ In e (obj_keys (normalize C (entity q) d)))
             (obj_keys (normalize C (entity q) d)))
      with (acc := ret []) (w := w) (w' := w'); auto.
    + intros e0 found0 collection Hin Hne Hgood e found.
      rewrite obj_get_set.
      destruct (String.eqb_spec e0 e) as [<-|N]; [|apply Hgood].
      now intros [= <-].
    + unfold ret. intros w0 cs0 w0' [= <- _] e found. discriminate.
Qed.

End PersistFacts.

(** ** The table after [insertOrUpdate] and after an update by condition *)

Section UpsertFacts.

Variable C : Container.




End UpsertFacts.

(** ** Update by condition *)

Section ConditionFacts.

Variable C : Container.



Lemma obj_get_entries_opt (V W : Type) (G : V -> option W) (o : Obj V) k :
  NoDup (obj_keys o) ->
  obj_get k (flat_map (fun e => match G (snd e) with
                                | Some x => [(fst e, x)]
                                | None => []
                                end) o)
  = match obj_get k o with
    | Some v => G v
    | None => None
    end.
Proof.
  induction o as [|[k0 v0] o IH]; intros ND; simpl; auto.
  inversion ND as [|? ? Hn ND']; subst.
  rewrite obj_get_app, IH by assumption.
  destruct (String.eqb_spec k0 k) as [->|N].
  - destruct (G v0); simpl.
    + now rewrite String.eqb_refl.
    + now rewrite (proj2 (obj_get_None _ k o) Hn).
  - destruct (G v0); simpl; auto.
    destruct (String.eqb_spec k0 k); [contradiction | auto].
Qed.



End ConditionFacts.

(** ** [Query.deleteAll] *)

Section StaticFacts.

Variable C : Container.










End StaticFacts.

(** ** Inserting twice *)

Section AgainFacts.

Variable C : Container.








End AgainFacts.

(** ** The further properties on the concrete store *)

Section MoreExamples.

Import Example.

Lemma idsHandedOut_noHooks : idsHandedOut noHooks.
Proof. intros name hs h E. discriminate E. Qed.

Lemma idsHandedOut_vetoOnly : idsHandedOut vetoOnly.
Proof. apply idsHandedOut_on. exact idsHandedOut_noHooks. Qed.

Lemma on_hands_out_fresh_id_witness :
  fst (on "beforeCreate" passing false vetoOnly) = 2%N
  /\ registered "beforeCreate" (snd (on "beforeCreate" passing false vetoOnly))
     = registered "beforeCreate" vetoOnly ++ [mkHook 2 passing false].
Proof.
  destruct (on_hands_out_fresh_id "beforeCreate" passing false vetoOnly
              idsHandedOut_vetoOnly) as [H1 [_ [H3 _]]].
  split; [exact H1 | exact H3].
Defined.

Lemma off_undoes_on_witness :
  fst (off 2 (snd (on "beforeCreate" passing false vetoOnly))) = true
  /\ registered "beforeCreate"
       (snd (off 2 (snd (on "beforeCreate" passing false vetoOnly))))
     = registered "beforeCreate" vetoOnly.
Proof.
  destruct (off_undoes_on "beforeCreate" passing false vetoOnly
              idsHandedOut_vetoOnly) as [H1 [H2 _]].
  split; [exact H1 | exact (H2 "beforeCreate")].
Defined.

Lemma off_unknown_id_witness : off 7 vetoThenPass = (false, vetoThenPass).
Proof.
  apply off_unknown_id. intros name hs h E Hin.
  apply obj_get_In in E. destruct E as [E|[]].
  injection E as <- <-.
  destruct Hin as [<-|[<-|[]]]; discriminate.
Defined.

Lemma whereFk_narrows_joinedIdFilter_witness :
  Some (getIdsToLookup
          (finalizeIdFilter container
             (fold_left (call container) eitherId
                (whereFk container usersQuery "id" (WScalar (VNum 2)))))
          users)
  = Some [VNum 2].
Proof.
  exact (proj2 (proj2 (whereFk_narrows_joinedIdFilter container usersQuery
                         "id" eq_refl))
           (WScalar (VNum 2)) eitherId users eq_refl).
Defined.


Lemma after_hooks_reach_every_model_witness :
  map seen
      (callsSince onceThenAlways
         (executeAfterMutationHookOnModels container "afterCreate"
            usersQuery twoUsers onceThenAlways))
  = [("afterCreate", Some 1%N, user 1 "a");
     ("afterCreate", Some 2%N, user 1 "a");
     ("afterCreate", Some 2%N, user 2 "b")].
Proof.
  rewrite (after_hooks_reach_every_model container "afterCreate" usersQuery
             twoUsers onceThenAlways eq_refl).
  reflexivity.
Defined.

Lemma model_hook_veto_excludes_witness :
  obj_get "1" (data (snd (insertMany guardedContainer usersQuery twoRecords
                            {| data := []; reg := noHooks |})))
  = None
  /\ obj_get "2" (data (snd (insertMany guardedContainer usersQuery
                               twoRecords {| data := []; reg := noHooks |})))
     = Some (user 2 "b").
Proof.
  split; [|reflexivity].
  exact (proj2 (model_hook_veto_excludes guardedContainer usersQuery
                  guardHook twoRecords {| data := []; reg := noHooks |}
                  "1" [("id", VNum 1); ("name", VStr "a")]
                  eq_refl eq_refl eq_refl eq_refl eq_refl)).
Defined.


Lemma update_without_match_is_noop_witness :
  updateMany container usersQuery [("9", [("name", VStr "z")])] store
  = ([], store)
  /\ updateById container usersQuery (UpdateClosure renameZ) (VNum 9) store
     = (None, store).
Proof.
  destruct (update_without_match_is_noop container usersQuery store eq_refl)
    as [H1 [_ H3]].
  split.
  - apply H1. intros k [<-|[]]. reflexivity.
  - apply H3. reflexivity.
Defined.



Lemma deleteAll_removes_instances_witness :
  fst (deleteAll container (newQuery "adults") peopleStore) = [adult 2 "q"]
  /\ data (snd (deleteAll container (newQuery "adults") peopleStore))
     = [("1", person 1 "p")].
Proof.
  destruct (deleteAll_removes_instances container (newQuery "adults")
              peopleStore eq_refl
              (noHooks_peaceful container (newQuery "adults") eq_refl))
    as [_ H].
  destruct (H eq_refl) as [H1 H2]. split; [exact H1 | exact H2].
Defined.


Lemma records_returns_the_rows_witness :
  records container usersQuery store
  = ([user 1 "a"; user 2 "b"], usersQuery, store).
Proof.
  apply (records_returns_the_rows container usersQuery store);
    try reflexivity.
  intros k row E. apply obj_get_In in E.
  destruct E as [E|[E|[]]]; injection E as <- <-; reflexivity.
Defined.


Lemma persist_returns_no_empty_collection_witness :
  [user 3 "c"] <> []
  /\ In "users"
        (obj_keys (normalize flatContainer "users"
                     (POne [("id", VNum 3); ("name", VStr "c")]))).
Proof.
  apply (persist_returns_no_empty_collection flatContainer usersQuery
           (POne [("id", VNum 3); ("name", VStr "c")]) Insert noOptions
           world [("users", [user 3 "c"])]
           {| root := [("users", users ++ [("3", user 3 "c")])];
              wreg := noHooks |});
    reflexivity.
Defined.





End MoreExamples.
